(** * Search-window selection and retrieval of [vq2d/baselines/feature_retrieval.py]

    A shallow embedding of [perform_retrieval] and [perform_cached_retrieval].

    - A Python [float] is an IEEE 754 binary64 number: it is a [spec_float] of
      the Standard Library, and the arithmetic of Python and numpy is the
      library's specification of binary64 ([SFmul], [SFdiv], ...), the one
      Rocq's primitive floats are specified by.
    - A Python [int] is a [Z], a Python list a [list]; an operation that can
      raise returns a [result].
    - Frames, float32 tensors, OpenCV, PyTorch and the helper
      [extract_window_with_context] are parameters of the retrievers; for
      the rescaling of boxes an element of a float32 tensor is a binary32
      number and the tensor division the library's binary32 division.

    The theorems about windows are stated for lists of fewer than [2^52]
    elements: the length of a list that fits in the address space of a 64-bit
    machine, and a length every operation below converts to a double exactly. *)

From Stdlib Require Import String.
From Stdlib Require Import ZArith List Bool Lia Sorted.
From Stdlib Require Import QArith Qround Qpower Lqa.
From Stdlib Require Import Floats.
Import ListNotations.

Local Open Scope Z_scope.

(** * The program *)

(** ** Python results *)

Inductive pyerr := ValueError | OverflowError | IndexError | ZeroDivisionError.

Inductive result (A : Type) :=
| Ok (a : A)
| Raise (e : pyerr).
Arguments Ok {A} a.
Arguments Raise {A} e.

Definition bind {A B} (r : result A) (k : A -> result B) : result B :=
  match r with
  | Ok a => k a
  | Raise e => Raise e
  end.

Notation "x <- r ;; k" := (bind r (fun x => k))
  (at level 61, r at next level, right associativity).

(** A list comprehension whose element expression can raise. *)
Fixpoint mapM {A B} (f : A -> result B) (l : list A) : result (list B) :=
  match l with
  | [] => Ok []
  | a :: l' => b <- f a ;; bs <- mapM f l' ;; Ok (b :: bs)
  end.

(** A [for] loop over [l] that updates the variables [s]. *)
Fixpoint foldM {A S} (f : S -> A -> result S) (l : list A) (s : S) : result S :=
  match l with
  | [] => Ok s
  | a :: l' => s' <- f s a ;; foldM f l' s'
  end.

(** ** binary64 arithmetic *)

Abbreviation pyfloat := spec_float.

Definition fmul : pyfloat -> pyfloat -> pyfloat := SFmul prec emax.
Definition fdiv : pyfloat -> pyfloat -> pyfloat := SFdiv prec emax.
Definition fadd : pyfloat -> pyfloat -> pyfloat := SFadd prec emax.
Definition fsub : pyfloat -> pyfloat -> pyfloat := SFsub prec emax.

(** Conversion of an integer to the nearest double, as numpy casts an
    integer array and as [arange] fills a float array. *)
Definition of_int (n : Z) : pyfloat := binary_normalize prec emax n 0 false.

(** [float(n)] of a Python integer: too large an integer raises. *)
Definition float_of_int (n : Z) : result pyfloat :=
  match of_int n with
  | S754_infinity _ => Raise OverflowError
  | f => Ok f
  end.

(** [x == 0] on doubles. *)
Definition eq_zero (x : pyfloat) : bool :=
  match x with
  | S754_zero _ => true
  | _ => false
  end.

(** Integer part of [m * 2^e]. *)
Definition trunc_mag (m : positive) (e : Z) : Z := Z.shiftl (Zpos m) e.

(** Nearest integer of [m * 2^e], a tie going to the even one. *)
Definition rne_mag (m : positive) (e : Z) : Z :=
  if 0 <=? e then Z.shiftl (Zpos m) e
  else
    let d := 2 ^ (- e) in
    let q := Zpos m / d in
    match 2 * (Zpos m mod d) ?= d with
    | Lt => q
    | Gt => q + 1
    | Eq => if Z.even q then q else q + 1
    end.

(** Python's [int(x)] of a float: truncation toward zero. *)
Definition py_int (x : pyfloat) : result Z :=
  match x with
  | S754_zero _ => Ok 0
  | S754_finite s m e => Ok (cond_Zopp s (trunc_mag m e))
  | S754_infinity _ => Raise OverflowError
  | S754_nan => Raise ValueError
  end.

(** Python's [round(x)] of a float without [ndigits]: an integer, half to
    even. *)
Definition py_round (x : pyfloat) : result Z :=
  match x with
  | S754_zero _ => Ok 0
  | S754_finite s m e => Ok (cond_Zopp s (rne_mag m e))
  | S754_infinity _ => Raise OverflowError
  | S754_nan => Raise ValueError
  end.

Definition int64_min : Z := - 2 ^ 63.

(** numpy's [.astype(int)] of a double: the C cast to a 64-bit integer, which
    truncates; out of range, and on infinities and NaN, the x86-64 conversion
    gives the smallest 64-bit integer. *)
Definition astype_int (x : pyfloat) : Z :=
  match x with
  | S754_zero _ => 0
  | S754_finite s m e =>
      let t := cond_Zopp s (trunc_mag m e) in
      if (int64_min <=? t) && (t <? 2 ^ 63) then t else int64_min
  | _ => int64_min
  end.

(** [a / b] of a float by an integer. *)
Definition py_truediv (a : pyfloat) (b : Z) : result pyfloat :=
  if b =? 0 then Raise ZeroDivisionError
  else fb <- float_of_int b ;; Ok (fdiv a fb).

(** A literal, read as Python reads it. *)
Definition lit (x : PrimFloat.float) : pyfloat := Prim2SF x.

Definition f_one : pyfloat := lit 1.
Definition f_half : pyfloat := lit 0.5.
Definition f_quarter : pyfloat := lit 0.25.
Definition f_small : pyfloat := lit 0.03125.

(** ** Python lists and ranges *)

Definition len {A} (l : list A) : Z := Z.of_nat (length l).

(** [list(range(0, n))] *)
Definition py_range (n : Z) : list Z := map Z.of_nat (seq 0 (Z.to_nat n)).

(** [range(start, stop)] *)
Definition py_range2 (start stop : Z) : list Z :=
  map (fun k => start + k) (py_range (stop - start)).

(** [range(start, stop, step)] *)
Definition py_range3 (start stop step : Z) : result (list Z) :=
  if step =? 0 then Raise ValueError
  else
    let count :=
      if 0 <? step then (stop - start + step - 1) / step
      else (start - stop - step - 1) / (- step) in
    Ok (map (fun k => start + k * step) (py_range count)).

(** [l[start:]] *)
Definition slice_from {A} (l : list A) (start : Z) : list A :=
  let s := if start <? 0 then Z.max (len l + start) 0 else Z.min start (len l) in
  skipn (Z.to_nat s) l.

(** [l[i]], a negative index counting from the end. *)
Definition py_index {A} (l : list A) (i : Z) : result A :=
  let j := if i <? 0 then i + len l else i in
  if j <? 0 then Raise IndexError
  else match nth_error l (Z.to_nat j) with
       | Some a => Ok a
       | None => Raise IndexError
       end.

(** [y[-1] = v] *)
Fixpoint set_last {A} (l : list A) (v : A) : list A :=
  match l with
  | [] => []
  | [_] => [v]
  | a :: l' => a :: set_last l' v
  end.

(** ** numpy.linspace on integer end points

    [np.linspace(start, stop, num)] with [endpoint=True]: the step is
    [delta / div]; the samples are [arange(0, num) * step + start], the last
    one overwritten by [stop]. *)
Definition linspace (start stop num : Z) : result (list pyfloat) :=
  if num <? 0 then Raise ValueError
  else
    let div := num - 1 in
    let delta := fsub (of_int stop) (of_int start) in
    let y := map of_int (py_range num) in
    let y :=
      if 0 <? div then
        let step := fdiv delta (of_int div) in
        if eq_zero step
        then map (fun v => fmul (fdiv v (of_int div)) delta) y
        else map (fun v => fmul v step) y
      else map (fun v => fmul v delta) y in
    let y := map (fun v => fadd v (of_int start)) y in
    let y := if 1 <? num then set_last y (of_int stop) else y in
    Ok y.

(** ** Window selection of the live retriever (lines 53-64) *)

(** [int(round(len(search_window) * recency_factor))] *)
Definition recency_count (w : list Z) (recency_factor : pyfloat) : result Z :=
  n <- float_of_int (len w) ;;
  py_round (fmul n recency_factor).

(** Pick recent k% of frames. *)
Definition recency_step (search_window : list Z) (recency_factor : pyfloat)
  : result (list Z) :=
  window_size <- recency_count search_window recency_factor ;;
  if 0 <? len (slice_from search_window (- window_size))
  then Ok (slice_from search_window (- window_size))
  else Ok search_window.

(** [int(subsampling_factor * window_size)] *)
Definition sample_count (window_size : Z) (subsampling_factor : pyfloat)
  : result Z :=
  n <- float_of_int window_size ;;
  py_int (fmul subsampling_factor n).

(** Subsample only k% of frames. *)
Definition subsample_step (search_window : list Z) (subsampling_factor : pyfloat)
  : result (list Z) :=
  let window_size := len search_window in
  num <- sample_count window_size subsampling_factor ;;
  ys <- linspace 0 (window_size - 1) num ;;
  let idxs_to_sample := map astype_int ys in
  if 0 <? len idxs_to_sample
  then mapM (py_index search_window) idxs_to_sample
  else Ok search_window.

Definition select_window (query_frame : Z)
    (recency_factor subsampling_factor : pyfloat) : result (list Z) :=
  let search_window := py_range query_frame in
  search_window <- recency_step search_window recency_factor ;;
  subsample_step search_window subsampling_factor.

(** ** Window selection of the cached retriever (lines 148-159),
    transcribed on its own. *)
Definition cached_select_window (query_frame : Z)
    (recency_factor subsampling_factor : pyfloat) : result (list Z) :=
  let search_window := py_range query_frame in
  n <- float_of_int (len search_window) ;;
  window_size <- py_round (fmul n recency_factor) ;;
  let search_window :=
    if 0 <? len (slice_from search_window (- window_size))
    then slice_from search_window (- window_size)
    else search_window in
  let window_size := len search_window in
  m <- float_of_int window_size ;;
  num <- py_int (fmul subsampling_factor m) ;;
  ys <- linspace 0 (window_size - 1) num ;;
  let idxs_to_sample := map astype_int ys in
  if 0 <? len idxs_to_sample
  then mapM (py_index search_window) idxs_to_sample
  else Ok search_window.

(** ** The retrievers *)

Record VisualCrop := {
  frame_number : Z;
  original_width : Z;
  original_height : Z;
  crop_x : Z;
  crop_y : Z;
  crop_width : Z;
  crop_height : Z
}.

Record BBox := {
  fno : Z;
  x1 : Z;
  y1 : Z;
  x2 : Z;
  y2 : Z
}.

Section Retrieval.

(** Frames and float32 tensor elements, and the collaborators of the module:
    OpenCV's [resize] to a size and by a factor, PyTorch's division of a
    float32 tensor by a Python scalar, the casts of a tensor element to an
    integer and to a Python float, and [extract_window_with_context] of
    [baselines/utils.py] together with the tensor conversions around it. *)
Variable image : Type.
Variable f32 : Type.
Variable shape : image -> Z * Z.
Variable cv2_resize : image -> Z -> Z -> image.
Variable cv2_rescale : image -> pyfloat -> image.
Variable tensor_div : f32 -> pyfloat -> f32.
Variable f32_astype_int : f32 -> Z.
Variable f32_tolist : f32 -> pyfloat.
Variable extract_window_with_context :
  image -> Z * Z * Z * Z -> pyfloat -> Z -> Z -> result image.

Record Instances := {
  pred_boxes : list (f32 * f32 * f32 * f32);
  scores : list f32
}.

(** The predictor: two fields of its configuration and its inference
    function. *)
Record Predictor := {
  REFERENCE_CONTEXT_PAD : pyfloat;
  REFERENCE_SIZE : Z;
  call : list image -> list image -> result (list Instances)
}.

(** [video_reader[i]] *)
Definition video := Z -> result image.

(** Lines 28-51 and 123-146. *)
Definition prepare_reference (video_reader : video) (visual_crop : VisualCrop)
    (net : Predictor) : result image :=
  let vc_fno := frame_number visual_crop in
  let owidth := original_width visual_crop in
  let oheight := original_height visual_crop in
  reference <- video_reader vc_fno ;;
  let reference :=
    if negb (fst (shape reference) =? oheight)
       || negb (snd (shape reference) =? owidth)
    then cv2_resize reference owidth oheight
    else reference in
  let ref_bbox :=
    (crop_x visual_crop, crop_y visual_crop,
     crop_x visual_crop + crop_width visual_crop,
     crop_y visual_crop + crop_height visual_crop) in
  extract_window_with_context reference ref_bbox
    (REFERENCE_CONTEXT_PAD net) (REFERENCE_SIZE net) 125.

(** The lists the loop appends to, and what it prints. *)
Record state := {
  ret_bboxes : list (list BBox);
  ret_scores : list (list pyfloat);
  ret_imgs : list image;
  stdout : list string
}.

(** The lists of one batch. *)
Record batch := {
  bimages : list image;
  breferences : list image;
  image_scales : list pyfloat
}.

Section Live.

Variable video_reader : video.
Variable visual_crop : VisualCrop.
Variable net : Predictor.
Variable batch_size : Z.
Variable downscale_height : Z.
Variable visualize : bool.
Variable reference : image.
Variable search_window : list Z.

(** Lines 77-89: one frame of a batch is read and scaled down. *)
Definition load_frame (p : batch * state) (j : Z) : result (batch * state) :=
  let '(b, st) := p in
  let owidth := original_width visual_crop in
  let oheight := original_height visual_crop in
  s <- py_index search_window j ;;
  orig_image <- video_reader s ;;
  let mismatch :=
    negb ((fst (shape orig_image) =? oheight)
          && (snd (shape orig_image) =? owidth)) in
  let image :=
    if mismatch then cv2_resize orig_image owidth oheight else orig_image in
  let out :=
    if mismatch
    then stdout st ++ ["Incorrect aspect ratio encountered!"%string]
    else stdout st in
  dh <- float_of_int downscale_height ;;
  image_scale <- py_truediv dh (fst (shape image)) ;;
  let image := cv2_rescale image image_scale in
  Ok ({| bimages := bimages b ++ [image];
         breferences := breferences b ++ [reference];
         image_scales := image_scales b ++ [image_scale] |},
      {| ret_bboxes := ret_bboxes st;
         ret_scores := ret_scores st;
         ret_imgs :=
           if visualize then ret_imgs st ++ [orig_image] else ret_imgs st;
         stdout := out |}).

(** Lines 97-99: a box divided by the scale and cast to integers. *)
Definition rescale_box (image_scale : pyfloat) (b : f32 * f32 * f32 * f32)
  : Z * Z * Z * Z :=
  let '(a1, b1, a2, b2) := b in
  let r c := f32_astype_int (tensor_div c image_scale) in
  (r a1, r b1, r a2, r b2).

(** Lines 94-103: the outputs of one frame are unpacked. *)
Definition unpack_frame (all_outputs : list Instances) (b : batch) (i : Z)
    (st : state) (j : Z) : result state :=
  instances <- py_index all_outputs (j - i) ;;
  image_scale <- py_index (image_scales b) (j - i) ;;
  let ret_bbs := map (rescale_box image_scale) (pred_boxes instances) in
  s <- py_index search_window j ;;
  let ret_bbs :=
    map (fun '(a1, b1, a2, b2) =>
           {| fno := s; x1 := a1; y1 := b1; x2 := a2; y2 := b2 |}) ret_bbs in
  let ret_scs := map f32_tolist (scores instances) in
  Ok {| ret_bboxes := ret_bboxes st ++ [ret_bbs];
        ret_scores := ret_scores st ++ [ret_scs];
        ret_imgs := ret_imgs st;
        stdout := stdout st |}.

(** One turn of the loop of line 71. *)
Definition process_batch (st : state) (i : Z) : result state :=
  let i_end := Z.min (i + batch_size) (len search_window) in
  p <- foldM load_frame (py_range2 i i_end)
         ({| bimages := []; breferences := []; image_scales := [] |}, st) ;;
  all_outputs <- call net (bimages (fst p)) (breferences (fst p)) ;;
  foldM (unpack_frame all_outputs (fst p) i) (py_range2 i i_end) (snd p).

End Live.

Definition initial_state : state :=
  {| ret_bboxes := []; ret_scores := []; ret_imgs := []; stdout := [] |}.

Definition perform_retrieval (video_reader : video) (visual_crop : VisualCrop)
    (query_frame : Z) (net : Predictor) (batch_size downscale_height : Z)
    (recency_factor subsampling_factor : pyfloat) (visualize : bool)
  : result (list (list BBox) * list (list pyfloat) * list image * image) :=
  reference <- prepare_reference video_reader visual_crop net ;;
  search_window <- select_window query_frame recency_factor subsampling_factor ;;
  starts <- py_range3 0 (len search_window) batch_size ;;
  st <- foldM (process_batch video_reader visual_crop net batch_size
                 downscale_height visualize reference search_window)
              starts initial_state ;;
  Ok (ret_bboxes st, ret_scores st, ret_imgs st, reference).

Definition perform_cached_retrieval {B S : Type} (video_reader : video)
    (visual_crop : VisualCrop) (query_frame : Z) (net : Predictor)
    (cached_bboxes : list B) (cached_scores : list S)
    (recency_factor subsampling_factor : pyfloat) (visualize : bool)
  : result (list B * list S * list image * image) :=
  reference <- prepare_reference video_reader visual_crop net ;;
  search_window <-
    cached_select_window query_frame recency_factor subsampling_factor ;;
  ret_bboxes <- mapM (py_index cached_bboxes) search_window ;;
  ret_scores <- mapM (py_index cached_scores) search_window ;;
  ret_imgs <- (if visualize then mapM video_reader search_window else Ok []) ;;
  Ok (ret_bboxes, ret_scores, ret_imgs, reference).

End Retrieval.

Arguments ret_imgs {image}.
Arguments ret_bboxes {image}.
Arguments ret_scores {image}.
Arguments stdout {image}.

(** * Specifications *)

(** The longest window the theorems speak of. *)
Definition max_len : Z := 2 ^ 52.

(** ** Values of doubles *)

Definition pow2 (e : Z) : Q := (2 ^ e)%Q.
Arguments pow2 : simpl never.

(** The value of a finite double. *)
Definition F2Q (x : pyfloat) : Q :=
  match x with
  | S754_finite s m e => (inject_Z (cond_Zopp s (Zpos m)) * pow2 e)%Q
  | _ => 0%Q
  end.

(** A zero or a positive finite double. *)
Definition is_nonneg (x : pyfloat) : bool :=
  match x with
  | S754_zero _ | S754_finite false _ _ => true
  | _ => false
  end.

(** A positive finite double. *)
Definition is_pos (x : pyfloat) : bool :=
  match x with
  | S754_finite false _ _ => true
  | _ => false
  end.

Definition fexpo (x : pyfloat) : Z :=
  match x with
  | S754_finite _ _ e => e
  | _ => 0
  end.

(** A factor in [[0, 1]], and one in [(0, 1]]. *)
Definition in_unit (x : pyfloat) : Prop :=
  is_nonneg x = true /\ (F2Q x <= 1)%Q.
Definition in_unit_pos (x : pyfloat) : Prop :=
  is_pos x = true /\ (F2Q x <= 1)%Q.

(** ** Rounding to nearest, ties to even *)

(** The nearest integer of a rational, a tie going to the even one. *)
Definition Qrne (x : Q) : Z :=
  let f := Qfloor x in
  match (x - inject_Z f ?= 1 # 2)%Q with
  | Lt => f
  | Gt => f + 1
  | Eq => if Z.even f then f else f + 1
  end.

(** The exponent of the last place of a double of magnitude [2^(g-1) .. 2^g]. *)
Definition cexp (g : Z) : Z := fexp prec emax g.

(** [v] is the double nearest to the positive rational [X]. *)
Definition rounded (X v : Q) : Prop :=
  exists g, (pow2 (g - 1) <= X < pow2 g)%Q /\
            (v == inject_Z (Qrne (X / pow2 (cexp g))) * pow2 (cexp g))%Q.

(** The same for a rational that may be zero. *)
Definition rnd_of (X v : Q) : Prop :=
  ((X == 0)%Q /\ (v == 0)%Q) \/ rounded X v.

(** Where a rational lies between the integers [m] and [m + 1]. *)
Definition located (X : Q) (m : Z) (l : location) : Prop :=
  match l with
  | loc_Exact => (X == inject_Z m)%Q
  | loc_Inexact Lt => (inject_Z m < X < inject_Z m + (1 # 2))%Q
  | loc_Inexact Eq => (X == inject_Z m + (1 # 2))%Q
  | loc_Inexact Gt => (inject_Z m + (1 # 2) < X < inject_Z m + 1)%Q
  end.

Definition rec_located (X : Q) (mrs : shr_record) : Prop :=
  0 <= shr_m mrs /\ located X (shr_m mrs) (loc_of_shr_record mrs).

(** [f] is a zero or a finite double of sign [s], value [V] and exponent at
    most [B]. *)
Definition is_val (s : bool) (f : pyfloat) (V : Q) (B : Z) : Prop :=
  (f = S754_zero s /\ (V == 0)%Q) \/
  (exists m e, f = S754_finite s m e /\
               (V == inject_Z (Zpos m) * pow2 e)%Q /\ e <= B).

(** ** Windows and samples *)

(** The frames [a, a+1, ..., a+n-1]. *)
Definition interval (a n : nat) : list Z := map Z.of_nat (seq a n).

(** The step and the samples [linspace 0 (W - 1) n] computes. *)
Definition step (W n : Z) : pyfloat := fdiv (of_int (W - 1)) (of_int (n - 1)).

Definition sample (W n j : Z) : pyfloat :=
  fadd (fmul (of_int j) (step W n)) (of_int 0).

Definition lin_idx (W n j : Z) : Z := astype_int (sample W n j).

(** The subsampling step after its count is known. *)
Definition pick_samples (w : list Z) (num : Z) : result (list Z) :=
  ys <- linspace 0 (len w - 1) num ;;
  let idxs_to_sample := map astype_int ys in
  if 0 <? len idxs_to_sample
  then mapM (py_index w) idxs_to_sample
  else Ok w.

(** Sample [j] of [n] samples interpolated over [[0, W-1]]: the last one is
    [W - 1]; the others are the rounded product of [j] and the rounded
    quotient [(W - 1) / (n - 1)]; a single sample is [0]. *)
Definition interp_sample (W n j : Z) (y : Q) : Prop :=
  if n =? 1 then (y == 0)%Q
  else if j =? n - 1 then (y == inject_Z (W - 1))%Q
  else exists s, rounded (inject_Z (W - 1) / inject_Z (n - 1)) s /\
                 rnd_of (inject_Z j * s) y.

(** Sample [j] of [n] samples over [[0, W-1]] in exact arithmetic; for
    [n = 1] it is [0], as a quotient by [0] is in [Q]. *)
Definition exact_sample (W n j : Z) : Q :=
  (inject_Z j * inject_Z (W - 1) / inject_Z (n - 1))%Q.

(** ** Elements of float32 tensors

    An element of a float32 tensor is a binary32 number: a [spec_float]
    again, with the library's operations at precision 24 and largest
    exponent 128. *)

(** A Python float as an element of a float32 tensor: the nearest binary32
    number. *)
Definition to_f32 (x : pyfloat) : spec_float :=
  match x with
  | S754_finite s m e => binary_normalize 24 128 (cond_Zopp s (Zpos m)) e s
  | _ => x
  end.

(** [tensor / image_scale] on one element of a float32 tensor: the scalar
    is taken to float32 and the quotient is the binary32 division. *)
Definition f32_div (c : spec_float) (image_scale : pyfloat) : spec_float :=
  SFdiv 24 128 c (to_f32 image_scale).

(** An element of a float32 tensor as a Python float: the same number. *)
Definition f32_to_float (c : spec_float) : pyfloat := c.

(** The exponent of the last place of a binary32 number of magnitude
    [2^(g-1) .. 2^g]. *)
Definition cexp32 (g : Z) : Z := fexp 24 128 g.

(** [v] is the binary32 number nearest to the positive rational [X]. *)
Definition rounded32 (X v : Q) : Prop :=
  exists g, (pow2 (g - 1) <= X < pow2 g)%Q /\
            (v == inject_Z (Qrne (X / pow2 (cexp32 g))) * pow2 (cexp32 g))%Q.

(** The coordinate [c] of a box is the non-negative rational [X] to the
    accuracy of binary32: at most half a unit in the last place away. *)
Definition near32 (X : Q) (c : spec_float) : Prop :=
  is_nonneg c = true /\
  (X * (1 - pow2 (-24)) <= F2Q c <= X * (1 + pow2 (-24)))%Q.

(** The scale of a frame 1080 pixels high for [downscale_height = 700], and
    a coordinate of the scaled frame. *)
Definition scale_700_1080 : pyfloat := fdiv (of_int 700) (of_int 1080).
Definition far_coordinate : spec_float := S754_finite false 10874122 2.
Definition near_coordinate : spec_float := to_f32 (fmul (of_int 1000) scale_700_1080).

(** ** The claims as the specification words them *)

(** Index [j] of [n] interpolated over [[0, W-1]] and rounded to the nearest
    integer. *)
Definition nearest_index (W n j : Z) : Z :=
  Qrne (inject_Z j * inject_Z (W - 1) / inject_Z (n - 1)).

(** The window subsampled at the nearest indices. *)
Definition nearest_subsample (w : list Z) (n : Z) : list Z :=
  map (fun j => nth (Z.to_nat (nearest_index (len w) n j)) w 0) (py_range n).

(** The last [k] elements of a list. *)
Definition last_elements (k : Z) (l : list Z) : list Z :=
  skipn (length l - Z.to_nat k) l.

(** ** Signs and finite doubles *)

(** A zero or a finite double: neither an infinity nor a NaN. *)
Definition is_finite (x : pyfloat) : bool :=
  match x with
  | S754_zero _ | S754_finite _ _ _ => true
  | _ => false
  end.

(** [- x] on doubles. *)
Definition fneg : pyfloat -> pyfloat := SFopp.

(** [- r] of the result of a conversion to an integer. *)
Definition neg_result (r : result Z) : result Z :=
  match r with
  | Ok n => Ok (- n)
  | Raise e => Raise e
  end.

(** ** The live retriever, one frame at a time *)

Section FrameByFrame.
Variable image : Type.
Variable f32 : Type.
Variable shape : image -> Z * Z.
Variable cv2_resize : image -> Z -> Z -> image.
Variable cv2_rescale : image -> pyfloat -> image.
Variable tensor_div : f32 -> pyfloat -> f32.
Variable f32_astype_int : f32 -> Z.
Variable f32_tolist : f32 -> pyfloat.

(** What lines 77-89 hold of one frame: the frame as read, the frame
    scaled down, the scale, and whether the warning is printed. *)
Record loaded := {
  raw : image;
  scaled : image;
  scale : pyfloat;
  warned : bool
}.

(** Lines 77-84 for the frame number [s]. *)
Definition load_one (video_reader : video image) (visual_crop : VisualCrop)
    (downscale_height : Z) (s : Z) : result loaded :=
  let owidth := original_width visual_crop in
  let oheight := original_height visual_crop in
  orig_image <- video_reader s ;;
  let mismatch :=
    negb ((fst (shape orig_image) =? oheight)
          && (snd (shape orig_image) =? owidth)) in
  let image :=
    if mismatch then cv2_resize orig_image owidth oheight else orig_image in
  dh <- float_of_int downscale_height ;;
  image_scale <- py_truediv dh (fst (shape image)) ;;
  Ok {| raw := orig_image; scaled := cv2_rescale image image_scale;
        scale := image_scale; warned := mismatch |}.

(** Lines 97-101 for the frame number [s]: the boxes and the scores of one
    output. *)
Definition unpack_one (s : Z) (instances : Instances f32)
    (image_scale : pyfloat) : list BBox * list pyfloat :=
  (map (fun '(a1, b1, a2, b2) =>
          {| fno := s; x1 := a1; y1 := b1; x2 := a2; y2 := b2 |})
       (map (rescale_box f32 tensor_div f32_astype_int image_scale)
            (pred_boxes f32 instances)),
   map f32_tolist (scores f32 instances)).

(** A predictor that computes the output of each pair of a frame and a
    reference on its own, by [detect]. *)
Definition pairwise (net : Predictor image f32)
    (detect : image -> image -> result (Instances f32)) : Prop :=
  forall imgs refs,
    length imgs = length refs ->
    call image f32 net imgs refs
    = mapM (fun p => detect (fst p) (snd p)) (combine imgs refs).

(** One frame searched on its own: read and scaled, given to [detect] with
    the reference, and its output unpacked. *)
Definition retrieve_frame (video_reader : video image)
    (visual_crop : VisualCrop) (downscale_height : Z)
    (detect : image -> image -> result (Instances f32)) (reference : image)
    (s : Z) : result (list BBox * list pyfloat * image) :=
  x <- load_one video_reader visual_crop downscale_height s ;;
  instances <- detect (scaled x) reference ;;
  Ok (unpack_one s instances (scale x), raw x).

End FrameByFrame.

Arguments raw {image}.
Arguments scaled {image}.
Arguments scale {image}.
Arguments warned {image}.

(** ** A small video and predictor, to run the retrievers on

    Frame [i] is the number [i]; the predictor finds nothing in any frame -
    or, for [toy_net_busy], one box with one score. *)
Definition toy_shape (i : Z) : Z * Z := (4, 4).
Definition toy_resize (i w h : Z) : Z := i.
Definition toy_rescale (i : Z) (s : pyfloat) : Z := i.
Definition toy_div (c : Z) (s : pyfloat) : Z := c.
Definition toy_extract (i : Z) (b : Z * Z * Z * Z) (pad : pyfloat) (size v : Z)
  : result Z := Ok i.
Definition toy_reader : video Z := fun i => Ok i.
Definition toy_crop : VisualCrop :=
  {| frame_number := 0; original_width := 4; original_height := 4;
     crop_x := 0; crop_y := 0; crop_width := 2; crop_height := 2 |}.
Definition toy_net : Predictor Z Z :=
  {| REFERENCE_CONTEXT_PAD := f_half; REFERENCE_SIZE := 2;
     call := fun imgs refs =>
       Ok (map (fun _ => {| pred_boxes := []; scores := [] |}) imgs) |}.
Definition toy_net_busy : Predictor Z Z :=
  {| REFERENCE_CONTEXT_PAD := f_half; REFERENCE_SIZE := 2;
     call := fun imgs refs =>
       Ok (map (fun _ => {| pred_boxes := [(1, 1, 2, 2)]; scores := [7] |})
               imgs) |}.
Definition toy_retrieval (net : Predictor Z Z) (query_frame batch_size : Z)
    (visualize : bool) :=
  perform_retrieval Z Z toy_shape toy_resize toy_rescale toy_div
    (fun c => c) of_int toy_extract toy_reader toy_crop query_frame net
    batch_size 4 f_one f_one visualize.
Definition toy_cached_retrieval (net : Predictor Z Z) (query_frame : Z)
    (visualize : bool) :=
  perform_cached_retrieval Z Z toy_shape toy_resize toy_extract toy_reader
    toy_crop query_frame net [10; 11; 12] [20; 21; 22] f_one f_one visualize.

(** What [toy_net_busy] finds in each pair, and what the live retriever
    then returns for the first [q] frames. *)
Definition toy_detect (i r : Z) : result (Instances Z) :=
  Ok {| pred_boxes := [(1, 1, 2, 2)]; scores := [7] |}.
Definition toy_boxes (q : Z) : list (list BBox) :=
  map (fun s => [{| fno := s; x1 := 1; y1 := 1; x2 := 2; y2 := 2 |}])
      (py_range q).
Definition toy_scores (q : Z) : list (list pyfloat) :=
  map (fun _ => [of_int 7]) (py_range q).
Definition toy_live (query_frame batch_size : Z)
    (recency_factor subsampling_factor : pyfloat) (visualize : bool) :=
  perform_retrieval Z Z toy_shape toy_resize toy_rescale toy_div
    (fun c => c) of_int toy_extract toy_reader toy_crop query_frame
    toy_net_busy batch_size 4 recency_factor subsampling_factor visualize.
Definition toy_cached (query_frame : Z)
    (cached_bboxes : list (list BBox)) (cached_scores : list (list pyfloat))
    (recency_factor subsampling_factor : pyfloat) (visualize : bool) :=
  perform_cached_retrieval Z Z toy_shape toy_resize toy_extract toy_reader
    toy_crop query_frame toy_net_busy cached_bboxes cached_scores
    recency_factor subsampling_factor visualize.

(** Frames that are their own shape, for a [resize] that gives the size it
    is asked for; every frame of the video is 3 by 6. *)
Definition sized_shape (i : Z * Z) : Z * Z := i.
Definition sized_resize (i : Z * Z) (w h : Z) : Z * Z := (h, w).
Definition sized_rescale (i : Z * Z) (s : pyfloat) : Z * Z := i.
Definition sized_reader : video (Z * Z) := fun s => Ok (3, 6).

(** * Proofs *)

(** ** Nearest-even rounding of rationals *)

Lemma inject_Z_sub x y : inject_Z (x - y) = (inject_Z x - inject_Z y)%Q.
Proof. unfold Z.sub. rewrite inject_Z_plus, inject_Z_opp. reflexivity. Qed.

Ltac zq :=
  rewrite ?inject_Z_sub, ?inject_Z_plus, ?inject_Z_mult, ?inject_Z_opp;
  change (inject_Z 0) with 0%Q;
  change (inject_Z 1) with 1%Q;
  change (inject_Z 2) with 2%Q.

Ltac zq_in H :=
  rewrite ?inject_Z_sub, ?inject_Z_plus, ?inject_Z_mult, ?inject_Z_opp in H;
  change (inject_Z 0) with 0%Q in H;
  change (inject_Z 1) with 1%Q in H;
  change (inject_Z 2) with 2%Q in H.

Lemma Qfloor_bounds x : (inject_Z (Qfloor x) <= x < inject_Z (Qfloor x) + 1)%Q.
Proof.
  split; [apply Qfloor_le|].
  generalize (Qlt_floor x). rewrite inject_Z_plus. auto.
Qed.

Lemma Qrne_cases x :
  let f := Qfloor x in
  ((x - inject_Z f < 1 # 2)%Q /\ Qrne x = f) \/
  ((1 # 2 < x - inject_Z f)%Q /\ Qrne x = f + 1) \/
  ((x - inject_Z f == 1 # 2)%Q /\ Qrne x = if Z.even f then f else f + 1).
Proof.
  intros f. unfold Qrne. fold f.
  destruct (Qcompare_spec (x - inject_Z f) (1 # 2)); auto.
Qed.

#[local] Instance Qrne_comp : Proper (Qeq ==> eq) Qrne.
Proof.
  intros x y H. unfold Qrne. rewrite (Qfloor_comp _ _ H).
  rewrite H. reflexivity.
Qed.

Lemma Qrne_Z z : Qrne (inject_Z z) = z.
Proof.
  destruct (Qrne_cases (inject_Z z)) as [[H3 E]|[[H3 E]|[H3 E]]];
    rewrite E; rewrite Qfloor_Z in *; auto; lra.
Qed.

Lemma Qrne_le_Z x z : (x <= inject_Z z)%Q -> Qrne x <= z.
Proof.
  intros H. pose proof (Qfloor_bounds x) as [H1 H2].
  assert (Hf : Qfloor x <= z) by (rewrite Zle_Qle; lra).
  destruct (Qrne_cases x) as [[_ ->]|[[H3 ->]|[H3 ->]]]; auto.
  - assert (Qfloor x < z); [|lia]. rewrite Zlt_Qlt. lra.
  - destruct (Z.even _); auto.
    assert (Qfloor x < z); [|lia]. rewrite Zlt_Qlt. lra.
Qed.

Lemma Qrne_ge_floor x : Qfloor x <= Qrne x.
Proof.
  destruct (Qrne_cases x) as [[_ ->]|[[H3 ->]|[H3 ->]]]; try lia.
  destruct (Z.even _); lia.
Qed.

Lemma Qrne_ge_Z x z : (inject_Z z <= x)%Q -> z <= Qrne x.
Proof.
  intros H. pose proof (Qfloor_bounds x) as [H1 H2].
  assert (Hf : z < Qfloor x + 1).
  { rewrite Zlt_Qlt, inject_Z_plus. change (inject_Z 1) with 1%Q. lra. }
  pose proof (Qrne_ge_floor x). lia.
Qed.

Lemma Qrne_half x :
  (x - (1 # 2) <= inject_Z (Qrne x) <= x + (1 # 2))%Q.
Proof.
  pose proof (Qfloor_bounds x) as [H1 H2].
  destruct (Qrne_cases x) as [[H3 ->]|[[H3 ->]|[H3 ->]]].
  - lra.
  - rewrite inject_Z_plus. change (inject_Z 1) with 1%Q. lra.
  - destruct (Z.even _); [lra|].
    rewrite inject_Z_plus. change (inject_Z 1) with 1%Q. lra.
Qed.

Lemma Qrne_tie_up_even x :
  (inject_Z (Qrne x) - x == 1 # 2)%Q -> Z.even (Qrne x) = true.
Proof.
  intros H. pose proof (Qfloor_bounds x) as [H1 H2].
  destruct (Qrne_cases x) as [[H3 E]|[[H3 E]|[H3 E]]]; rewrite E in H |- *.
  - lra.
  - rewrite inject_Z_plus in H. change (inject_Z 1) with 1%Q in H. lra.
  - destruct (Z.even (Qfloor x)) eqn:Ev.
    + lra.
    + rewrite Z.even_add, Ev. reflexivity.
Qed.

Lemma Qrne_ge_half x z :
  (inject_Z z - (1 # 2) < x)%Q -> z <= Qrne x.
Proof.
  intros H. pose proof (Qfloor_bounds x) as [H1 H2].
  assert (Hf : z - 1 <= Qfloor x).
  { assert (z - 1 < Qfloor x + 1); [|lia]. rewrite Zlt_Qlt. zq. lra. }
  destruct (Qrne_cases x) as [[H3 E]|[[H3 E]|[H3 E]]]; rewrite E.
  - assert (z - 1 < Qfloor x); [|lia]. rewrite Zlt_Qlt. zq. lra.
  - lia.
  - destruct (Z.even _); [|lia].
    assert (z - 1 < Qfloor x); [|lia]. rewrite Zlt_Qlt. zq. lra.
Qed.

Lemma Qrne_ge_tie x z :
  (x == inject_Z z - (1 # 2))%Q -> Z.even z = true -> z <= Qrne x.
Proof.
  intros H Ev. pose proof (Qfloor_bounds x) as [H1 H2].
  assert (Hf : Qfloor x = z - 1).
  { assert (z - 1 < Qfloor x + 1 /\ Qfloor x < z); [|lia].
    rewrite !Zlt_Qlt. zq. lra. }
  destruct (Qrne_cases x) as [[H3 E]|[[H3 E]|[H3 E]]]; rewrite E, Hf in *.
  - zq_in H3. lra.
  - lia.
  - replace (Z.even (z - 1)) with false; [lia|].
    rewrite Z.even_sub, Ev. reflexivity.
Qed.

(* ---------------------------------------------------------------- *)
(** Powers of two *)

Lemma pow2_pos e : (0 < pow2 e)%Q.
Proof. apply Qpower_0_lt. reflexivity. Qed.

Lemma pow2_add a b : (pow2 (a + b) == pow2 a * pow2 b)%Q.
Proof. apply Qpower_plus. discriminate. Qed.

Lemma pow2_0 : (pow2 0 == 1)%Q.
Proof. reflexivity. Qed.

Lemma pow2_le a b : a <= b -> (pow2 a <= pow2 b)%Q.
Proof. intros. apply Qpower_le_compat_l; auto. discriminate. Qed.

Lemma pow2_lt a b : a < b -> (pow2 a < pow2 b)%Q.
Proof. intros. apply Qpower_lt_compat_l; auto. reflexivity. Qed.

Lemma pow2_lt_inv a b : (pow2 a < pow2 b)%Q -> a < b.
Proof. intros. eapply Qpower_lt_compat_l_inv; eauto. reflexivity. Qed.

Lemma pow2_le_inv a b : (pow2 a <= pow2 b)%Q -> a <= b.
Proof. intros. eapply Qpower_le_compat_l_inv; eauto. reflexivity. Qed.

Lemma pow2_Z e : 0 <= e -> (pow2 e == inject_Z (2 ^ e))%Q.
Proof. intros. unfold pow2. rewrite Zpower_Qpower; auto. reflexivity. Qed.

Lemma Qdiv_pow2 x e : (x / pow2 e == x * pow2 (- e))%Q.
Proof. unfold Qdiv, pow2. rewrite Qpower_opp. reflexivity. Qed.

Lemma int_scaled K c :
  c <= 0 -> (inject_Z K / pow2 c == inject_Z (K * 2 ^ (- c)))%Q.
Proof.
  intros. rewrite Qdiv_pow2, inject_Z_mult, pow2_Z by lia. reflexivity.
Qed.

Lemma cexp_le_0 g : g <= 53 -> cexp g <= 0.
Proof. unfold cexp, fexp, emin, prec, emax. lia. Qed.

Lemma cexp_normal g : -1021 <= g -> cexp g = g - 53.
Proof. unfold cexp, fexp, emin, prec, emax. lia. Qed.

Lemma cexp_mono g g' : g <= g' -> cexp g <= cexp g'.
Proof. unfold cexp, fexp, emin, prec, emax. lia. Qed.

Lemma mag_le X g K :
  (pow2 (g - 1) <= X)%Q -> (X < pow2 K)%Q -> g <= K.
Proof.
  intros. assert (g - 1 < K); [|lia]. apply pow2_lt_inv. lra.
Qed.

Lemma rounded_nonneg X v : rounded X v -> (0 <= v)%Q.
Proof.
  intros (g & [H1 H2] & ->).
  pose proof (pow2_pos (cexp g)). pose proof (pow2_pos (g - 1)).
  assert (0 <= Qrne (X / pow2 (cexp g))).
  { apply Qrne_ge_Z. apply Qle_shift_div_l; auto. change (inject_Z 0) with 0%Q. lra. }
  rewrite Zle_Qle in H3. change (inject_Z 0) with 0%Q in H3. nra.
Qed.

Lemma rounded_le_int X v K :
  rounded X v -> (X <= inject_Z K)%Q -> K < 2 ^ 53 -> (v <= inject_Z K)%Q.
Proof.
  intros (g & [H1 H2] & ->) HK Hb.
  assert (Hg : g <= 53).
  { apply (mag_le X); auto. rewrite pow2_Z by lia.
    rewrite Zlt_Qlt in Hb. lra. }
  pose proof (cexp_le_0 g Hg) as Hc. set (c := cexp g) in *.
  pose proof (pow2_pos c).
  assert (Qrne (X / pow2 c) <= K * 2 ^ (- c)).
  { apply Qrne_le_Z. rewrite <- int_scaled by auto.
    apply Qmult_le_compat_r; auto. apply Qlt_le_weak, Qinv_lt_0_compat; auto. }
  rewrite Zle_Qle in H0. rewrite <- int_scaled in H0 by auto.
  apply Qle_trans with (inject_Z K / pow2 c * pow2 c)%Q.
  - apply Qmult_le_compat_r; auto. lra.
  - field_simplify; lra.
Qed.

Lemma rounded_ge_int X v K :
  rounded X v -> (inject_Z K <= X)%Q -> (X < pow2 53)%Q -> (inject_Z K <= v)%Q.
Proof.
  intros (g & [H1 H2] & ->) HK Hb.
  assert (Hg : g <= 53) by (apply (mag_le X); auto).
  pose proof (cexp_le_0 g Hg) as Hc. set (c := cexp g) in *.
  pose proof (pow2_pos c).
  assert (K * 2 ^ (- c) <= Qrne (X / pow2 c)).
  { apply Qrne_ge_Z. rewrite <- int_scaled by auto.
    apply Qmult_le_compat_r; auto. apply Qlt_le_weak, Qinv_lt_0_compat; auto. }
  rewrite Zle_Qle in H0. rewrite <- int_scaled in H0 by auto.
  apply Qle_trans with (inject_Z K / pow2 c * pow2 c)%Q.
  - field_simplify; lra.
  - apply Qmult_le_compat_r; auto. lra.
Qed.

Lemma rounded_int X v K :
  rounded X v -> (X == inject_Z K)%Q -> K < 2 ^ 53 -> (v == inject_Z K)%Q.
Proof.
  intros. apply Qle_antisym.
  - apply (rounded_le_int X); auto. lra.
  - apply (rounded_ge_int X); auto; try lra.
    rewrite pow2_Z by lia. rewrite Zlt_Qlt in H1. lra.
Qed.

Lemma rounded_up_half X v :
  rounded X v -> (X < pow2 53)%Q -> (v <= X + (1 # 2))%Q.
Proof.
  intros (g & [H1 H2] & ->) Hb.
  assert (Hg : g <= 53) by (apply (mag_le X); auto).
  pose proof (cexp_le_0 g Hg) as Hc. set (c := cexp g) in *.
  pose proof (pow2_pos c) as Hp.
  pose proof (pow2_le c 0 Hc) as Hp1. rewrite pow2_0 in Hp1.
  pose proof (Qrne_half (X / pow2 c)) as [_ Hh].
  assert (E : (X == X / pow2 c * pow2 c)%Q) by (field; lra).
  set (y := (X / pow2 c)%Q) in *. set (m := inject_Z (Qrne y)) in *.
  nra.
Qed.

Lemma rounded_rel_up X v :
  rounded X v -> (pow2 (-1000) <= X)%Q -> (v <= X * (1 + pow2 (-53)))%Q.
Proof.
  intros (g & [H1 H2] & ->) Hb.
  assert (Hg : -1000 < g).
  { apply pow2_lt_inv. lra. }
  rewrite cexp_normal by lia.
  pose proof (pow2_pos (g - 53)) as Hp.
  pose proof (Qrne_half (X / pow2 (g - 53))) as [_ Hh].
  assert (E : (X == X / pow2 (g - 53) * pow2 (g - 53))%Q) by (field; lra).
  assert (E2 : (pow2 (g - 53) == 2 * pow2 (g - 1) * pow2 (-53))%Q).
  { replace (g - 53) with (1 + ((g - 1) + -53)) by lia.
    rewrite !pow2_add. change (pow2 1) with 2%Q. ring. }
  pose proof (pow2_pos (-53)).
  set (y := (X / pow2 (g - 53))%Q) in *. set (m := inject_Z (Qrne y)) in *.
  set (p := pow2 (g - 53)) in *. set (p1 := pow2 (g - 1)) in *.
  set (e := pow2 (-53)) in *.
  assert ((m * p <= X + (1 # 2) * p)%Q) by nra.
  assert ((p1 * e <= X * e)%Q) by nra.
  nra.
Qed.

Lemma Qfloor_lt_int v K : (inject_Z K <= v)%Q -> K <= Qfloor v.
Proof.
  intros H. rewrite <- (Qfloor_Z K). apply Qfloor_resp_le, H.
Qed.

Lemma rounded_pos X v : rounded X v -> (0 < X)%Q.
Proof.
  intros (g & [H1 H2] & _). pose proof (pow2_pos (g - 1)). lra.
Qed.

Lemma rounded_step X v X' v' :
  rnd_of X v -> rounded X' v' ->
  (X + 1 <= X')%Q -> (X' < pow2 52)%Q ->
  Qfloor v < Qfloor v'.
Proof.
  intros HX HX' Hs Hb.
  assert (Hb53 : (X' < pow2 53)%Q).
  { pose proof (pow2_lt 52 53 ltac:(lia)). lra. }
  assert (Hgoal : (inject_Z (Qfloor v + 1) <= v')%Q -> Qfloor v < Qfloor v').
  { intros H. apply Qfloor_lt_int in H. lia. }
  apply Hgoal. clear Hgoal.
  destruct HX as [[HX0 Hv0]|HX].
  { rewrite (Qfloor_comp _ _ Hv0). change (Qfloor 0) with 0.
    apply (rounded_ge_int X'); auto. simpl. change (inject_Z 1) with 1%Q. lra. }
  pose proof (rounded_pos _ _ HX) as HXpos.
  set (k := Qfloor v).
  pose proof (Qfloor_bounds v) as [Hk1 Hk2]. fold k in Hk1, Hk2.
  destruct (Qlt_le_dec X (inject_Z k)) as [Hlt|Hge].
  2:{ apply (rounded_ge_int X'); auto. zq. lra. }
  (* X rounds up to the integer k *)
  assert (Hk52 : k <= 2 ^ 52).
  { assert (inject_Z k <= inject_Z (2 ^ 52))%Q; [|rewrite Zle_Qle; auto].
    apply Qle_trans with v; auto.
    apply (rounded_le_int X); auto; [|lia].
    rewrite <- pow2_Z by lia. lra. }
  assert (Hvk : (v == inject_Z k)%Q).
  { apply Qle_antisym; auto. apply (rounded_le_int X); auto; [lra|lia]. }
  destruct HX as (g & [G1 G2] & Ev).
  destruct HX' as (g' & [G1' G2'] & ->).
  assert (Hg' : g' <= 52) by (apply (mag_le X'); auto).
  assert (Hgg : g <= g') by (apply (mag_le X); auto; lra).
  pose proof (cexp_mono _ _ Hgg) as Hcc.
  assert (Hc' : cexp g' <= -1).
  { unfold cexp, fexp, emin, prec, emax. lia. }
  set (c := cexp g) in *. set (c' := cexp g') in *.
  pose proof (pow2_pos c) as Hp. pose proof (pow2_pos c') as Hp'.
  pose proof (pow2_le _ _ Hcc) as Hpp.
  set (m := Qrne (X / pow2 c)) in *.
  pose proof (Qrne_half (X / pow2 c)) as [_ Hh]. fold m in Hh.
  assert (EX : (X == X / pow2 c * pow2 c)%Q) by (field; lra).
  assert (EX' : (X' == X' / pow2 c' * pow2 c')%Q) by (field; lra).
  set (M := (k + 1) * 2 ^ (- c')).
  assert (EM : (inject_Z M * pow2 c' == inject_Z k + 1)%Q).
  { unfold M. rewrite <- int_scaled by lia. zq. field. lra. }
  assert (HM : M <= Qrne (X' / pow2 c')).
  { destruct (Qlt_le_dec (inject_Z M - (1 # 2)) (X' / pow2 c')) as [Hgt|Hle].
    { apply Qrne_ge_half; auto. }
    (* a tie, which the even mantissa wins *)
    set (y := (X / pow2 c)%Q) in *. set (y' := (X' / pow2 c')%Q) in *.
    set (iM := inject_Z M) in *. set (ik := inject_Z k) in *.
    set (im := inject_Z m) in *. set (p := pow2 c) in *. set (p' := pow2 c') in *.
    assert (T1 : (im * p == ik)%Q) by lra.
    assert (T2 : (ik - X <= (1 # 2) * p)%Q) by nra.
    assert (T3 : ((iM - (1 # 2)) * p' <= y' * p')%Q) by nra.
    assert (T4 : (y' * p' <= (iM - (1 # 2)) * p')%Q) by nra.
    assert (Epp : (p == p')%Q) by nra.
    assert (Ecc : c = c').
    { apply Z.le_antisymm; auto. apply pow2_le_inv. fold p p'. lra. }
    assert (Ey' : (y' == iM - (1 # 2))%Q) by nra.
    assert (Ey : (im - y == 1 # 2)%Q) by nra.
    apply Qrne_ge_tie; auto.
    apply Qrne_tie_up_even in Ey. fold m in Ey.
    assert (Em : m = k * 2 ^ (- c)).
    { apply inject_Z_injective. rewrite <- int_scaled by lia.
      fold im ik p. field_simplify_eq; lra. }
    unfold M. rewrite <- Ecc.
    replace ((k + 1) * 2 ^ (- c)) with (m + 2 * 2 ^ (- c - 1)).
    - rewrite Z.even_add, Ey, Z.even_mul. reflexivity.
    - assert (P : 2 ^ (- c) = 2 * 2 ^ (- c - 1)).
      { rewrite <- Z.pow_succ_r by lia. f_equal. lia. }
      rewrite Em, P. ring. }
  rewrite Zle_Qle in HM.
  assert ((inject_Z M * pow2 c' <= inject_Z (Qrne (X' / pow2 c')) * pow2 c')%Q) by nra.
  zq. lra.
Qed.

#[local] Instance rounded_comp : Proper (Qeq ==> Qeq ==> iff) rounded.
Proof.
  assert (P : forall X X' v v', (X == X')%Q -> (v == v')%Q ->
                                rounded X v -> rounded X' v').
  { intros X X' v v' EX Ev (g & [H1 H2] & E). exists g.
    rewrite <- EX, <- Ev. auto. }
  intros X X' EX v v' Ev. split; apply P; auto; symmetry; auto.
Qed.

#[local] Instance rnd_of_comp : Proper (Qeq ==> Qeq ==> iff) rnd_of.
Proof.
  intros X X' EX v v' Ev. unfold rnd_of. rewrite EX, Ev. reflexivity.
Qed.

(** ** Locations and shifts of the library's rounding *)

Lemma located_comp X Y m l : (X == Y)%Q -> located X m l -> located Y m l.
Proof.
  intros E. destruct l as [|[| |]]; simpl; rewrite E; auto.
Qed.

Lemma Qfloor_unique X m :
  (inject_Z m <= X < inject_Z m + 1)%Q -> Qfloor X = m.
Proof.
  intros [H1 H2]. pose proof (Qfloor_bounds X) as [H3 H4].
  assert (m < Qfloor X + 1 /\ Qfloor X < m + 1); [|lia].
  rewrite !Zlt_Qlt. zq. lra.
Qed.

Lemma located_bounds X m l :
  located X m l -> (inject_Z m <= X < inject_Z m + 1)%Q.
Proof. destruct l as [|[| |]]; simpl; lra. Qed.

Lemma rne_located X m l :
  located X m l -> round_nearest_even m l = Qrne X.
Proof.
  intros H. pose proof (located_bounds _ _ _ H) as Hb.
  pose proof (Qfloor_unique _ _ Hb) as Hf.
  destruct (Qrne_cases X) as [[H3 E]|[[H3 E]|[H3 E]]];
    rewrite E, Hf in *; destruct l as [|[| |]]; simpl in *; auto; try lra.
Qed.

Lemma inject_Z_xO p : inject_Z (Zpos p~0) = (2 * inject_Z (Zpos p))%Q.
Proof. rewrite Pos2Z.inj_xO, inject_Z_mult. reflexivity. Qed.

Lemma inject_Z_xI p : inject_Z (Zpos p~1) = (2 * inject_Z (Zpos p) + 1)%Q.
Proof. rewrite Pos2Z.inj_xI, inject_Z_plus, inject_Z_mult. reflexivity. Qed.

Lemma shr_1_located X mrs :
  rec_located X mrs -> rec_located (X * pow2 (-1)) (shr_1 mrs).
Proof.
  change (pow2 (-1)) with (1 # 2)%Q.
  destruct mrs as [m r s]. unfold rec_located. simpl shr_m.
  intros [Hm H].
  destruct m as [|[p|p|]|p]; try lia;
    destruct r, s; simpl in *; split; try lia;
    rewrite ?inject_Z_xO, ?inject_Z_xI in *;
    change (inject_Z 1) with 1%Q in *; change (inject_Z 0) with 0%Q in *; lra.
Qed.

Lemma shr_iter_located p : forall X mrs,
  rec_located X mrs ->
  rec_located (X * pow2 (- Zpos p)) (iter_pos shr_1 p mrs).
Proof.
  induction p as [p IH|p IH|]; intros X mrs H; simpl.
  - apply shr_1_located in H. apply IH in H. apply IH in H.
    destruct H as [H1 H2]. split; auto.
    eapply located_comp; [|exact H2].
    rewrite <- !Qmult_assoc, <- !pow2_add.
    replace (-1 + (- Zpos p + - Zpos p)) with (- Z.pos p~1) by lia. reflexivity.
  - apply IH in H. apply IH in H.
    destruct H as [H1 H2]. split; auto.
    eapply located_comp; [|exact H2].
    rewrite <- !Qmult_assoc, <- !pow2_add.
    replace (- Zpos p + - Zpos p) with (- Z.pos p~0) by lia. reflexivity.
  - apply shr_1_located; auto.
Qed.

Lemma digits2_size p : digits2_pos p = Pos.size p.
Proof. induction p; simpl; congruence. Qed.

Lemma Zdigits2_spec m :
  0 < m -> 2 ^ (Zdigits2 m - 1) <= m < 2 ^ Zdigits2 m.
Proof.
  destruct m as [|p|p]; try lia. intros _. simpl Zdigits2.
  rewrite digits2_size.
  pose proof (Pos.size_gt p). pose proof (Pos.size_le p).
  assert (E : 2 ^ Zpos (Pos.size p) = Zpos (2 ^ Pos.size p)).
  { rewrite Pos2Z.inj_pow. reflexivity. }
  split.
  - assert (2 * 2 ^ (Zpos (Pos.size p) - 1) <= 2 * Zpos p); [|lia].
    rewrite <- Z.pow_succ_r by lia.
    replace (Z.succ (Zpos (Pos.size p) - 1)) with (Zpos (Pos.size p)) by lia.
    rewrite E. lia.
  - rewrite E. lia.
Qed.

Lemma Zdigits2_le m k : 0 <= k -> 0 <= m < 2 ^ k -> Zdigits2 m <= k.
Proof.
  intros Hk [H0 H].
  destruct (Z.eq_dec m 0) as [->|]; [simpl; lia|].
  pose proof (Zdigits2_spec m ltac:(lia)) as [H1 _].
  destruct (Z_le_gt_dec (Zdigits2 m) k); auto.
  assert (2 ^ k <= 2 ^ (Zdigits2 m - 1)) by (apply Z.pow_le_mono_r; lia). lia.
Qed.

Lemma Zdigits2_nonneg m : 0 <= Zdigits2 m.
Proof. destruct m; simpl; lia. Qed.

(** ** The library's rounding computes the nearest double *)

Lemma rec_located_of_loc X m l :
  0 <= m -> located X m l -> rec_located X (shr_record_of_loc m l).
Proof.
  intros Hm H. destruct l as [|[| |]]; split; simpl; auto.
Qed.

Lemma shr_nonpos mrs e n : n <= 0 -> shr mrs e n = (mrs, e).
Proof. destruct n; auto; lia. Qed.

Lemma shr_pos mrs e p : shr mrs e (Zpos p) = (iter_pos shr_1 p mrs, e + Zpos p).
Proof. reflexivity. Qed.

Lemma cexp_ge_emin g : -1074 <= cexp g.
Proof. unfold cexp, fexp, emin, prec, emax. lia. Qed.

Lemma cexp_ge g : g - 53 <= cexp g.
Proof. unfold cexp, fexp, emin, prec, emax. lia. Qed.

Lemma cexp_small g : g <= 1000 -> cexp g <= 947.
Proof. unfold cexp, fexp, emin, prec, emax. lia. Qed.

(** First shift of [binary_round_aux]. *)
Lemma bra_stage1 mx ex lx X c :
  0 < mx -> located X mx lx ->
  (lx = loc_Exact \/ ex <= c) ->
  exists mrs e1,
    shr (shr_record_of_loc mx lx) ex (c - ex) = (mrs, e1) /\
    let m1 := round_nearest_even (shr_m mrs) (loc_of_shr_record mrs) in
    (e1 = c /\ ex <= c /\ m1 = Qrne (X * pow2 (ex - c))) \/
    (e1 = ex /\ c < ex /\ m1 = mx /\ (X == inject_Z mx)%Q).
Proof.
  intros Hm HX Hl.
  pose proof (rec_located_of_loc X mx lx ltac:(lia) HX) as HR.
  destruct (c - ex) as [|p|p] eqn:Ep.
  - eexists _, _. split; [reflexivity|]. left.
    destruct HR as [_ HR]. rewrite (rne_located _ _ _ HR).
    repeat split; try lia.
    apply Qrne_comp. replace (ex - c) with 0 by lia. rewrite pow2_0. ring.
  - eexists _, _. split; [reflexivity|]. left.
    destruct (shr_iter_located p _ _ HR) as [_ HR'].
    rewrite (rne_located _ _ _ HR').
    repeat split; try lia. replace (ex - c) with (- Zpos p) by lia. reflexivity.
  - eexists _, _. split; [reflexivity|]. right.
    destruct Hl as [->|]; [|lia]. simpl in *. repeat split; auto; lia.
Qed.

Lemma bra_spec sx mx ex lx X :
  0 < mx -> located X mx lx ->
  let g := Zdigits2 mx + ex in
  let c := cexp g in
  (lx = loc_Exact \/ ex <= c) -> ex <= 971 -> g <= 1000 ->
  is_val sx (binary_round_aux prec emax sx mx ex lx)
         (inject_Z (Qrne (X * pow2 (ex - c))) * pow2 c) (Z.max ex (c + 1)).
Proof.
  intros Hm HX g c Hl Hex Hg.
  pose proof (located_bounds _ _ _ HX) as [HX1 HX2].
  pose proof (Zdigits2_spec mx Hm) as [Hd1 Hd2].
  pose proof (cexp_ge_emin g) as Hc1. pose proof (cexp_ge g) as Hc2.
  pose proof (cexp_small g Hg) as Hc3. fold c in Hc1, Hc2, Hc3.
  unfold binary_round_aux, shr_fexp.
  change (fexp prec emax (Zdigits2 mx + ex)) with c.
  destruct (bra_stage1 mx ex lx X c Hm HX Hl) as (mrs & e1 & -> & Hs).
  cbv zeta in Hs.
  set (m1 := round_nearest_even (shr_m mrs) (loc_of_shr_record mrs)) in *.
  destruct Hs as [(-> & Hec & Em1)|(-> & Hec & Em1 & EX)].
  - (* rounded at exponent c *)
    set (y := (X * pow2 (ex - c))%Q) in *.
    assert (Hy0 : (0 <= y)%Q).
    { unfold y. pose proof (pow2_pos (ex - c)).
      assert (0 < inject_Z mx)%Q by (change 0%Q with (inject_Z 0); rewrite <- Zlt_Qlt; lia). nra. }
    assert (Hy : (y < inject_Z (2 ^ 53))%Q).
    { rewrite <- pow2_Z by lia. unfold y.
      apply Qlt_le_trans with (pow2 (Zdigits2 mx) * pow2 (ex - c))%Q.
      - apply Qmult_lt_compat_r; [apply pow2_pos|].
        rewrite pow2_Z by apply Zdigits2_nonneg.
        assert (inject_Z (mx + 1) <= inject_Z (2 ^ Zdigits2 mx))%Q
          by (rewrite <- Zle_Qle; lia).
        zq_in H. lra.
      - rewrite <- pow2_add. apply pow2_le. unfold g in Hc2. lia. }
    assert (Hm1 : 0 <= m1 <= 2 ^ 53).
    { rewrite Em1. split; [apply Qrne_ge_Z; auto|apply Qrne_le_Z; lra]. }
    unfold shr_record_of_loc.
    destruct (Z.eq_dec m1 (2 ^ 53)) as [E53|N53].
    + rewrite E53.
      replace (fexp prec emax (Zdigits2 (2 ^ 53) + c) - c) with 1.
      2:{ change (Zdigits2 (2 ^ 53)) with 54.
          unfold fexp, emin, prec, emax. lia. }
      rewrite shr_pos. simpl shr_m.
      replace (c + 1 <=? emax - prec) with true.
      2:{ symmetry. apply Z.leb_le. unfold emax, prec. lia. }
      right. eexists _, _. split; [reflexivity|]. split; [|lia].
      rewrite <- Em1, E53. rewrite pow2_add.
      change (pow2 1) with 2%Q.
      change (inject_Z (2 ^ 53)) with (2 * inject_Z (Zpos 4503599627370496))%Q.
      ring.
    + rewrite shr_nonpos.
      2:{ assert (Zdigits2 m1 <= 53) by (apply Zdigits2_le; lia).
          unfold fexp, emin, prec, emax. lia. }
      simpl shr_m. rewrite <- Em1.
      destruct m1 as [|p|p]; try lia.
      * left. split; auto. ring.
      * replace (c <=? emax - prec) with true.
        2:{ symmetry. apply Z.leb_le. unfold emax, prec. lia. }
        right. eexists _, _. split; [reflexivity|]. split; [reflexivity|lia].
  - (* exact, and no shift *)
    rewrite Em1. change (fexp prec emax (Zdigits2 mx + ex)) with c.
    rewrite shr_nonpos by lia. simpl shr_m.
    destruct mx as [|p|p]; try lia.
    replace (ex <=? emax - prec) with true.
    2:{ symmetry. apply Z.leb_le. unfold emax, prec. lia. }
    right. eexists _, _. split; [reflexivity|]. split; [|lia].
    assert (Ey : (X * pow2 (ex - c) == inject_Z (Zpos p * 2 ^ (ex - c)))%Q).
    { rewrite EX, inject_Z_mult, pow2_Z by lia. reflexivity. }
    rewrite Ey, Qrne_Z, inject_Z_mult, <- pow2_Z by lia.
    rewrite <- Qmult_assoc, <- pow2_add. replace (ex - c + c) with ex by lia.
    reflexivity.
Qed.

(** ** Multiplication *)

Lemma inject_Z_pos m : 0 < m -> (0 < inject_Z m)%Q.
Proof. intros. change 0%Q with (inject_Z 0). rewrite <- Zlt_Qlt. auto. Qed.

Lemma F2Q_pos x : is_pos x = true -> (0 < F2Q x)%Q.
Proof.
  destruct x as [| | |[|] m e]; try discriminate. intros _. simpl.
  pose proof (pow2_pos e). pose proof (inject_Z_pos (Zpos m) ltac:(lia)). nra.
Qed.

Lemma F2Q_nonneg x : is_nonneg x = true -> (0 <= F2Q x)%Q.
Proof.
  destruct x as [| | |[|] m e]; try discriminate; intros _; simpl; try lra.
  pose proof (pow2_pos e). pose proof (inject_Z_pos (Zpos m) ltac:(lia)). nra.
Qed.

Lemma nonneg_pos x : is_nonneg x = true -> (0 < F2Q x)%Q -> is_pos x = true.
Proof.
  destruct x as [| | |[|] m e]; try discriminate; simpl; auto; lra.
Qed.

Lemma is_val_F2Q f V B :
  is_val false f V B ->
  is_nonneg f = true /\ fexpo f <= Z.max 0 B /\ (F2Q f == V)%Q.
Proof.
  intros [[-> E]|(m & e & -> & E & Hb)]; simpl; repeat split; try lia; lra.
Qed.

Lemma bra_rounded mx ex lx X :
  0 < mx -> located X mx lx ->
  (lx = loc_Exact \/ ex <= cexp (Zdigits2 mx + ex)) ->
  ex <= 971 -> Zdigits2 mx + ex <= 1000 ->
  let f := binary_round_aux prec emax false mx ex lx in
  is_nonneg f = true /\
  fexpo f <= Z.max 0 (Z.max ex (cexp (Zdigits2 mx + ex) + 1)) /\
  rounded (X * pow2 ex) (F2Q f).
Proof.
  intros Hm HX Hl Hex Hg f.
  pose proof (bra_spec false mx ex lx X Hm HX Hl Hex Hg) as H.
  apply is_val_F2Q in H. destruct H as (H1 & H2 & H3). fold f in H1, H2, H3.
  repeat split; auto.
  exists (Zdigits2 mx + ex).
  pose proof (located_bounds _ _ _ HX) as [HX1 HX2].
  pose proof (Zdigits2_spec mx Hm) as [Hd1 Hd2].
  pose proof (Zdigits2_nonneg mx) as Hd0.
  assert (Hd : 1 <= Zdigits2 mx) by (destruct mx; simpl; lia).
  pose proof (pow2_pos ex).
  repeat split.
  - replace (Zdigits2 mx + ex - 1) with ((Zdigits2 mx - 1) + ex) by lia.
    rewrite pow2_add. apply Qmult_le_compat_r; [|lra].
    rewrite pow2_Z by lia. rewrite Zle_Qle in Hd1. lra.
  - rewrite pow2_add. apply Qmult_lt_compat_r; auto.
    rewrite pow2_Z by lia.
    assert (inject_Z (mx + 1) <= inject_Z (2 ^ Zdigits2 mx))%Q
      by (rewrite <- Zle_Qle; lia).
    zq_in H0. lra.
  - rewrite H3. apply Qmult_comp; [|reflexivity].
    apply inject_Z_injective. apply Qrne_comp.
    rewrite Qdiv_pow2, <- Qmult_assoc, <- pow2_add.
    replace (ex + - cexp (Zdigits2 mx + ex)) with (ex - cexp (Zdigits2 mx + ex)) by lia.
    reflexivity.
Qed.

Lemma fmul_rounded x y :
  is_pos x = true -> is_pos y = true ->
  fexpo x + fexpo y <= 971 ->
  (F2Q x * F2Q y < pow2 1000)%Q ->
  is_nonneg (fmul x y) = true /\
  fexpo (fmul x y) <= Z.max 0 (Z.max (fexpo x + fexpo y) 948) /\
  rounded (F2Q x * F2Q y) (F2Q (fmul x y)).
Proof.
  destruct x as [| | |[|] mx ex]; try discriminate.
  destruct y as [| | |[|] my ey]; try discriminate.
  intros _ _ He Hv. simpl in He, Hv |- *.
  assert (EX : (inject_Z (Zpos mx) * pow2 ex * (inject_Z (Zpos my) * pow2 ey)
                == inject_Z (Zpos (mx * my)) * pow2 (ex + ey))%Q).
  { rewrite Pos2Z.inj_mul, inject_Z_mult, pow2_add. ring. }
  rewrite EX in *. clear EX.
  unfold fmul, SFmul.
  assert (Hg : Zdigits2 (Zpos (mx * my)) + (ex + ey) <= 1000).
  { pose proof (Zdigits2_spec (Zpos (mx * my)) ltac:(lia)) as [Hd1 _].
    apply (mag_le (inject_Z (Z.pos (mx * my)) * pow2 (ex + ey))); auto.
    replace (Zdigits2 (Z.pos (mx * my)) + (ex + ey) - 1)
      with ((Zdigits2 (Zpos (mx * my)) - 1) + (ex + ey)) by lia.
    rewrite pow2_add. apply Qmult_le_compat_r; [|apply Qlt_le_weak, pow2_pos].
    assert (1 <= Zdigits2 (Zpos (mx * my))) by (simpl; lia).
    rewrite pow2_Z by lia. rewrite Zle_Qle in Hd1. lra. }
  pose proof (cexp_small _ Hg).
  destruct (bra_rounded (Zpos (mx * my)) (ex + ey) loc_Exact
              (inject_Z (Zpos (mx * my)))) as (H1 & H2 & H3);
    auto; try lia.
  { simpl. reflexivity. }
  repeat split; auto. lia.
Qed.

(** Division *)

Lemma new_location_located m2 q r :
  0 < m2 -> 0 <= r < m2 ->
  located (inject_Z (q * m2 + r) / inject_Z m2) q (new_location m2 r).
Proof.
  intros Hm [Hr1 Hr2].
  pose proof (inject_Z_pos m2 Hm) as HM.
  assert (E : (inject_Z (q * m2 + r) / inject_Z m2
               == inject_Z q + inject_Z r / inject_Z m2)%Q).
  { zq. field. lra. }
  apply (located_comp _ _ _ _ (Qeq_sym _ _ E)).
  set (x := (inject_Z r / inject_Z m2)%Q).
  assert (Ex : (x * inject_Z m2 == inject_Z r)%Q) by (unfold x; field; lra).
  assert (Hc : forall c, (2 * r ?= m2) = c ->
               match c with
               | Lt => (2 * x < 1)%Q | Eq => (2 * x == 1)%Q | Gt => (1 < 2 * x)%Q
               end).
  { intros c Hc. destruct (Z.compare_spec (2 * r) m2) as [H|H|H]; subst c.
    - assert (E2 : (2 * inject_Z r == inject_Z m2)%Q).
      { rewrite <- H. zq. reflexivity. }
      nra.
    - rewrite Zlt_Qlt in H. zq_in H. nra.
    - rewrite Zlt_Qlt in H. zq_in H. nra. }
  assert (Hx1 : (x < 1)%Q).
  { rewrite Zlt_Qlt in Hr2. nra. }
  assert (Hx0 : r <> 0 -> (0 < x)%Q).
  { intros. assert (0 < r) by lia. apply inject_Z_pos in H0. nra. }
  unfold new_location, new_location_even, new_location_odd.
  destruct (Z.even m2) eqn:Ev; destruct (Z.eqb_spec r 0) as [R0|R0].
  - subst r. simpl. change (inject_Z 0) with 0%Q in Ex. nra.
  - specialize (Hx0 R0). specialize (Hc _ eq_refl).
    destruct (2 * r ?= m2); simpl; lra.
  - subst r. simpl. change (inject_Z 0) with 0%Q in Ex. nra.
  - specialize (Hx0 R0). specialize (Hc _ eq_refl).
    assert (2 * r <> m2).
    { intros <-. rewrite Z.even_mul in Ev. discriminate. }
    destruct (Z.compare_spec (2 * r + 1) m2) as [H1|H1|H1].
    + replace (2 * r ?= m2) with Lt in Hc
        by (symmetry; apply Z.compare_lt_iff; lia). simpl. lra.
    + replace (2 * r ?= m2) with Lt in Hc
        by (symmetry; apply Z.compare_lt_iff; lia). simpl. lra.
    + replace (2 * r ?= m2) with Gt in Hc
        by (symmetry; apply Z.compare_gt_iff; lia). simpl. lra.
Qed.

(** ** Division *)

Lemma F2Q_mag m e :
  let x := S754_finite false m e in
  let d := Zdigits2 (Zpos m) in
  (pow2 (d + e - 1) <= F2Q x < pow2 (d + e))%Q.
Proof.
  intros x d. unfold x. simpl F2Q.
  pose proof (Zdigits2_spec (Zpos m) ltac:(lia)) as [Hd1 Hd2]. fold d in Hd1, Hd2.
  assert (Hd : 1 <= d) by (unfold d; simpl; lia).
  pose proof (pow2_pos e).
  replace (d + e - 1) with ((d - 1) + e) by lia. rewrite !pow2_add.
  rewrite (pow2_Z (d - 1)), (pow2_Z d) by lia.
  rewrite Zle_Qle in Hd1. rewrite Zlt_Qlt in Hd2.
  split.
  - apply Qmult_le_compat_r; auto. lra.
  - apply Qmult_lt_compat_r; auto.
Qed.

Lemma Qdiv_lt_bounds a b A B :
  (0 < a)%Q -> (a < A)%Q -> (0 < B)%Q -> (B <= b)%Q -> (a / b < A / B)%Q.
Proof.
  intros. apply Qlt_shift_div_r; [lra|].
  assert (E : (A / B * b == A * (b / B))%Q) by (field; lra). rewrite E.
  assert (1 <= b / B)%Q by (apply Qle_shift_div_l; lra).
  nra.
Qed.

Lemma Qdiv_le_bounds a b A B :
  (0 < A)%Q -> (A <= a)%Q -> (0 < b)%Q -> (b < B)%Q -> (A / B < a / b)%Q.
Proof.
  intros. apply Qlt_shift_div_l; [lra|].
  assert (E : (A / B * b == A * (b / B))%Q) by (field; lra). rewrite E.
  assert (b / B < 1)%Q by (apply Qlt_shift_div_r; lra).
  nra.
Qed.

Lemma pow2_sub a b : (pow2 (a - b) == pow2 a / pow2 b)%Q.
Proof.
  rewrite Qdiv_pow2, <- pow2_add. replace (a + - b) with (a - b) by lia. reflexivity.
Qed.

Lemma shift_match m s :
  0 <= s ->
  match s with Z.pos _ => Z.shiftl m s | 0 => m | Z.neg _ => 0 end = m * 2 ^ s.
Proof.
  intros Hs. destruct s; try lia.
  rewrite Z.shiftl_mul_pow2 by lia. reflexivity.
Qed.

Lemma fdiv_rounded x y :
  is_pos x = true -> is_pos y = true ->
  (pow2 (-999) <= F2Q x / F2Q y < pow2 1000)%Q ->
  is_nonneg (fdiv x y) = true /\
  fexpo (fdiv x y) <= 948 /\
  rounded (F2Q x / F2Q y) (F2Q (fdiv x y)).
Proof.
  destruct x as [| | |[|] mx ex]; try discriminate.
  destruct y as [| | |[|] my ey]; try discriminate.
  intros _ _ [Hv1 Hv2].
  pose proof (F2Q_mag mx ex) as [Hx1 Hx2].
  pose proof (F2Q_mag my ey) as [Hy1 Hy2]. cbv zeta in *.
  pose proof (F2Q_pos (S754_finite false mx ex) eq_refl) as Hxp.
  pose proof (F2Q_pos (S754_finite false my ey) eq_refl) as Hyp.
  set (Fx := F2Q (S754_finite false mx ex)) in *.
  set (Fy := F2Q (S754_finite false my ey)) in *.
  set (d1 := Zdigits2 (Zpos mx)) in *. set (d2 := Zdigits2 (Zpos my)) in *.
  set (Dg := d1 + ex - (d2 + ey)).
  assert (HD1 : (pow2 (Dg - 1) < Fx / Fy)%Q).
  { replace (Dg - 1) with ((d1 + ex - 1) - (d2 + ey)) by (unfold Dg; lia).
    rewrite pow2_sub. apply Qdiv_le_bounds; auto. apply pow2_pos. }
  assert (HD2 : (Fx / Fy < pow2 (Dg + 1))%Q).
  { replace (Dg + 1) with ((d1 + ex) - (d2 + ey - 1)) by (unfold Dg; lia).
    rewrite pow2_sub. apply Qdiv_lt_bounds; auto. apply pow2_pos. }
  assert (HDlo : -999 <= Dg).
  { assert (-999 < Dg + 1); [|lia]. apply pow2_lt_inv. lra. }
  assert (HDhi : Dg <= 1000).
  { assert (Dg - 1 < 1000); [|lia]. apply pow2_lt_inv. lra. }
  unfold fdiv, SFdiv, SFdiv_core_binary. fold d1 d2.
  replace (d1 + ex - (d2 + ey)) with Dg by reflexivity.
  set (e' := Z.min (fexp prec emax Dg) (ex - ey)).
  assert (He' : e' <= Dg - 53 /\ e' <= ex - ey).
  { unfold e', fexp, emin, prec, emax. lia. }
  set (s := ex - ey - e').
  assert (Hs : 0 <= s) by (unfold s; lia).
  set (m' := match s with Z.pos _ => Z.shiftl (Zpos mx) s | 0 => Zpos mx | Z.neg _ => 0 end).
  assert (Em' : m' = Zpos mx * 2 ^ s).
  { unfold m'. apply shift_match; auto. }
  clearbody m'.
  pose proof (Z_div_mod m' (Zpos my) ltac:(lia)) as Hdiv.
  destruct (Z.div_eucl m' (Zpos my)) as [q r]. destruct Hdiv as [Eq Hr].
  cbv beta iota.
  (* the quotient has at least 53 digits *)
  pose proof (Zdigits2_spec (Zpos mx) ltac:(lia)) as [Hmx1 Hmx2].
  pose proof (Zdigits2_spec (Zpos my) ltac:(lia)) as [Hmy1 Hmy2].
  fold d1 in Hmx1, Hmx2. fold d2 in Hmy1, Hmy2.
  assert (Hd1 : 1 <= d1) by (unfold d1; simpl; lia).
  assert (Hd2 : 1 <= d2) by (unfold d2; simpl; lia).
  assert (Hq : 2 ^ 52 <= q).
  { assert (2 ^ 52 * Zpos my < m').
    { rewrite Em'.
      assert (2 ^ 52 * 2 ^ d2 <= 2 ^ (d1 - 1) * 2 ^ s).
      { rewrite <- !Z.pow_add_r by lia. apply Z.pow_le_mono_r; unfold s, Dg in *; lia. }
      assert (0 < 2 ^ s) by (apply Z.pow_pos_nonneg; lia).
      nia. }
    nia. }
  pose proof (Zdigits2_spec q ltac:(lia)) as [Hq1 Hq2].
  assert (Hdq : 53 <= Zdigits2 q).
  { destruct (Z_le_gt_dec 53 (Zdigits2 q)); auto.
    assert (2 ^ Zdigits2 q <= 2 ^ 52)
      by (apply Z.pow_le_mono_r; lia). lia. }
  set (X := (inject_Z m' / inject_Z (Zpos my))%Q).
  assert (EX : (X * pow2 e' == Fx / Fy)%Q).
  { unfold X, Fx, Fy. simpl F2Q. rewrite Em', inject_Z_mult, <- pow2_Z by lia.
    assert (Eex : (pow2 ex == pow2 s * (pow2 e' * pow2 ey))%Q).
    { rewrite <- !pow2_add. replace (s + (e' + ey)) with ex by (unfold s; lia).
      reflexivity. }
    rewrite Eex.
    pose proof (pow2_pos ey). pose proof (pow2_pos e'). pose proof (pow2_pos s).
    pose proof (inject_Z_pos (Zpos my) ltac:(lia)).
    field. split; lra. }
  assert (HL : located X q (new_location (Zpos my) r)).
  { unfold X. rewrite Eq. replace (Zpos my * q + r) with (q * Zpos my + r) by ring.
    apply new_location_located; lia. }
  assert (Hg : Zdigits2 q + e' <= 1000).
  { apply (mag_le (Fx / Fy)); [|lra].
    rewrite <- EX.
    replace (Zdigits2 q + e' - 1) with ((Zdigits2 q - 1) + e') by lia.
    rewrite pow2_add. apply Qmult_le_compat_r; [|apply Qlt_le_weak, pow2_pos].
    rewrite pow2_Z by lia. pose proof (located_bounds _ _ _ HL) as [Hl1 _].
    rewrite Zle_Qle in Hq1. apply Qle_trans with (inject_Z q); auto. }
  pose proof (cexp_ge (Zdigits2 q + e')). pose proof (cexp_small _ Hg).
  destruct (bra_rounded q e' (new_location (Zpos my) r) X) as (H1 & H2 & H3);
    auto; try lia.
  repeat split; auto.
  - eapply Z.le_trans; [exact H2|]. clear - H0 He' HDhi. lia.
  - rewrite <- EX. auto.
Qed.

(** ** Conversion of integers *)

Lemma iter_xO p k : Zpos (Pos.iter xO p k) = Zpos p * 2 ^ Zpos k.
Proof.
  induction k using Pos.peano_ind.
  - simpl. lia.
  - rewrite Pos.iter_succ, Pos2Z.inj_xO, IHk, Pos2Z.inj_succ, Z.pow_succ_r by lia.
    ring.
Qed.

Lemma Zdigits2_unique m d :
  0 < m -> 2 ^ (d - 1) <= m < 2 ^ d -> Zdigits2 m = d.
Proof.
  intros Hm [H1 H2].
  pose proof (Zdigits2_spec m Hm) as [H3 H4].
  pose proof (Zdigits2_nonneg m).
  assert (Hd : 0 <= d).
  { destruct (Z_le_gt_dec 0 d); auto. rewrite Z.pow_neg_r in H2 by lia. lia. }
  assert (d - 1 < Zdigits2 m).
  { apply (Z.pow_lt_mono_r_iff 2); lia. }
  assert (Zdigits2 m - 1 < d).
  { apply (Z.pow_lt_mono_r_iff 2); lia. }
  lia.
Qed.

Lemma of_int_spec n :
  0 < n < 2 ^ 53 ->
  is_pos (of_int n) = true /\ fexpo (of_int n) <= 1 /\
  (F2Q (of_int n) == inject_Z n)%Q.
Proof.
  intros [Hn0 Hn].
  destruct n as [|p|p]; try lia.
  unfold of_int, binary_normalize, binary_round.
  set (d := Zpos (digits2_pos p)).
  pose proof (Zdigits2_spec (Zpos p) ltac:(lia)) as [Hd1 Hd2].
  change (Zdigits2 (Zpos p)) with d in Hd1, Hd2.
  assert (Hd : 1 <= d <= 53).
  { split; [unfold d; lia|]. apply (Zdigits2_le (Zpos p) 53); lia. }
  replace (fexp prec emax (d + 0)) with (d - 53)
    by (unfold fexp, emin, prec, emax; lia).
  assert (exists mz, shl_align p 0 (d - 53) = (mz, d - 53) /\
                     Zpos mz = Zpos p * 2 ^ (53 - d)) as (mz & -> & Emz).
  { unfold shl_align. destruct (d - 53 - 0) as [|k|k] eqn:Ek; try lia.
    - exists p. replace (d - 53) with 0 by lia. replace (53 - d) with 0 by lia.
      split; auto. change (2 ^ 0) with 1. lia.
    - eexists. split; [reflexivity|]. rewrite iter_xO. f_equal. f_equal. lia. }
  assert (Hdz : Zdigits2 (Zpos mz) = 53).
  { apply Zdigits2_unique; [lia|]. rewrite Emz.
    assert (E1 : 2 ^ (53 - 1) = 2 ^ (d - 1) * 2 ^ (53 - d)).
    { rewrite <- Z.pow_add_r by lia. f_equal. lia. }
    assert (E2 : 2 ^ 53 = 2 ^ d * 2 ^ (53 - d)).
    { rewrite <- Z.pow_add_r by lia. f_equal. lia. }
    rewrite E1, E2.
    assert (0 < 2 ^ (53 - d)) by (apply Z.pow_pos_nonneg; lia).
    split; [apply Z.mul_le_mono_nonneg_r|apply Z.mul_lt_mono_pos_r]; lia. }
  destruct (bra_rounded (Zpos mz) (d - 53) loc_Exact (inject_Z (Zpos mz)))
    as (H1 & H2 & H3); try lia.
  { simpl. reflexivity. }
  { left. reflexivity. }
  rewrite Hdz in H2.
  replace (cexp (53 + (d - 53))) with (d - 53) in H2
    by (unfold cexp, fexp, emin, prec, emax; lia).
  assert (EV : (inject_Z (Zpos mz) * pow2 (d - 53) == inject_Z (Zpos p))%Q).
  { rewrite Emz, inject_Z_mult, <- pow2_Z by lia.
    rewrite <- Qmult_assoc, <- pow2_add. replace (53 - d + (d - 53)) with 0 by lia.
    rewrite pow2_0. ring. }
  rewrite EV in H3.
  apply (rounded_int _ _ (Zpos p)) in H3; [|reflexivity|lia].
  repeat split; auto; [|lia].
  apply nonneg_pos; auto. rewrite H3. apply inject_Z_pos. lia.
Qed.

(** ** Truncation and rounding of a double to an integer *)

Lemma F2Q_neg_exp m e :
  e < 0 -> (inject_Z (Zpos m) * pow2 e == inject_Z (Zpos m) / inject_Z (2 ^ (- e)))%Q.
Proof.
  intros. rewrite <- pow2_Z by lia. rewrite Qdiv_pow2.
  replace (- - e) with e by lia. reflexivity.
Qed.

Lemma trunc_mag_floor m e :
  trunc_mag m e = Qfloor (inject_Z (Zpos m) * pow2 e).
Proof.
  unfold trunc_mag. destruct (Z_lt_le_dec e 0).
  - rewrite Z.shiftl_div_pow2 by lia.
    rewrite (Qfloor_comp _ _ (F2Q_neg_exp m e l)). apply Zdiv_Qdiv.
  - rewrite Z.shiftl_mul_pow2 by lia.
    rewrite pow2_Z by lia. rewrite <- inject_Z_mult, Qfloor_Z. reflexivity.
Qed.

Lemma rne_mag_Qrne m e :
  rne_mag m e = Qrne (inject_Z (Zpos m) * pow2 e).
Proof.
  unfold rne_mag. destruct (Z.leb_spec 0 e).
  - rewrite Z.shiftl_mul_pow2 by lia.
    rewrite pow2_Z by lia. rewrite <- inject_Z_mult, Qrne_Z. reflexivity.
  - rewrite (Qrne_comp _ _ (F2Q_neg_exp m e H)).
    set (d := 2 ^ (- e)).
    assert (Hd : 0 < d) by (apply Z.pow_pos_nonneg; lia).
    pose proof (Z.div_mod (Zpos m) d ltac:(lia)) as E.
    pose proof (Z.mod_pos_bound (Zpos m) d Hd) as Hr.
    set (q := Zpos m / d) in *. set (r := Zpos m mod d) in *.
    pose proof (inject_Z_pos d Hd) as HD.
    set (x := (inject_Z (Zpos m) / inject_Z d)%Q).
    assert (Ex : (x == inject_Z q + inject_Z r / inject_Z d)%Q).
    { unfold x. rewrite E. zq. field. lra. }
    set (t := (inject_Z r / inject_Z d)%Q) in *.
    assert (Et : (t * inject_Z d == inject_Z r)%Q) by (unfold t; field; lra).
    assert (Ht : (0 <= t < 1)%Q).
    { destruct Hr as [Hr1 Hr2]. rewrite Zle_Qle in Hr1. rewrite Zlt_Qlt in Hr2.
      change (inject_Z 0) with 0%Q in Hr1. unfold t.
      split; [apply Qle_shift_div_l|apply Qlt_shift_div_r]; lra. }
    clearbody t x q r d.
    assert (Hf : Qfloor x = q).
    { apply Qfloor_unique. clear - Ex Ht. lra. }
    unfold Qrne. rewrite Hf.
    destruct (Z.compare_spec (2 * r) d) as [H1|H1|H1];
      destruct (Qcompare_spec (x - inject_Z q) (1 # 2)) as [H2|H2|H2]; auto; exfalso.
    + assert (E2 : (inject_Z d == 2 * inject_Z r)%Q) by (rewrite <- H1; zq; reflexivity).
      nra.
    + assert (E2 : (inject_Z d == 2 * inject_Z r)%Q) by (rewrite <- H1; zq; reflexivity).
      nra.
    + rewrite Zlt_Qlt in H1. zq_in H1. nra.
    + rewrite Zlt_Qlt in H1. zq_in H1. nra.
    + rewrite Zlt_Qlt in H1. zq_in H1. nra.
    + rewrite Zlt_Qlt in H1. zq_in H1. nra.
Qed.

(** ** Interpolation over a window *)

Lemma pow2_53_inv : (pow2 (-53) * inject_Z (2 ^ 53) == 1)%Q.
Proof. reflexivity. Qed.

Lemma rnd_of_nonneg X v : rnd_of X v -> (0 <= v)%Q.
Proof. intros [[_ ->]|H]; [lra|eapply rounded_nonneg; eauto]. Qed.

Lemma rnd_of_le_int X v K :
  rnd_of X v -> (X <= inject_Z K)%Q -> 0 <= K < 2 ^ 53 -> (v <= inject_Z K)%Q.
Proof.
  intros [[_ ->]|H] HK Hb.
  - change 0%Q with (inject_Z 0). rewrite <- Zle_Qle. lia.
  - eapply rounded_le_int; eauto. lia.
Qed.

Lemma rnd_of_up_half X v :
  rnd_of X v -> (0 <= X < pow2 53)%Q -> (v <= X + (1 # 2))%Q.
Proof.
  intros [[_ ->]|H] HK; [lra|]. apply rounded_up_half; auto. lra.
Qed.

Section Interpolation.
(** [n] samples over [0, W-1]: the step is the rounded quotient
    [(W-1)/(n-1)], sample [j] the rounded product of [j] and the step. *)
Variables W n : Z.
Hypothesis HW : 2 <= W < 2 ^ 52.
Hypothesis Hn : 2 <= n < 2 ^ 52.
Variable s : Q.
Hypothesis Hs : rounded (inject_Z (W - 1) / inject_Z (n - 1)) s.

Let a := inject_Z (W - 1).
Let b := inject_Z (n - 1).
Let R := (a / b)%Q.
Let e := pow2 (-53).

Lemma interp_facts :
  (1 <= a)%Q /\ (1 <= b)%Q /\ (R * b == a)%Q /\ (0 < R)%Q /\
  (0 < e)%Q /\ (e * b <= 1 # 2)%Q /\ (0 <= s)%Q /\ (s <= R + R * e)%Q /\
  (a < pow2 52)%Q.
Proof.
  assert (Ha : (1 <= a)%Q).
  { unfold a. change 1%Q with (inject_Z 1). rewrite <- Zle_Qle. lia. }
  assert (Hb : (1 <= b)%Q).
  { unfold b. change 1%Q with (inject_Z 1). rewrite <- Zle_Qle. lia. }
  assert (Hb2 : (b <= inject_Z (2 ^ 52))%Q).
  { unfold b. rewrite <- Zle_Qle. lia. }
  assert (Ha2 : (a < pow2 52)%Q).
  { unfold a. rewrite pow2_Z by lia. rewrite <- Zlt_Qlt. lia. }
  assert (ER : (R * b == a)%Q) by (unfold R; field; lra).
  assert (HR : (0 < R)%Q).
  { unfold R. apply Qlt_shift_div_l; lra. }
  assert (He : (0 < e)%Q) by apply pow2_pos.
  assert (Heb : (e * b <= 1 # 2)%Q).
  { assert (E : (e * inject_Z (2 ^ 52) == 1 # 2)%Q) by reflexivity.
    rewrite <- E. apply Qmult_le_l; auto. }
  assert (HRlo : (pow2 (-1000) <= R)%Q).
  { apply Qle_trans with (pow2 (-52)); [apply pow2_le; lia|].
    unfold R. apply Qle_shift_div_l; [lra|].
    assert (E : (pow2 (-52) * inject_Z (2 ^ 52) == 1)%Q) by reflexivity.
    pose proof (pow2_pos (-52)). nra. }
  pose proof (rounded_nonneg _ _ Hs).
  pose proof (rounded_rel_up _ _ Hs HRlo) as Hup. fold e in Hup.
  repeat split; auto. fold a b R in Hup. lra.
Qed.

Lemma interp_mul_le j :
  0 <= j <= n - 2 -> (inject_Z j * s < a + R * (1 # 2) - R)%Q.
Proof.
  intros Hj.
  destruct interp_facts as (Ha & Hb & ER & HR & He & Heb & Hs0 & Hs1 & _).
  assert (HJ : (0 <= inject_Z j <= b - 1)%Q).
  { unfold b. change 0%Q with (inject_Z 0). change 1%Q with (inject_Z 1).
    rewrite <- inject_Z_sub, <- !Zle_Qle. lia. }
  set (J := inject_Z j) in *. clearbody J a b R e.
  assert (J * s <= (b - 1) * s)%Q by nra.
  assert ((b - 1) * s <= (b - 1) * (R + R * e))%Q by nra.
  assert (R * (e * b) <= R * (1 # 2))%Q by nra.
  nra.
Qed.

Lemma interp_le j v :
  0 <= j <= n - 2 -> rnd_of (inject_Z j * s) v ->
  (0 <= v <= inject_Z (W - 1))%Q.
Proof.
  intros Hj Hv. split; [eapply rnd_of_nonneg; eauto|].
  apply (rnd_of_le_int _ _ _ Hv); [|lia].
  pose proof (interp_mul_le j Hj).
  destruct interp_facts as (Ha & Hb & ER & HR & He & Heb & Hs0 & Hs1 & _).
  fold a. lra.
Qed.

Hypothesis HnW : n <= W.

Lemma interp_step_ge_1 : (1 <= s)%Q.
Proof.
  destruct interp_facts as (Ha & Hb & ER & HR & He & Heb & Hs0 & Hs1 & Ha2).
  assert (Hab : (b <= a)%Q) by (unfold a, b; rewrite <- Zle_Qle; lia).
  assert (HR1 : (1 <= R)%Q) by (unfold R; apply Qle_shift_div_l; lra).
  apply (rounded_ge_int _ _ 1 Hs); auto.
  fold a b R. apply Qle_lt_trans with a.
  - clearbody a b R. nra.
  - pose proof (pow2_lt 52 53 ltac:(lia)). lra.
Qed.

Lemma interp_lt_last j v :
  0 <= j <= n - 2 -> rnd_of (inject_Z j * s) v ->
  Qfloor v < W - 1.
Proof.
  intros Hj Hv.
  pose proof (interp_mul_le j Hj) as Hm.
  destruct interp_facts as (Ha & Hb & ER & HR & He & Heb & Hs0 & Hs1 & Ha2).
  assert (Hab : (b <= a)%Q) by (unfold a, b; rewrite <- Zle_Qle; lia).
  assert (HR1 : (1 <= R)%Q) by (unfold R; apply Qle_shift_div_l; lra).
  assert (HJ : (0 <= inject_Z j)%Q).
  { change 0%Q with (inject_Z 0). rewrite <- Zle_Qle. lia. }
  assert (Hv2 : (v <= inject_Z j * s + (1 # 2))%Q).
  { apply rnd_of_up_half; auto. split; [nra|].
    pose proof (pow2_lt 52 53 ltac:(lia)). lra. }
  pose proof (Qfloor_le v) as Hf.
  rewrite Zlt_Qlt. fold a. clearbody a b R. nra.
Qed.

Lemma interp_step j v v' :
  0 <= j -> j + 1 <= n - 2 ->
  rnd_of (inject_Z j * s) v -> rnd_of (inject_Z (j + 1) * s) v' ->
  Qfloor v < Qfloor v'.
Proof.
  intros Hj0 Hj Hv Hv'.
  pose proof interp_step_ge_1 as Hs1.
  pose proof (interp_mul_le (j + 1) ltac:(lia)) as Hm.
  destruct interp_facts as (Ha & Hb & ER & HR & He & Heb & Hs0 & _ & Ha2).
  assert (HJ : (0 <= inject_Z j)%Q).
  { change 0%Q with (inject_Z 0). rewrite <- Zle_Qle. lia. }
  assert (Hv'' : rounded (inject_Z (j + 1) * s) v').
  { destruct Hv' as [[E _]|]; auto. exfalso. zq_in E. nra. }
  apply (rounded_step _ _ _ _ Hv Hv'').
  - zq. nra.
  - clearbody a b R. nra.
Qed.
End Interpolation.

(** ** Counts of the two steps *)

Lemma fmul_zero_l s y : is_pos y = true -> eq_zero (fmul (S754_zero s) y) = true.
Proof. destruct y as [| | |[|] m e]; try discriminate. reflexivity. Qed.

Lemma fmul_zero_r x s : is_pos x = true -> eq_zero (fmul x (S754_zero s)) = true.
Proof. destruct x as [| | |[|] m e]; try discriminate. reflexivity. Qed.

Lemma is_zero_F2Q x : eq_zero x = true -> is_nonneg x = true /\ (F2Q x == 0)%Q.
Proof. destruct x; try discriminate. simpl. split; auto. reflexivity. Qed.

Lemma nonneg_cases x :
  is_nonneg x = true -> eq_zero x = true \/ is_pos x = true.
Proof. destruct x as [| | |[|] m e]; try discriminate; auto. Qed.

Lemma fadd_zero v :
  is_nonneg v = true ->
  is_nonneg (fadd v (of_int 0)) = true /\ (F2Q (fadd v (of_int 0)) == F2Q v)%Q.
Proof.
  destruct v as [[|]| | |[|] m e]; try discriminate; intros _; simpl; split;
    reflexivity.
Qed.

Lemma fsub_zero x : is_pos x = true -> fsub x (of_int 0) = x.
Proof. destruct x as [| | |[|] m e]; try discriminate. reflexivity. Qed.

Lemma astype_int_floor v :
  is_nonneg v = true -> (F2Q v < inject_Z (2 ^ 63))%Q ->
  astype_int v = Qfloor (F2Q v).
Proof.
  destruct v as [[|]| | |[|] m e]; try discriminate; intros _ Hb; try reflexivity.
  unfold astype_int. simpl F2Q in *. simpl cond_Zopp.
  rewrite trunc_mag_floor.
  set (x := (inject_Z (Zpos m) * pow2 e)%Q) in *.
  assert (0 <= x)%Q.
  { unfold x. pose proof (pow2_pos e). pose proof (inject_Z_pos (Zpos m) ltac:(lia)). nra. }
  assert (0 <= Qfloor x).
  { apply Qfloor_lt_int. auto. }
  assert (Qfloor x < 2 ^ 63).
  { rewrite Zlt_Qlt. pose proof (Qfloor_le x). lra. }
  replace (int64_min <=? Qfloor x) with true
    by (symmetry; apply Z.leb_le; unfold int64_min; lia).
  replace (Qfloor x <? 2 ^ 63) with true by (symmetry; apply Z.ltb_lt; lia).
  reflexivity.
Qed.

Lemma py_int_floor v :
  is_nonneg v = true -> py_int v = Ok (Qfloor (F2Q v)).
Proof.
  destruct v as [[|]| | |[|] m e]; try discriminate; intros _; try reflexivity.
  simpl. rewrite trunc_mag_floor. reflexivity.
Qed.

Lemma py_round_rne v :
  is_nonneg v = true -> py_round v = Ok (Qrne (F2Q v)).
Proof.
  destruct v as [[|]| | |[|] m e]; try discriminate; intros _; try reflexivity.
  simpl. rewrite rne_mag_Qrne. reflexivity.
Qed.

Lemma float_of_int_ok n :
  0 <= n < 2 ^ 53 -> float_of_int n = Ok (of_int n).
Proof.
  intros Hn. destruct (Z.eq_dec n 0) as [->|]; [reflexivity|].
  destruct (of_int_spec n ltac:(lia)) as (H & _).
  unfold float_of_int. destruct (of_int n) as [| | |[|] m e]; try discriminate.
  reflexivity.
Qed.

Lemma of_int_nonneg n :
  0 <= n < 2 ^ 53 ->
  is_nonneg (of_int n) = true /\ fexpo (of_int n) <= 1 /\
  (F2Q (of_int n) == inject_Z n)%Q.
Proof.
  intros Hn. destruct (Z.eq_dec n 0) as [->|].
  - repeat split; simpl; try lia; reflexivity.
  - destruct (of_int_spec n ltac:(lia)) as (H1 & H2 & H3). repeat split; auto.
    destruct (of_int n) as [| | |[|] m e]; try discriminate. reflexivity.
Qed.

Lemma unit_exponent x :
  is_pos x = true -> (F2Q x <= 1)%Q -> fexpo x <= 0.
Proof.
  destruct x as [| | |[|] m e]; try discriminate. intros _ H. simpl in *.
  apply pow2_le_inv. rewrite pow2_0.
  pose proof (pow2_pos e).
  assert (1 <= inject_Z (Zpos m))%Q.
  { change 1%Q with (inject_Z 1). rewrite <- Zle_Qle. lia. }
  nra.
Qed.

(** the product of a length and a factor of the unit interval *)
Lemma scaled_count W f :
  0 <= W < 2 ^ 53 -> is_nonneg f = true -> (F2Q f <= 1)%Q ->
  is_nonneg (fmul (of_int W) f) = true /\
  is_nonneg (fmul f (of_int W)) = true /\
  (F2Q (fmul f (of_int W)) == F2Q (fmul (of_int W) f))%Q /\
  rnd_of (inject_Z W * F2Q f) (F2Q (fmul (of_int W) f)).
Proof.
  intros HW Hf Hf1.
  destruct (Z.eq_dec W 0) as [->|HW0].
  { change (of_int 0) with (S754_zero false).
    destruct f as [[|]| | |[|] m e]; try discriminate; simpl;
      repeat split; try reflexivity; left; split; try reflexivity.
    all: change (inject_Z 0) with 0%Q; ring. }
  destruct (of_int_spec W ltac:(lia)) as (H1 & H2 & H3).
  destruct (nonneg_cases f Hf) as [Hz|Hp].
  - destruct f as [s| | |]; try discriminate.
    pose proof (fmul_zero_r (of_int W) s H1) as Z1.
    pose proof (fmul_zero_l s _ H1) as Z2.
    apply is_zero_F2Q in Z1, Z2. destruct Z1 as [N1 E1], Z2 as [N2 E2].
    repeat split; auto.
    + rewrite E1, E2. reflexivity.
    + left. rewrite E1. split; [simpl; ring|reflexivity].
  - pose proof (unit_exponent f Hp Hf1) as He.
    pose proof (F2Q_pos f Hp) as Hfp.
    assert (Hb : (F2Q (of_int W) * F2Q f < pow2 1000)%Q).
    { rewrite H3. apply Qle_lt_trans with (inject_Z W).
      - assert (0 < inject_Z W)%Q by (apply inject_Z_pos; lia). nra.
      - apply Qlt_trans with (pow2 53); [|apply pow2_lt; lia].
        rewrite pow2_Z by lia. rewrite <- Zlt_Qlt. lia. }
    destruct (fmul_rounded (of_int W) f H1 Hp ltac:(lia) Hb) as (R1 & _ & R3).
    assert (Hb' : (F2Q f * F2Q (of_int W) < pow2 1000)%Q).
    { rewrite Qmult_comm. auto. }
    destruct (fmul_rounded f (of_int W) Hp H1 ltac:(lia) Hb') as (R1' & _ & R3').
    repeat split; auto.
    + destruct (of_int W) as [| | |[|] mw ew]; try discriminate.
      destruct f as [| | |[|] m e]; try discriminate.
      unfold fmul, SFmul. rewrite (Pos.mul_comm m mw), (Z.add_comm e ew).
      reflexivity.
    + right. rewrite <- H3. auto.
Qed.

Lemma recency_count_spec w rf :
  len w < 2 ^ 53 -> is_nonneg rf = true -> (F2Q rf <= 1)%Q ->
  exists v, rnd_of (inject_Z (len w) * F2Q rf) v /\
            recency_count w rf = Ok (Qrne v).
Proof.
  intros Hw Hf Hf1.
  assert (HW : 0 <= len w < 2 ^ 53) by (unfold len in *; lia).
  destruct (scaled_count (len w) rf HW Hf Hf1) as (N1 & _ & _ & R).
  eexists. split; [exact R|].
  unfold recency_count. rewrite float_of_int_ok by auto. simpl.
  apply py_round_rne; auto.
Qed.

Lemma sample_count_spec W sf :
  0 <= W < 2 ^ 53 -> is_nonneg sf = true -> (F2Q sf <= 1)%Q ->
  exists v, rnd_of (inject_Z W * F2Q sf) v /\
            sample_count W sf = Ok (Qfloor v).
Proof.
  intros HW Hf Hf1.
  destruct (scaled_count W sf HW Hf Hf1) as (_ & N2 & E & R).
  eexists. split; [exact R|].
  unfold sample_count. rewrite float_of_int_ok by auto. simpl.
  rewrite py_int_floor by auto. f_equal. apply Qfloor_comp. auto.
Qed.

Lemma unit_count_bounds W f v :
  0 <= W < 2 ^ 53 -> (0 <= f <= 1)%Q -> rnd_of (inject_Z W * f) v ->
  (0 <= v <= inject_Z W)%Q.
Proof.
  intros HW Hf Hv. split; [eapply rnd_of_nonneg; eauto|].
  apply (rnd_of_le_int _ _ _ Hv); auto.
  assert (0 <= inject_Z W)%Q.
  { change 0%Q with (inject_Z 0). rewrite <- Zle_Qle. lia. }
  nra.
Qed.

(** ** Lists, and the samples of linspace *)

Lemma py_range_interval q : py_range q = interval 0 (Z.to_nat q).
Proof. reflexivity. Qed.

Lemma len_interval a n : len (interval a n) = Z.of_nat n.
Proof. unfold len, interval. rewrite length_map, length_seq. reflexivity. Qed.

Lemma len_py_range q : 0 <= q -> len (py_range q) = q.
Proof. intros. rewrite py_range_interval, len_interval. lia. Qed.

Lemma skipn_interval j a n :
  skipn j (interval a n) = interval (a + j) (n - j).
Proof. unfold interval. rewrite skipn_map, skipn_seq. reflexivity. Qed.

Lemma slice_from_0 {A} (l : list A) : slice_from l 0 = l.
Proof.
  unfold slice_from. simpl. replace (Z.min 0 (len l)) with 0; [reflexivity|].
  unfold len. lia.
Qed.

Lemma slice_from_last a n k :
  0 < k <= Z.of_nat n ->
  slice_from (interval a n) (- k) =
  interval (a + (n - Z.to_nat k)) (Z.to_nat k).
Proof.
  intros Hk. unfold slice_from. rewrite len_interval.
  replace (- k <? 0) with true by (symmetry; apply Z.ltb_lt; lia).
  rewrite skipn_interval. f_equal; lia.
Qed.

Lemma nth_error_interval a n i :
  (i < n)%nat -> nth_error (interval a n) i = Some (Z.of_nat (a + i)).
Proof.
  intros. unfold interval. rewrite nth_error_map, nth_error_seq.
  destruct (Nat.ltb_spec i n); try lia. reflexivity.
Qed.

Lemma py_index_interval a n i :
  0 <= i < Z.of_nat n -> py_index (interval a n) i = Ok (Z.of_nat a + i).
Proof.
  intros Hi. unfold py_index.
  replace (i <? 0) with false by (symmetry; apply Z.ltb_ge; lia).
  replace (i <? 0) with false by (symmetry; apply Z.ltb_ge; lia).
  rewrite nth_error_interval by lia. f_equal. lia.
Qed.

Lemma py_index_nth (w : list Z) i :
  0 <= i < len w -> py_index w i = Ok (nth (Z.to_nat i) w 0).
Proof.
  intros Hi. unfold py_index.
  replace (i <? 0) with false by (symmetry; apply Z.ltb_ge; lia).
  replace (i <? 0) with false by (symmetry; apply Z.ltb_ge; lia).
  rewrite (nth_error_nth' w 0) by (unfold len in Hi; lia). reflexivity.
Qed.

Lemma mapM_py_index_nth (w : list Z) idxs :
  Forall (fun i => 0 <= i < len w) idxs ->
  mapM (py_index w) idxs = Ok (map (fun i => nth (Z.to_nat i) w 0) idxs).
Proof.
  induction 1 as [|i idxs Hi _ IH]; simpl; auto.
  rewrite py_index_nth by auto. simpl. rewrite IH. reflexivity.
Qed.

Lemma nth_interval a n i :
  0 <= i < Z.of_nat n -> nth (Z.to_nat i) (interval a n) 0 = Z.of_nat a + i.
Proof.
  intros Hi. apply nth_error_nth. rewrite nth_error_interval by lia.
  f_equal. lia.
Qed.

Lemma set_last_app {A} (l : list A) x v : set_last (l ++ [x]) v = l ++ [v].
Proof.
  induction l as [|a l IH]; simpl; auto.
  rewrite IH. destruct (l ++ [x]) eqn:E; auto.
  destruct l; discriminate.
Qed.

Lemma py_range_snoc n : 0 < n -> py_range n = py_range (n - 1) ++ [n - 1].
Proof.
  intros. unfold py_range.
  replace (Z.to_nat n) with (S (Z.to_nat (n - 1))) by lia.
  rewrite seq_S, map_app. simpl. do 2 f_equal. lia.
Qed.

Lemma in_py_range n j : In j (py_range n) <-> 0 <= j < n.
Proof.
  unfold py_range. rewrite in_map_iff. split.
  - intros (i & <- & Hi). apply in_seq in Hi. lia.
  - intros Hj. exists (Z.to_nat j). split; [lia|]. apply in_seq. lia.
Qed.

(** ** The samples of [linspace] *)

Lemma astype_zero y : eq_zero y = true -> astype_int y = 0.
Proof. destruct y; try discriminate. reflexivity. Qed.

Lemma fadd_zero_zero y : eq_zero y = true -> eq_zero (fadd y (of_int 0)) = true.
Proof. destruct y as [[|]| | |]; try discriminate; reflexivity. Qed.

Lemma linspace_1 W :
  1 <= W < 2 ^ 53 ->
  exists y, linspace 0 (W - 1) 1 = Ok [y] /\ astype_int y = 0.
Proof.
  intros HW. eexists. split; [reflexivity|].
  apply astype_zero, fadd_zero_zero.
  change (of_int 0) with (S754_zero false).
  destruct (Z.eq_dec W 1) as [->|]; [reflexivity|].
  destruct (of_int_spec (W - 1) ltac:(lia)) as (H & _).
  rewrite fsub_zero by auto. apply fmul_zero_l; auto.
Qed.

Lemma step_spec W n :
  2 <= W < 2 ^ 52 -> 2 <= n < 2 ^ 52 ->
  is_pos (step W n) = true /\ fexpo (step W n) <= 948 /\
  rounded (inject_Z (W - 1) / inject_Z (n - 1)) (F2Q (step W n)).
Proof.
  intros HW Hn.
  destruct (of_int_spec (W - 1) ltac:(lia)) as (A1 & A2 & A3).
  destruct (of_int_spec (n - 1) ltac:(lia)) as (B1 & B2 & B3).
  assert (Ha : (1 <= inject_Z (W - 1) < inject_Z (2 ^ 52))%Q).
  { change 1%Q with (inject_Z 1). rewrite <- Zle_Qle, <- Zlt_Qlt. lia. }
  assert (Hb : (1 <= inject_Z (n - 1) < inject_Z (2 ^ 52))%Q).
  { change 1%Q with (inject_Z 1). rewrite <- Zle_Qle, <- Zlt_Qlt. lia. }
  assert (Hr : (pow2 (-999) <= F2Q (of_int (W - 1)) / F2Q (of_int (n - 1))
                < pow2 1000)%Q).
  { rewrite A3, B3. split.
    - apply Qle_trans with (pow2 (-52)); [apply pow2_le; lia|].
      apply Qle_shift_div_l; [lra|].
      assert (E : (pow2 (-52) * inject_Z (2 ^ 52) == 1)%Q) by reflexivity.
      pose proof (pow2_pos (-52)). nra.
    - apply Qlt_shift_div_r; [lra|].
      apply Qlt_le_trans with (pow2 52 * 1)%Q.
      + rewrite pow2_Z by lia. lra.
      + pose proof (pow2_le 52 1000 ltac:(lia)). pose proof (pow2_pos 52).
        pose proof (pow2_pos 1000). nra. }
  destruct (fdiv_rounded _ _ A1 B1 Hr) as (C1 & C2 & C3).
  rewrite A3, B3 in C3.
  unfold step. repeat split; auto.
  apply nonneg_pos; auto.
  assert (Hlo : (pow2 (-1000) <= inject_Z (W - 1) / inject_Z (n - 1))%Q).
  { rewrite <- A3, <- B3. apply Qle_trans with (pow2 (-999)); [apply pow2_le; lia|lra]. }
  destruct C3 as (g & [G1 G2] & ->).
  assert (Hg : -1000 < g) by (apply pow2_lt_inv; lra).
  rewrite cexp_normal by lia.
  pose proof (pow2_pos (g - 53)).
  assert (1 <= Qrne (inject_Z (W - 1) / inject_Z (n - 1) / pow2 (g - 53))).
  { apply Qrne_ge_Z. apply Qle_shift_div_l; auto.
    change (inject_Z 1) with 1%Q. rewrite Qmult_1_l.
    apply Qle_trans with (pow2 (g - 1)); auto. apply pow2_le. lia. }
  rewrite Zle_Qle in H0. change (inject_Z 1) with 1%Q in H0. nra.
Qed.

Lemma sample_spec W n j :
  2 <= W < 2 ^ 52 -> 2 <= n < 2 ^ 52 -> 0 <= j <= n - 2 ->
  is_nonneg (sample W n j) = true /\
  rnd_of (inject_Z j * F2Q (step W n)) (F2Q (sample W n j)).
Proof.
  intros HW Hn Hj.
  destruct (step_spec W n HW Hn) as (S1 & S2 & S3).
  unfold sample.
  destruct (Z.eq_dec j 0) as [->|Hj0].
  - change (of_int 0) with (S754_zero false).
    pose proof (fmul_zero_l false _ S1) as Hz.
    apply fadd_zero_zero, is_zero_F2Q in Hz. destruct Hz as [Hz1 Hz2].
    split; auto. left. split; auto. change (inject_Z 0) with 0%Q. ring.
  - destruct (of_int_spec j ltac:(lia)) as (A1 & A2 & A3).
    assert (Hsv : (F2Q (step W n) <= inject_Z (2 ^ 52))%Q).
    { apply (rounded_le_int _ _ _ S3); [|lia].
      apply Qle_shift_div_r.
      - apply inject_Z_pos. lia.
      - rewrite <- inject_Z_mult, <- Zle_Qle. nia. }
    pose proof (F2Q_pos _ S1) as Hsp.
    assert (Hb : (F2Q (of_int j) * F2Q (step W n) < pow2 1000)%Q).
    { rewrite A3.
      assert (0 < inject_Z j <= inject_Z (2 ^ 52))%Q.
      { split; [apply inject_Z_pos; lia|rewrite <- Zle_Qle; lia]. }
      apply Qle_lt_trans with (inject_Z (2 ^ 52) * inject_Z (2 ^ 52))%Q; [nra|].
      rewrite <- inject_Z_mult, <- Z.pow_add_r, <- pow2_Z by lia.
      apply pow2_lt. lia. }
    destruct (fmul_rounded _ _ A1 S1 ltac:(lia) Hb) as (M1 & _ & M3).
    destruct (fadd_zero _ M1) as [F1 F2].
    split; auto. right. rewrite F2, <- A3. auto.
Qed.

Lemma linspace_general W n :
  2 <= W < 2 ^ 52 -> 2 <= n < 2 ^ 52 ->
  linspace 0 (W - 1) n =
  Ok (map (sample W n) (py_range (n - 1)) ++ [of_int (W - 1)]).
Proof.
  intros HW Hn.
  destruct (step_spec W n HW Hn) as (S1 & _).
  destruct (of_int_spec (W - 1) ltac:(lia)) as (A1 & _).
  unfold linspace.
  replace (n <? 0) with false by (symmetry; apply Z.ltb_ge; lia).
  replace (0 <? n - 1) with true by (symmetry; apply Z.ltb_lt; lia).
  replace (1 <? n) with true by (symmetry; apply Z.ltb_lt; lia).
  rewrite fsub_zero by auto. fold (step W n).
  replace (eq_zero (step W n)) with false
    by (destruct (step W n) as [| | |[|] m e]; try discriminate; reflexivity).
  rewrite !map_map. f_equal.
  rewrite (py_range_snoc n) by lia. rewrite map_app. simpl.
  rewrite set_last_app. reflexivity.
Qed.

(** ** The sampled indices *)

Lemma subsample_step_pick w sf :
  subsample_step w sf = (num <- sample_count (len w) sf ;; pick_samples w num).
Proof. reflexivity. Qed.

Section LinIdx.
Variables W n : Z.
Hypothesis HW : 2 <= W < 2 ^ 52.
Hypothesis Hn : 2 <= n < 2 ^ 52.

Lemma lin_idx_floor j :
  0 <= j <= n - 2 ->
  lin_idx W n j = Qfloor (F2Q (sample W n j)) /\
  (0 <= F2Q (sample W n j) <= inject_Z (W - 1))%Q.
Proof.
  intros Hj.
  destruct (step_spec W n HW Hn) as (S1 & S2 & S3).
  destruct (sample_spec W n j HW Hn Hj) as (N & R).
  pose proof (interp_le W n HW Hn _ S3 j _ Hj R) as Hb.
  split; auto. unfold lin_idx. apply astype_int_floor; auto.
  apply Qle_lt_trans with (inject_Z (W - 1)); [tauto|].
  rewrite <- Zlt_Qlt. lia.
Qed.

Lemma lin_idx_bounds j : 0 <= j <= n - 2 -> 0 <= lin_idx W n j <= W - 1.
Proof.
  intros Hj. destruct (lin_idx_floor j Hj) as (-> & H0 & H1). split.
  - apply Qfloor_lt_int. auto.
  - rewrite <- (Qfloor_Z (W - 1)). apply Qfloor_resp_le. auto.
Qed.

Hypothesis HnW : n <= W.

Lemma lin_idx_lt_last j : 0 <= j <= n - 2 -> lin_idx W n j < W - 1.
Proof.
  intros Hj. destruct (lin_idx_floor j Hj) as (-> & _).
  destruct (step_spec W n HW Hn) as (S1 & S2 & S3).
  destruct (sample_spec W n j HW Hn Hj) as (N & R).
  apply (interp_lt_last W n HW Hn _ S3 HnW j _ Hj R).
Qed.

Lemma lin_idx_step j :
  0 <= j -> j + 1 <= n - 2 -> lin_idx W n j < lin_idx W n (j + 1).
Proof.
  intros Hj0 Hj.
  destruct (lin_idx_floor j ltac:(lia)) as (-> & _).
  destruct (lin_idx_floor (j + 1) ltac:(lia)) as (-> & _).
  destruct (step_spec W n HW Hn) as (S1 & S2 & S3).
  destruct (sample_spec W n j HW Hn ltac:(lia)) as (N & R).
  destruct (sample_spec W n (j + 1) HW Hn ltac:(lia)) as (N' & R').
  apply (interp_step W n HW Hn _ S3 HnW j _ _ Hj0 Hj R R').
Qed.
End LinIdx.

Lemma astype_of_int k : 0 <= k < 2 ^ 53 -> astype_int (of_int k) = k.
Proof.
  intros Hk. destruct (of_int_nonneg k Hk) as (H1 & _ & H3).
  rewrite astype_int_floor; auto.
  - rewrite (Qfloor_comp _ _ H3). apply Qfloor_Z.
  - rewrite H3, <- Zlt_Qlt. lia.
Qed.

(** ** Picking the samples out of a window of consecutive frames *)

Lemma pick_0 w : pick_samples w 0 = Ok w.
Proof. reflexivity. Qed.

Lemma pick_1 w :
  1 <= len w < 2 ^ 53 -> pick_samples w 1 = Ok [nth 0 w 0].
Proof.
  intros HW. unfold pick_samples.
  destruct (linspace_1 (len w) HW) as (y & -> & Hy).
  simpl. rewrite Hy. rewrite py_index_nth by lia. reflexivity.
Qed.

Lemma pick_general w n :
  2 <= len w < 2 ^ 52 -> 2 <= n < 2 ^ 52 ->
  pick_samples w n =
  Ok (map (fun i => nth (Z.to_nat i) w 0)
          (map (lin_idx (len w) n) (py_range (n - 1)) ++ [len w - 1])).
Proof.
  intros HW Hn. unfold pick_samples.
  rewrite linspace_general by auto. cbn [bind].
  rewrite map_app, map_map. cbn [map]. rewrite astype_of_int by lia.
  fold (lin_idx (len w) n).
  replace (0 <? len _) with true.
  2:{ symmetry. apply Z.ltb_lt. unfold len at 1. rewrite length_app. simpl. lia. }
  apply mapM_py_index_nth. apply Forall_app. split.
  - apply Forall_forall. intros i Hi. apply in_map_iff in Hi.
    destruct Hi as (j & <- & Hj). apply in_py_range in Hj.
    pose proof (lin_idx_bounds _ n HW Hn j ltac:(lia)). lia.
  - constructor; [lia|constructor].
Qed.

(** ** A window of one frame, and order *)

Lemma Forall_set_last {A} (P : A -> Prop) l v :
  Forall P l -> P v -> Forall P (set_last l v).
Proof.
  induction 1 as [|a l Ha Hl IH]; intros Hv; simpl; auto.
  destruct l; auto.
Qed.

Lemma length_set_last {A} (l : list A) v : length (set_last l v) = length l.
Proof.
  induction l as [|a l IH]; simpl; auto. destruct l; auto. simpl in *. lia.
Qed.

Lemma length_py_range n : length (py_range n) = Z.to_nat n.
Proof. unfold py_range. rewrite length_map, length_seq. reflexivity. Qed.

Lemma fdiv_zero_l s y : is_pos y = true -> eq_zero (fdiv (S754_zero s) y) = true.
Proof. destruct y as [| | |[|] m e]; try discriminate. reflexivity. Qed.

Lemma fmul_nonneg_zero x :
  is_nonneg x = true -> eq_zero (fmul x (S754_zero false)) = true.
Proof. destruct x as [| | |[|] m e]; try discriminate; reflexivity. Qed.

Lemma fdiv_ints_nonneg j d :
  0 <= j < 2 ^ 53 -> 0 < d < 2 ^ 53 ->
  is_nonneg (fdiv (of_int j) (of_int d)) = true.
Proof.
  intros Hj Hd.
  destruct (of_int_spec d Hd) as (B1 & B2 & B3).
  destruct (Z.eq_dec j 0) as [->|Hj0].
  { change (of_int 0) with (S754_zero false).
    pose proof (fdiv_zero_l false _ B1). apply is_zero_F2Q in H. tauto. }
  destruct (of_int_spec j ltac:(lia)) as (A1 & A2 & A3).
  apply (fdiv_rounded _ _ A1 B1).
  rewrite A3, B3.
  assert (Ha : (1 <= inject_Z j < inject_Z (2 ^ 53))%Q).
  { change 1%Q with (inject_Z 1). rewrite <- Zle_Qle, <- Zlt_Qlt. lia. }
  assert (Hb : (1 <= inject_Z d < inject_Z (2 ^ 53))%Q).
  { change 1%Q with (inject_Z 1). rewrite <- Zle_Qle, <- Zlt_Qlt. lia. }
  split.
  - apply Qle_trans with (pow2 (-53)); [apply pow2_le; lia|].
    apply Qle_shift_div_l; [lra|].
    pose proof pow2_53_inv. pose proof (pow2_pos (-53)). nra.
  - apply Qlt_shift_div_r; [lra|].
    apply Qlt_le_trans with (pow2 53 * 1)%Q.
    + rewrite pow2_Z by lia. lra.
    + pose proof (pow2_le 53 1000 ltac:(lia)). pose proof (pow2_pos 53).
      pose proof (pow2_pos 1000). nra.
Qed.

(** A window of f_one frame: the step is zero and every sample is zero. *)
Lemma linspace_single n :
  2 <= n < 2 ^ 53 ->
  exists ys, linspace 0 (1 - 1) n = Ok ys /\ length ys = Z.to_nat n /\
             Forall (fun y => astype_int y = 0) ys.
Proof.
  intros Hn.
  destruct (of_int_spec (n - 1) ltac:(lia)) as (B1 & _).
  unfold linspace.
  replace (n <? 0) with false by (symmetry; apply Z.ltb_ge; lia).
  replace (0 <? n - 1) with true by (symmetry; apply Z.ltb_lt; lia).
  replace (1 <? n) with true by (symmetry; apply Z.ltb_lt; lia).
  change (fsub (of_int (1 - 1)) (of_int 0)) with (S754_zero false).
  rewrite (fdiv_zero_l false _ B1).
  eexists. split; [reflexivity|]. split.
  - rewrite length_set_last, !length_map. apply length_py_range.
  - apply Forall_set_last; [|reflexivity].
    rewrite !map_map. apply Forall_forall. intros y Hy.
    apply in_map_iff in Hy. destruct Hy as (j & <- & Hj).
    apply in_py_range in Hj.
    apply astype_zero, fadd_zero_zero, fmul_nonneg_zero.
    apply fdiv_ints_nonneg; lia.
Qed.

Lemma pick_single w n :
  len w = 1 -> 2 <= n < 2 ^ 53 ->
  exists l, pick_samples w n = Ok l /\ l <> [] /\
            Forall (fun i => i = nth 0 w 0) l.
Proof.
  intros Hw Hn. unfold pick_samples. rewrite Hw.
  destruct (linspace_single n Hn) as (ys & E & Hl & Hz).
  rewrite E. cbn [bind].
  replace (0 <? len (map astype_int ys)) with true.
  2:{ symmetry. apply Z.ltb_lt. unfold len. rewrite length_map. lia. }
  assert (Hz' : Forall (fun i => 0 <= i < len w) (map astype_int ys)).
  { apply Forall_map. eapply Forall_impl; [|exact Hz]. simpl. intros. lia. }
  rewrite (mapM_py_index_nth w _ Hz').
  eexists. split; [reflexivity|]. split.
  - destruct ys; simpl in *; [lia|discriminate].
  - rewrite map_map. apply Forall_map.
    eapply Forall_impl; [|exact Hz]. simpl. intros y ->. reflexivity.
Qed.

(** ** Order *)

Lemma sorted_map_seq (f : Z -> Z) k : forall a,
  (forall j, (a <= j)%nat -> (S j < a + k)%nat ->
             f (Z.of_nat j) < f (Z.of_nat (S j))) ->
  Sorted Z.lt (map f (map Z.of_nat (seq a k))).
Proof.
  induction k as [|k IH]; intros a H; simpl; [constructor|].
  constructor.
  - apply IH. intros j Hj1 Hj2. apply H; lia.
  - destruct k; simpl; constructor. apply H; lia.
Qed.

Lemma sorted_map_range (f : Z -> Z) m :
  (forall j, 0 <= j -> j + 1 < m -> f j < f (j + 1)) ->
  StronglySorted Z.lt (map f (py_range m)).
Proof.
  intros H. apply Sorted_StronglySorted; [exact Z.lt_strorder.(StrictOrder_Transitive)|].
  apply sorted_map_seq. intros j Hj1 Hj2.
  replace (Z.of_nat (S j)) with (Z.of_nat j + 1) by lia. apply H; lia.
Qed.

Lemma sorted_snoc l x :
  StronglySorted Z.lt l -> Forall (fun i => i < x) l ->
  StronglySorted Z.lt (l ++ [x]).
Proof.
  induction 1 as [|a l Hs IH Ha]; intros Hx; simpl.
  - constructor; constructor.
  - inversion Hx; subst. constructor; auto.
    apply Forall_app. split; auto.
Qed.

Lemma sorted_shift a l :
  StronglySorted Z.lt l -> StronglySorted Z.lt (map (fun i => a + i) l).
Proof.
  induction 1 as [|x l Hs IH Hx]; simpl; constructor; auto.
  apply Forall_map. eapply Forall_impl; [|exact Hx]. simpl. intros. lia.
Qed.

Lemma sorted_interval a n : StronglySorted Z.lt (interval a n).
Proof.
  apply Sorted_StronglySorted; [exact Z.lt_strorder.(StrictOrder_Transitive)|].
  unfold interval. rewrite <- (map_id (map Z.of_nat (seq a n))).
  apply sorted_map_seq. intros. lia.
Qed.

Lemma lin_sorted W n :
  2 <= W < 2 ^ 52 -> 2 <= n < 2 ^ 52 -> n <= W ->
  StronglySorted Z.lt (map (lin_idx W n) (py_range (n - 1)) ++ [W - 1]).
Proof.
  intros HW Hn HnW. apply sorted_snoc.
  - apply sorted_map_range. intros j Hj0 Hj. apply lin_idx_step; auto; lia.
  - apply Forall_map, Forall_forall. intros j Hj. apply in_py_range in Hj.
    apply lin_idx_lt_last; auto; lia.
Qed.

Lemma in_interval a n i :
  In i (interval a n) <-> Z.of_nat a <= i < Z.of_nat a + Z.of_nat n.
Proof.
  unfold interval. rewrite in_map_iff. split.
  - intros (j & <- & Hj). apply in_seq in Hj. lia.
  - intros Hi. exists (Z.to_nat i). split; [lia|]. apply in_seq. lia.
Qed.

(** ** The recency step *)

Lemma in_unit_pos_unit x : in_unit_pos x -> in_unit x.
Proof.
  intros [H1 H2]. split; auto.
  destruct x as [| | |[|] m e]; try discriminate; reflexivity.
Qed.

Lemma rnd_of_int X v K :
  rnd_of X v -> (X == inject_Z K)%Q -> 0 <= K < 2 ^ 53 -> (v == inject_Z K)%Q.
Proof.
  intros [[E ->]|H] HX HK.
  - rewrite <- HX. symmetry. auto.
  - eapply rounded_int; eauto. lia.
Qed.

Lemma in_unit_F2Q x : in_unit x -> (0 <= F2Q x <= 1)%Q.
Proof. intros [H1 H2]. split; auto. apply F2Q_nonneg; auto. Qed.

Lemma recency_step_spec q rf :
  0 <= q < 2 ^ 53 -> in_unit rf ->
  exists v, rnd_of (inject_Z q * F2Q rf) v /\
    let k := Qrne v in
    recency_count (py_range q) rf = Ok k /\ 0 <= k <= q /\
    recency_step (py_range q) rf =
      Ok (if k =? 0 then py_range q
          else interval (Z.to_nat (q - k)) (Z.to_nat k)).
Proof.
  intros Hq Hrf. pose proof (in_unit_F2Q _ Hrf) as Hb. destruct Hrf as [H1 H2].
  destruct (recency_count_spec (py_range q) rf) as (v & Hv & Ek); auto.
  { rewrite len_py_range; lia. }
  rewrite len_py_range in Hv by lia.
  exists v. split; auto. cbv zeta.
  pose proof (unit_count_bounds q _ v Hq Hb Hv) as [Hv0 Hv1].
  assert (Hk : 0 <= Qrne v <= q).
  { split; [apply Qrne_ge_Z|apply Qrne_le_Z]; auto. }
  repeat split; try tauto.
  unfold recency_step. rewrite Ek. cbn [bind].
  destruct (Z.eqb_spec (Qrne v) 0) as [->|Hk0].
  - simpl Z.opp. rewrite slice_from_0. destruct (0 <? _); reflexivity.
  - rewrite py_range_interval, slice_from_last by lia.
    rewrite len_interval.
    replace (0 <? Z.of_nat (Z.to_nat (Qrne v))) with true
      by (symmetry; apply Z.ltb_lt; lia).
    do 2 f_equal. lia.
Qed.

Lemma F2Q_one : (F2Q f_one == 1)%Q.
Proof. reflexivity. Qed.

Lemma one_unit : in_unit_pos f_one.
Proof. split; [reflexivity|]. rewrite F2Q_one. lra. Qed.

Lemma lin_idx_identity q j :
  2 <= q < 2 ^ 52 -> 0 <= j <= q - 2 -> lin_idx q q j = j.
Proof.
  intros Hq Hj.
  destruct (lin_idx_floor q q Hq Hq j Hj) as (-> & _).
  destruct (step_spec q q Hq Hq) as (_ & _ & S3).
  destruct (sample_spec q q j Hq Hq Hj) as (_ & R).
  assert (Es : (F2Q (step q q) == inject_Z 1)%Q).
  { apply (rounded_int _ _ 1 S3); [|lia].
    change (inject_Z 1) with 1%Q. field.
    assert (0 < inject_Z (q - 1))%Q by (apply inject_Z_pos; lia). lra. }
  rewrite Es in R.
  assert (Ey : (F2Q (sample q q j) == inject_Z j)%Q).
  { apply (rnd_of_int _ _ j R); [|lia]. change (inject_Z 1) with 1%Q. ring. }
  rewrite (Qfloor_comp _ _ Ey). apply Qfloor_Z.
Qed.

Lemma map_nth_range q :
  0 <= q -> map (fun i => nth (Z.to_nat i) (py_range q) 0) (py_range q) = py_range q.
Proof.
  intros Hq. transitivity (map (fun i : Z => i) (py_range q)); [|apply map_id].
  apply map_ext_in. intros i Hi. apply in_py_range in Hi.
  rewrite py_range_interval, nth_interval by lia. lia.
Qed.

(** ** The subsampling step *)

Lemma recency_window q rf :
  0 <= q < 2 ^ 53 -> in_unit rf ->
  exists v W,
    rnd_of (inject_Z q * F2Q rf) v /\
    recency_count (py_range q) rf = Ok (Qrne v) /\
    0 <= Qrne v <= q /\
    W = (if Qrne v =? 0 then q else Qrne v) /\
    recency_step (py_range q) rf =
      Ok (interval (Z.to_nat (q - W)) (Z.to_nat W)).
Proof.
  intros Hq Hrf.
  destruct (recency_step_spec q rf Hq Hrf) as (v & Hv & Ek & Hk & Er).
  exists v, (if Qrne v =? 0 then q else Qrne v). repeat split; auto; try tauto.
  rewrite Er. destruct (Qrne v =? 0); auto.
  replace (q - q) with 0 by lia. reflexivity.
Qed.

Lemma sample_count_unit W sf :
  0 <= W < 2 ^ 53 -> in_unit sf ->
  exists v, rnd_of (inject_Z W * F2Q sf) v /\
            sample_count W sf = Ok (Qfloor v) /\ 0 <= Qfloor v <= W.
Proof.
  intros HW Hsf. pose proof (in_unit_F2Q _ Hsf) as Hb. destruct Hsf as [H1 H2].
  destruct (sample_count_spec W sf HW H1 H2) as (v & Hv & E).
  exists v. repeat split; auto.
  - apply Qfloor_lt_int. eapply rnd_of_nonneg; eauto.
  - pose proof (unit_count_bounds W _ v HW Hb Hv) as [_ Hv1].
    rewrite <- (Qfloor_Z W). apply Qfloor_resp_le. auto.
Qed.

Lemma lin_indices_in_range W n :
  2 <= W < 2 ^ 52 -> 2 <= n < 2 ^ 52 ->
  Forall (fun i => 0 <= i < W)
         (map (lin_idx W n) (py_range (n - 1)) ++ [W - 1]).
Proof.
  intros HW Hn. apply Forall_app. split.
  - apply Forall_map, Forall_forall. intros j Hj. apply in_py_range in Hj.
    pose proof (lin_idx_bounds W n HW Hn j ltac:(lia)). lia.
  - constructor; [lia|constructor].
Qed.

Lemma subsample_interval a Wn sf :
  Z.of_nat Wn < 2 ^ 52 -> in_unit sf ->
  exists l, subsample_step (interval a Wn) sf = Ok l /\
            StronglySorted Z.lt l /\
            Forall (fun i => In i (interval a Wn)) l /\
            len l <= Z.of_nat Wn.
Proof.
  intros HW Hsf. set (W := Z.of_nat Wn) in *.
  destruct (sample_count_unit W sf ltac:(lia) Hsf) as (v & _ & E & Hn).
  rewrite subsample_step_pick, len_interval. fold W. rewrite E. cbn [bind].
  set (n := Qfloor v) in *.
  destruct (Z.eq_dec n 0) as [->|Hn0]; [|destruct (Z.eq_dec n 1) as [->|Hn1]].
  - rewrite pick_0. eexists. split; [reflexivity|]. repeat split.
    + apply sorted_interval.
    + apply Forall_forall. auto.
    + rewrite len_interval. fold W. lia.
  - rewrite pick_1 by (rewrite len_interval; fold W; lia).
    change 0%nat with (Z.to_nat 0). rewrite nth_interval by (fold W; lia).
    eexists. split; [reflexivity|]. repeat split.
    + repeat constructor.
    + constructor; [|constructor]. apply in_interval. fold W. lia.
    + unfold len. simpl. lia.
  - rewrite pick_general; rewrite ?len_interval; fold W; try lia.
    pose proof (lin_indices_in_range W n ltac:(lia) ltac:(lia)) as Hin.
    set (idxs := map (lin_idx W n) (py_range (n - 1)) ++ [W - 1]) in *.
    rewrite (map_ext_in _ (fun i => Z.of_nat a + i)).
    2:{ intros i Hi. rewrite Forall_forall in Hin. apply Hin in Hi.
        apply nth_interval. fold W. lia. }
    eexists. split; [reflexivity|]. repeat split.
    + apply sorted_shift. apply lin_sorted; lia.
    + apply Forall_map. eapply Forall_impl; [|exact Hin]. simpl.
      intros i Hi. apply in_interval. fold W. lia.
    + unfold len, idxs. rewrite !length_map, length_app, length_map, length_py_range.
      simpl. lia.
Qed.

Lemma interval_shift a n :
  interval a n = map (fun i => Z.of_nat a + i) (interval 0 n).
Proof.
  induction a as [|a IH].
  - simpl. symmetry. apply map_id.
  - unfold interval in *. rewrite <- seq_shift, map_map.
    rewrite (map_ext (fun x => Z.of_nat (S x)) (fun x => Z.succ (Z.of_nat x)))
      by (intros; lia).
    rewrite <- (map_map Z.of_nat Z.succ), IH, map_map.
    apply map_ext. intros. lia.
Qed.

(** ** Samples by position *)

Lemma nth_py_range m j : 0 <= j < m -> nth (Z.to_nat j) (py_range m) 0 = j.
Proof.
  intros. rewrite py_range_interval, nth_interval by lia. lia.
Qed.

Lemma nth_lin_indices (f : Z -> Z) m x j :
  0 <= m -> 0 <= j <= m ->
  nth (Z.to_nat j) (map f (py_range m) ++ [x]) 0 = if j =? m then x else f j.
Proof.
  intros Hm Hj. destruct (Z.eqb_spec j m) as [->|Hne].
  - rewrite app_nth2 by (rewrite length_map, length_py_range; lia).
    rewrite length_map, length_py_range, Nat.sub_diag. reflexivity.
  - rewrite app_nth1 by (rewrite length_map, length_py_range; lia).
    rewrite (nth_indep _ 0 (f 0)) by (rewrite length_map, length_py_range; lia).
    rewrite map_nth, nth_py_range by lia. reflexivity.
Qed.

(** ** Loops over ranges *)

Lemma bind_ok {A B} (r : result A) (k : A -> result B) b :
  bind r k = Ok b -> exists a, r = Ok a /\ k a = Ok b.
Proof. destruct r; simpl; [eauto|discriminate]. Qed.

Lemma mapM_app {A B} (f : A -> result B) l1 l2 r1 r2 :
  mapM f l1 = Ok r1 -> mapM f l2 = Ok r2 -> mapM f (l1 ++ l2) = Ok (r1 ++ r2).
Proof.
  revert r1. induction l1 as [|a l1 IH]; intros r1 H1 H2; simpl in *.
  - inversion H1; subst. auto.
  - apply bind_ok in H1. destruct H1 as (b & -> & H1).
    apply bind_ok in H1. destruct H1 as (bs & E & H1). inversion H1; subst.
    simpl. rewrite (IH bs E H2). reflexivity.
Qed.

Lemma mapM_map {A B C} (f : B -> result C) (g : A -> B) l :
  mapM f (map g l) = mapM (fun a => f (g a)) l.
Proof. induction l as [|a l IH]; simpl; auto. rewrite IH. reflexivity. Qed.

Lemma mapM_ext_in {A B} (f g : A -> result B) l :
  (forall a, In a l -> f a = g a) -> mapM f l = mapM g l.
Proof.
  induction l as [|a l IH]; intros H; simpl; auto.
  rewrite H by (left; auto). rewrite IH; auto. intros. apply H. right. auto.
Qed.

Lemma py_range2_nil a b : b <= a -> py_range2 a b = [].
Proof.
  intros. unfold py_range2, py_range. replace (Z.to_nat (b - a)) with 0%nat by lia.
  reflexivity.
Qed.

Lemma py_range_app n m :
  0 <= n -> 0 <= m -> py_range (n + m) = py_range n ++ map (fun k => n + k) (py_range m).
Proof.
  intros Hn Hm. unfold py_range.
  replace (Z.to_nat (n + m)) with (Z.to_nat n + Z.to_nat m)%nat by lia.
  rewrite seq_app, map_app. f_equal. simpl.
  rewrite <- (Nat.add_0_r (Z.to_nat n)) at 1.
  change (seq (Z.to_nat n + 0) (Z.to_nat m))
    with (seq (Z.to_nat n + 0) (Z.to_nat m)).
  rewrite map_map.
  clear Hm. generalize 0%nat as s. induction (Z.to_nat m) as [|k IH]; intros s; simpl; auto.
  f_equal; [lia|]. rewrite <- Nat.add_succ_r. apply IH.
Qed.

Lemma py_range2_app a b c :
  a <= b -> b <= c -> py_range2 a b ++ py_range2 b c = py_range2 a c.
Proof.
  intros H1 H2. unfold py_range2.
  replace (c - a) with ((b - a) + (c - b)) by lia.
  rewrite py_range_app, map_app, map_map by lia. f_equal.
  apply map_ext. intros. lia.
Qed.

Lemma in_py_range2 a b j : In j (py_range2 a b) <-> a <= j < b.
Proof.
  unfold py_range2. rewrite in_map_iff. split.
  - intros (k & <- & Hk). apply in_py_range in Hk. lia.
  - intros Hj. exists (j - a). split; [lia|]. apply in_py_range. lia.
Qed.

Lemma map_nth_py_range {A} (w : list A) d :
  map (fun j => nth (Z.to_nat j) w d) (py_range (len w)) = w.
Proof.
  unfold py_range, len. rewrite Nat2Z.id, map_map.
  rewrite (map_ext _ (fun i => nth i w d)) by (intros; rewrite Nat2Z.id; auto).
  induction w as [|a w IH]; simpl; auto. f_equal.
  rewrite <- seq_shift, map_map. exact IH.
Qed.

(** ** The raw frames of the live retriever *)

Section RetrievalFacts.
Variable image : Type.
Variable f32 : Type.
Variable shape : image -> Z * Z.
Variable cv2_resize : image -> Z -> Z -> image.
Variable cv2_rescale : image -> pyfloat -> image.
Variable tensor_div : f32 -> pyfloat -> f32.
Variable f32_astype_int : f32 -> Z.
Variable f32_tolist : f32 -> pyfloat.
Variable extract_window_with_context :
image -> Z * Z * Z * Z -> pyfloat -> Z -> Z -> result image.
Variable video_reader : video image.
Variable visual_crop : VisualCrop.
Variable net : Predictor image f32.
Variable batch_size : Z.
Variable downscale_height : Z.
Variable visualize : bool.
Variable reference : image.
Variable search_window : list Z.

Let load := load_frame image shape cv2_resize cv2_rescale video_reader
            visual_crop downscale_height visualize reference search_window.
Let unpack := unpack_frame image f32 tensor_div f32_astype_int f32_tolist
              search_window.
Let turn := process_batch image f32 shape cv2_resize cv2_rescale tensor_div
            f32_astype_int f32_tolist video_reader visual_crop net batch_size
            downscale_height visualize reference search_window.

(** the frames read at the positions [js] of the window *)
Let frame_at (j : Z) : result image :=
video_reader (nth (Z.to_nat j) search_window 0).

Lemma load_imgs js : forall b st b' st',
foldM load js (b, st) = Ok (b', st') ->
Forall (fun j => 0 <= j < len search_window) js ->
if visualize
then exists fr, mapM frame_at js = Ok fr /\ ret_imgs st' = ret_imgs st ++ fr
else ret_imgs st' = ret_imgs st.
Proof.
induction js as [|j js IH]; intros b st b' st' H Hjs; simpl in H.
- inversion H; subst. destruct visualize; auto.
  exists []. rewrite app_nil_r. auto.
- inversion Hjs as [|? ? Hj Hjs']; subst.
  apply bind_ok in H. destruct H as ([b1 st1] & H1 & H2).
  unfold load, load_frame in H1.
  rewrite py_index_nth in H1 by auto. cbn [bind] in H1.
  apply bind_ok in H1. destruct H1 as (orig & Eo & H1).
  apply bind_ok in H1. destruct H1 as (dh & _ & H1).
  apply bind_ok in H1. destruct H1 as (sc & _ & H1).
  inversion H1; subst; clear H1.
  specialize (IH _ _ _ _ H2 Hjs'). simpl in IH.
  destruct visualize; auto.
  destruct IH as (fr & Efr & Ei).
  exists (orig :: fr). split.
  + simpl. unfold frame_at at 1. rewrite Eo. cbn [bind]. rewrite Efr. reflexivity.
  + rewrite Ei, <- app_assoc. reflexivity.
Qed.

Lemma unpack_imgs outs b i js : forall st st',
foldM (unpack outs b i) js st = Ok st' -> ret_imgs st' = ret_imgs st.
Proof.
induction js as [|j js IH]; intros st st' H; simpl in H.
- inversion H; auto.
- apply bind_ok in H. destruct H as (st1 & H1 & H2).
  rewrite (IH _ _ H2).
  unfold unpack, unpack_frame in H1.
  apply bind_ok in H1. destruct H1 as (inst & _ & H1).
  apply bind_ok in H1. destruct H1 as (sc & _ & H1).
  apply bind_ok in H1. destruct H1 as (s & _ & H1).
  inversion H1; subst. reflexivity.
Qed.

Lemma turn_imgs st i st' :
turn st i = Ok st' -> 0 <= i ->
if visualize
then exists fr,
    mapM frame_at (py_range2 i (Z.min (i + batch_size) (len search_window)))
    = Ok fr /\ ret_imgs st' = ret_imgs st ++ fr
else ret_imgs st' = ret_imgs st.
Proof.
intros H Hi. unfold turn, process_batch in H.
apply bind_ok in H. destruct H as ([b1 st1] & H1 & H).
apply bind_ok in H. destruct H as (outs & _ & H).
apply unpack_imgs in H. simpl in H.
apply load_imgs in H1.
- destruct visualize; [|congruence].
  destruct H1 as (fr & E1 & E2). exists fr. split; auto. congruence.
- apply Forall_forall. intros j Hj. apply in_py_range2 in Hj. lia.
Qed.

Lemma turns_imgs c : forall i0 st st',
foldM turn (map (fun k => i0 + k * batch_size) (map Z.of_nat (seq 0 c))) st
= Ok st' ->
0 <= i0 -> 0 < batch_size ->
if visualize
then exists fr,
    mapM frame_at
      (py_range2 i0 (Z.min (i0 + Z.of_nat c * batch_size) (len search_window)))
    = Ok fr /\ ret_imgs st' = ret_imgs st ++ fr
else ret_imgs st' = ret_imgs st.
Proof.
induction c as [|c IH]; intros i0 st st' H Hi Hb.
- simpl in H. inversion H; subst. destruct visualize; auto.
  exists []. rewrite app_nil_r. split; auto.
  rewrite py_range2_nil by lia. reflexivity.
- rewrite <- cons_seq, <- seq_shift in H. simpl in H.
  apply bind_ok in H. destruct H as (st1 & H1 & H2).
  replace (i0 + 0) with i0 in H1 by lia.
  rewrite !map_map in H2.
  rewrite (map_ext _ (fun k => (i0 + batch_size) + Z.of_nat k * batch_size))
    in H2 by (intros; lia).
  rewrite <- (map_map Z.of_nat (fun k => i0 + batch_size + k * batch_size)) in H2.
  apply IH in H2; try lia.
  apply turn_imgs in H1; auto.
  destruct visualize; [|congruence].
  destruct H1 as (fr1 & E1 & I1). destruct H2 as (fr2 & E2 & I2).
  exists (fr1 ++ fr2). split; [|rewrite I2, I1, app_assoc; reflexivity].
  set (L := len search_window) in *.
  assert (HL : 0 <= L) by (unfold L, len; lia).
  replace (i0 + Z.of_nat (S c) * batch_size)
    with (i0 + batch_size + Z.of_nat c * batch_size) by lia.
  destruct (Z_le_gt_dec (i0 + batch_size) L).
  + replace (Z.min (i0 + batch_size) L) with (i0 + batch_size) in E1 by lia.
    rewrite <- (py_range2_app i0 (i0 + batch_size)) by nia.
    apply mapM_app; assumption.
  + replace (Z.min (i0 + batch_size + Z.of_nat c * batch_size) L) with L in * by nia.
    replace (Z.min (i0 + batch_size) L) with L in E1 by lia.
    rewrite (py_range2_nil (i0 + batch_size) L) in E2 by lia.
    simpl in E2. inversion E2; subst. rewrite app_nil_r. auto.
Qed.

Lemma all_turns_imgs starts st' :
py_range3 0 (len search_window) batch_size = Ok starts ->
0 < batch_size ->
foldM turn starts (initial_state image) = Ok st' ->
if visualize then mapM video_reader search_window = Ok (ret_imgs st')
else ret_imgs st' = [].
Proof.
intros Hs Hb H. unfold py_range3 in Hs.
replace (batch_size =? 0) with false in Hs by (symmetry; apply Z.eqb_neq; lia).
replace (0 <? batch_size) with true in Hs by (symmetry; apply Z.ltb_lt; lia).
inversion Hs; subst; clear Hs.
set (L := len search_window) in *.
assert (HL : 0 <= L) by (unfold L, len; lia).
set (c := (L - 0 + batch_size - 1) / batch_size) in *.
assert (Hc : L <= c * batch_size /\ 0 <= c).
{ unfold c. replace (L - 0 + batch_size - 1) with (L + batch_size - 1) by lia.
  pose proof (Z.div_mod (L + batch_size - 1) batch_size ltac:(lia)).
  pose proof (Z.mod_pos_bound (L + batch_size - 1) batch_size Hb).
  split; [nia|]. apply Z.div_pos; lia. }
unfold py_range in H.
apply (turns_imgs (Z.to_nat c) 0) in H; try lia.
destruct visualize; auto.
destruct H as (fr & E & I). simpl in I. subst fr.
rewrite Z2Nat.id in E by lia. fold L in E.
replace (Z.min (0 + c * batch_size) L) with L in E by lia.
rewrite <- E. unfold py_range2. rewrite Z.sub_0_r, mapM_map.
rewrite <- (map_nth_py_range search_window 0) at 1. fold L.
rewrite mapM_map. apply mapM_ext_in. intros j _. unfold frame_at.
reflexivity.
Qed.
End RetrievalFacts.

(** ** The distance of the samples to the exact interpolation *)

Lemma Qrne_mono x y : (x <= y)%Q -> Qrne x <= Qrne y.
Proof.
  intros H. pose proof (Qrne_half x) as [_ Hx].
  destruct (Qlt_le_dec (inject_Z (Qrne x) - (1 # 2)) y) as [Hlt|Hge].
  - apply Qrne_ge_half. exact Hlt.
  - assert (E : (x == y)%Q) by lra. rewrite E. lia.
Qed.

Lemma binade_rounded X g :
  (pow2 (g - 1) <= X < pow2 g)%Q ->
  let v := (inject_Z (Qrne (X / pow2 (g - 53))) * pow2 (g - 53))%Q in
  (pow2 (g - 1) <= v <= pow2 g)%Q.
Proof.
  intros [H1 H2] v. unfold v.
  pose proof (pow2_pos (g - 53)) as Hp.
  assert (E1 : (pow2 (g - 1) == inject_Z (2 ^ 52) * pow2 (g - 53))%Q).
  { replace (g - 1) with (52 + (g - 53)) by lia.
    rewrite pow2_add, pow2_Z by lia. reflexivity. }
  assert (E2 : (pow2 g == inject_Z (2 ^ 53) * pow2 (g - 53))%Q).
  { replace g with (53 + (g - 53)) at 1 by lia.
    rewrite pow2_add, pow2_Z by lia. reflexivity. }
  assert (L : 2 ^ 52 <= Qrne (X / pow2 (g - 53))).
  { apply Qrne_ge_Z. apply Qle_shift_div_l; auto. lra. }
  assert (U : Qrne (X / pow2 (g - 53)) <= 2 ^ 53).
  { apply Qrne_le_Z. apply Qle_shift_div_r; auto. lra. }
  rewrite Zle_Qle in L, U. split.
  - rewrite E1. apply Qmult_le_compat_r; auto. lra.
  - rewrite E2. apply Qmult_le_compat_r; auto. lra.
Qed.

Lemma rounded_ge_pow2 X v K :
  rounded X v -> (pow2 K <= X)%Q -> -1000 <= K -> (pow2 K <= v)%Q.
Proof.
  intros (g & Hg & ->) HK Hb.
  assert (K < g) by (apply pow2_lt_inv; lra).
  rewrite cexp_normal by lia.
  pose proof (binade_rounded X g Hg) as [L _].
  apply Qle_trans with (pow2 (g - 1)); [apply pow2_le; lia|exact L].
Qed.

Lemma rounded_rel_down X v :
  rounded X v -> (pow2 (-1000) <= X)%Q -> (X * (1 - pow2 (-53)) <= v)%Q.
Proof.
  intros (g & [H1 H2] & ->) Hb.
  assert (Hg : -1000 < g).
  { apply pow2_lt_inv. lra. }
  rewrite cexp_normal by lia.
  pose proof (pow2_pos (g - 53)) as Hp.
  pose proof (Qrne_half (X / pow2 (g - 53))) as [Hh _].
  assert (E : (X == X / pow2 (g - 53) * pow2 (g - 53))%Q) by (field; lra).
  assert (E2 : (pow2 (g - 53) == 2 * pow2 (g - 1) * pow2 (-53))%Q).
  { replace (g - 53) with (1 + ((g - 1) + -53)) by lia.
    rewrite !pow2_add. change (pow2 1) with 2%Q. ring. }
  pose proof (pow2_pos (-53)).
  set (y := (X / pow2 (g - 53))%Q) in *. set (m := inject_Z (Qrne y)) in *.
  set (p := pow2 (g - 53)) in *. set (p1 := pow2 (g - 1)) in *.
  set (e := pow2 (-53)) in *.
  assert ((X - (1 # 2) * p <= m * p)%Q) by nra.
  assert ((p1 * e <= X * e)%Q) by nra.
  nra.
Qed.

(** A sample that is not the last one is less than one away from the exact
    interpolation. *)
Lemma interp_error W n s j y :
  2 <= W < 2 ^ 52 -> 2 <= n < 2 ^ 52 ->
  rounded (inject_Z (W - 1) / inject_Z (n - 1)) s ->
  0 <= j <= n - 2 -> rnd_of (inject_Z j * s) y ->
  (exact_sample W n j - 1 < y < exact_sample W n j + 1)%Q.
Proof.
  intros HW Hn Hs Hj Hy. unfold exact_sample.
  set (a := inject_Z (W - 1)) in *. set (b := inject_Z (n - 1)) in *.
  set (u := pow2 (-53)).
  assert (Hu : (u == 1 # 9007199254740992)%Q) by reflexivity.
  assert (Ha : (1 <= a <= inject_Z (2 ^ 52 - 2))%Q).
  { unfold a. change 1%Q with (inject_Z 1). rewrite <- !Zle_Qle. lia. }
  assert (Hb : (1 <= b <= inject_Z (2 ^ 52))%Q).
  { unfold b. change 1%Q with (inject_Z 1). rewrite <- !Zle_Qle. lia. }
  assert (Hjb : (0 <= inject_Z j /\ inject_Z j + 1 <= b)%Q).
  { unfold b. change 0%Q with (inject_Z 0). change 1%Q with (inject_Z 1).
    rewrite <- inject_Z_plus, <- !Zle_Qle. lia. }
  set (R := (a / b)%Q) in *.
  assert (ER : (R * b == a)%Q) by (unfold R; field; lra).
  assert (HR0 : (0 < R)%Q) by (unfold R; apply Qlt_shift_div_l; lra).
  assert (HR52 : (pow2 (-52) <= R)%Q).
  { unfold R. apply Qle_shift_div_l; [lra|].
    assert (E : (pow2 (-52) * inject_Z (2 ^ 52) == 1)%Q) by reflexivity.
    pose proof (pow2_pos (-52)). nra. }
  assert (HRb : (pow2 (-1000) <= R)%Q).
  { apply Qle_trans with (pow2 (-52)); [apply pow2_le; lia|exact HR52]. }
  pose proof (rounded_rel_up _ _ Hs HRb) as Sup.
  pose proof (rounded_rel_down _ _ Hs HRb) as Sdn.
  pose proof (rounded_ge_pow2 _ _ (-52) Hs HR52 ltac:(lia)) as Ss.
  fold u in Sup, Sdn.
  set (jq := inject_Z j) in *.
  assert (EX : (jq * a / b == jq * R)%Q) by (unfold R; field; lra).
  rewrite EX.
  (* the exact sample is below a *)
  assert (HXa : (jq * R <= inject_Z (2 ^ 52 - 2))%Q).
  { apply Qle_trans with a; [|tauto]. rewrite <- ER. nra. }
  assert (HX0 : (0 <= jq * R)%Q) by nra.
  set (A := inject_Z (2 ^ 52 - 2)) in *.
  assert (HU : (A * (2 * u + u * u) < 1)%Q).
  { unfold A. rewrite Hu. reflexivity. }
  assert (Hu0 : (0 < u)%Q) by (rewrite Hu; reflexivity).
  assert (HXU : (jq * R * (2 * u + u * u) < 1)%Q).
  { apply Qle_lt_trans with (A * (2 * u + u * u))%Q; [|exact HU].
    apply Qmult_le_compat_r; [exact HXa|]. nra. }
  destruct Hy as [[Hz Hy0]|Hy].
  { rewrite Hy0. assert (jq * R == 0)%Q.
    { assert (Hs0 : (0 < s)%Q) by (pose proof (pow2_pos (-52)); lra).
      assert (jq == 0)%Q by nra. rewrite H. ring. }
    lra. }
  pose proof (rounded_pos _ _ Hy) as Hjs.
  assert (Hj1 : (1 <= jq)%Q).
  { unfold jq. change 1%Q with (inject_Z 1). rewrite <- Zle_Qle.
    destruct (Z.eq_dec j 0) as [->|]; [|lia].
    unfold jq in Hjs. change (inject_Z 0) with 0%Q in Hjs. lra. }
  assert (Hjsb : (pow2 (-1000) <= jq * s)%Q).
  { apply Qle_trans with (pow2 (-52)); [apply pow2_le; lia|].
    pose proof (pow2_pos (-52)). nra. }
  pose proof (rounded_rel_up _ _ Hy Hjsb) as Yup.
  pose proof (rounded_rel_down _ _ Hy Hjsb) as Ydn.
  fold u in Yup, Ydn.
  assert (Hu1 : (u < 1)%Q) by (rewrite Hu; reflexivity).
  assert (Y1 : (y <= jq * R * (1 + u) * (1 + u))%Q).
  { apply Qle_trans with (jq * s * (1 + u))%Q; [exact Yup|].
    apply Qmult_le_compat_r; [|lra].
    rewrite <- Qmult_assoc. apply Qmult_le_l; [lra|]. exact Sup. }
  assert (Y2 : (jq * R * (1 - u) * (1 - u) <= y)%Q).
  { apply Qle_trans with (jq * s * (1 - u))%Q; [|exact Ydn].
    apply Qmult_le_compat_r; [|lra].
    rewrite <- Qmult_assoc. apply Qmult_le_l; [lra|]. exact Sdn. }
  set (X := (jq * R)%Q) in *.
  assert (E1 : (X * (1 + u) * (1 + u) == X + X * (2 * u + u * u))%Q) by ring.
  assert (E2 : (X * (1 - u) * (1 - u) == X - X * (2 * u + u * u) + 2 * (X * (u * u)))%Q)
    by ring.
  assert (0 <= X * (u * u))%Q by nra.
  lra.
Qed.

(** ** binary32: the library's rounding computes the nearest number *)

Lemma cexp32_ge_emin g : -149 <= cexp32 g.
Proof. unfold cexp32, fexp, emin. lia. Qed.

Lemma cexp32_ge g : g - 24 <= cexp32 g.
Proof. unfold cexp32, fexp, emin. lia. Qed.

Lemma cexp32_small g : g <= 100 -> cexp32 g <= 76.
Proof. unfold cexp32, fexp, emin. lia. Qed.

Lemma cexp32_normal g : -125 <= g -> cexp32 g = g - 24.
Proof. unfold cexp32, fexp, emin. lia. Qed.

Lemma bra_spec32 sx mx ex lx X :
  0 < mx -> located X mx lx ->
  let g := Zdigits2 mx + ex in
  let c := cexp32 g in
  (lx = loc_Exact \/ ex <= c) -> ex <= 104 -> g <= 100 ->
  is_val sx (binary_round_aux 24 128 sx mx ex lx)
         (inject_Z (Qrne (X * pow2 (ex - c))) * pow2 c) (Z.max ex (c + 1)).
Proof.
  intros Hm HX g c Hl Hex Hg.
  pose proof (located_bounds _ _ _ HX) as [HX1 HX2].
  pose proof (Zdigits2_spec mx Hm) as [Hd1 Hd2].
  pose proof (cexp32_ge_emin g) as Hc1. pose proof (cexp32_ge g) as Hc2.
  pose proof (cexp32_small g Hg) as Hc3. fold c in Hc1, Hc2, Hc3.
  unfold binary_round_aux, shr_fexp.
  change (fexp 24 128 (Zdigits2 mx + ex)) with c.
  destruct (bra_stage1 mx ex lx X c Hm HX Hl) as (mrs & e1 & -> & Hs).
  cbv zeta in Hs.
  set (m1 := round_nearest_even (shr_m mrs) (loc_of_shr_record mrs)) in *.
  destruct Hs as [(-> & Hec & Em1)|(-> & Hec & Em1 & EX)].
  - (* rounded at exponent c *)
    set (y := (X * pow2 (ex - c))%Q) in *.
    assert (Hy0 : (0 <= y)%Q).
    { unfold y. pose proof (pow2_pos (ex - c)).
      assert (0 < inject_Z mx)%Q by (change 0%Q with (inject_Z 0); rewrite <- Zlt_Qlt; lia). nra. }
    assert (Hy : (y < inject_Z (2 ^ 24))%Q).
    { rewrite <- pow2_Z by lia. unfold y.
      apply Qlt_le_trans with (pow2 (Zdigits2 mx) * pow2 (ex - c))%Q.
      - apply Qmult_lt_compat_r; [apply pow2_pos|].
        rewrite pow2_Z by apply Zdigits2_nonneg.
        assert (inject_Z (mx + 1) <= inject_Z (2 ^ Zdigits2 mx))%Q
          by (rewrite <- Zle_Qle; lia).
        zq_in H. lra.
      - rewrite <- pow2_add. apply pow2_le. unfold g in Hc2. lia. }
    assert (Hm1 : 0 <= m1 <= 2 ^ 24).
    { rewrite Em1. split; [apply Qrne_ge_Z; auto|apply Qrne_le_Z; lra]. }
    unfold shr_record_of_loc.
    destruct (Z.eq_dec m1 (2 ^ 24)) as [E24|N24].
    + rewrite E24.
      replace (fexp 24 128 (Zdigits2 (2 ^ 24) + c) - c) with 1.
      2:{ change (Zdigits2 (2 ^ 24)) with 25.
          unfold fexp, emin. lia. }
      rewrite shr_pos. simpl shr_m.
      replace (c + 1 <=? 128 - 24) with true.
      2:{ symmetry. apply Z.leb_le. lia. }
      right. eexists _, _. split; [reflexivity|]. split; [|lia].
      rewrite <- Em1, E24. rewrite pow2_add.
      change (pow2 1) with 2%Q.
      change (inject_Z (2 ^ 24)) with (2 * inject_Z (Zpos 8388608))%Q.
      ring.
    + rewrite shr_nonpos.
      2:{ assert (Zdigits2 m1 <= 24) by (apply Zdigits2_le; lia).
          unfold fexp, emin. lia. }
      simpl shr_m. rewrite <- Em1.
      destruct m1 as [|p|p]; try lia.
      * left. split; auto. ring.
      * replace (c <=? 128 - 24) with true.
        2:{ symmetry. apply Z.leb_le. lia. }
        right. eexists _, _. split; [reflexivity|]. split; [reflexivity|lia].
  - (* exact, and no shift *)
    rewrite Em1. change (fexp 24 128 (Zdigits2 mx + ex)) with c.
    rewrite shr_nonpos by lia. simpl shr_m.
    destruct mx as [|p|p]; try lia.
    replace (ex <=? 128 - 24) with true.
    2:{ symmetry. apply Z.leb_le. lia. }
    right. eexists _, _. split; [reflexivity|]. split; [|lia].
    assert (Ey : (X * pow2 (ex - c) == inject_Z (Zpos p * 2 ^ (ex - c)))%Q).
    { rewrite EX, inject_Z_mult, pow2_Z by lia. reflexivity. }
    rewrite Ey, Qrne_Z, inject_Z_mult, <- pow2_Z by lia.
    rewrite <- Qmult_assoc, <- pow2_add. replace (ex - c + c) with ex by lia.
    reflexivity.
Qed.

Lemma bra_rounded32 mx ex lx X :
  0 < mx -> located X mx lx ->
  (lx = loc_Exact \/ ex <= cexp32 (Zdigits2 mx + ex)) ->
  ex <= 104 -> Zdigits2 mx + ex <= 100 ->
  let f := binary_round_aux 24 128 false mx ex lx in
  is_nonneg f = true /\ rounded32 (X * pow2 ex) (F2Q f).
Proof.
  intros Hm HX Hl Hex Hg f.
  pose proof (bra_spec32 false mx ex lx X Hm HX Hl Hex Hg) as H.
  apply is_val_F2Q in H. destruct H as (H1 & H2 & H3). fold f in H1, H2, H3.
  split; auto.
  exists (Zdigits2 mx + ex).
  pose proof (located_bounds _ _ _ HX) as [HX1 HX2].
  pose proof (Zdigits2_spec mx Hm) as [Hd1 Hd2].
  pose proof (Zdigits2_nonneg mx) as Hd0.
  assert (Hd : 1 <= Zdigits2 mx) by (destruct mx; simpl; lia).
  pose proof (pow2_pos ex).
  repeat split.
  - replace (Zdigits2 mx + ex - 1) with ((Zdigits2 mx - 1) + ex) by lia.
    rewrite pow2_add. apply Qmult_le_compat_r; [|lra].
    rewrite pow2_Z by lia. rewrite Zle_Qle in Hd1. lra.
  - rewrite pow2_add. apply Qmult_lt_compat_r; auto.
    rewrite pow2_Z by lia.
    assert (inject_Z (mx + 1) <= inject_Z (2 ^ Zdigits2 mx))%Q
      by (rewrite <- Zle_Qle; lia).
    zq_in H0. lra.
  - rewrite H3. apply Qmult_comp; [|reflexivity].
    apply inject_Z_injective. apply Qrne_comp.
    rewrite Qdiv_pow2, <- Qmult_assoc, <- pow2_add.
    replace (ex + - cexp32 (Zdigits2 mx + ex)) with (ex - cexp32 (Zdigits2 mx + ex)) by lia.
    reflexivity.
Qed.

#[local] Instance rounded32_comp : Proper (Qeq ==> Qeq ==> iff) rounded32.
Proof.
  intros X X' EX v v' Ev. unfold rounded32.
  split; intros (g & Hg & Hv); exists g.
  - rewrite <- EX, <- Ev. auto.
  - rewrite EX, Ev. auto.
Qed.

(** The relative error of a binary32 rounding. *)
Lemma rounded32_rel X v :
  rounded32 X v -> (pow2 (-100) <= X)%Q ->
  (X * (1 - pow2 (-24)) <= v <= X * (1 + pow2 (-24)))%Q.
Proof.
  intros (g & [H1 H2] & ->) Hb.
  assert (Hg : -100 < g).
  { apply pow2_lt_inv. lra. }
  rewrite cexp32_normal by lia.
  pose proof (pow2_pos (g - 24)) as Hp.
  pose proof (Qrne_half (X / pow2 (g - 24))) as [Hl Hh].
  assert (E : (X == X / pow2 (g - 24) * pow2 (g - 24))%Q) by (field; lra).
  assert (E2 : (pow2 (g - 24) == 2 * pow2 (g - 1) * pow2 (-24))%Q).
  { replace (g - 24) with (1 + ((g - 1) + -24)) by lia.
    rewrite !pow2_add. change (pow2 1) with 2%Q. ring. }
  pose proof (pow2_pos (-24)).
  set (y := (X / pow2 (g - 24))%Q) in *. set (m := inject_Z (Qrne y)) in *.
  set (p := pow2 (g - 24)) in *. set (p1 := pow2 (g - 1)) in *.
  set (e := pow2 (-24)) in *.
  assert ((m * p <= X + (1 # 2) * p)%Q) by nra.
  assert ((X - (1 # 2) * p <= m * p)%Q) by nra.
  assert ((p1 * e <= X * e)%Q) by nra.
  split; nra.
Qed.

Lemma rounded32_pos_value X v :
  rounded32 X v -> (pow2 (-100) <= X)%Q -> (0 < v)%Q.
Proof.
  intros H Hb. pose proof (rounded32_rel X v H Hb) as [L _].
  pose proof (pow2_pos (-100)).
  assert (E : (pow2 (-24) == 1 # 16777216)%Q) by reflexivity.
  rewrite E in L. nra.
Qed.

Lemma fdiv32_rounded x y :
  is_pos x = true -> is_pos y = true ->
  (pow2 (-99) <= F2Q x / F2Q y < pow2 100)%Q ->
  is_nonneg (SFdiv 24 128 x y) = true /\
  rounded32 (F2Q x / F2Q y) (F2Q (SFdiv 24 128 x y)).
Proof.
  destruct x as [| | |[|] mx ex]; try discriminate.
  destruct y as [| | |[|] my ey]; try discriminate.
  intros _ _ [Hv1 Hv2].
  pose proof (F2Q_mag mx ex) as [Hx1 Hx2].
  pose proof (F2Q_mag my ey) as [Hy1 Hy2]. cbv zeta in *.
  pose proof (F2Q_pos (S754_finite false mx ex) eq_refl) as Hxp.
  pose proof (F2Q_pos (S754_finite false my ey) eq_refl) as Hyp.
  set (Fx := F2Q (S754_finite false mx ex)) in *.
  set (Fy := F2Q (S754_finite false my ey)) in *.
  set (d1 := Zdigits2 (Zpos mx)) in *. set (d2 := Zdigits2 (Zpos my)) in *.
  set (Dg := d1 + ex - (d2 + ey)).
  assert (HD1 : (pow2 (Dg - 1) < Fx / Fy)%Q).
  { replace (Dg - 1) with ((d1 + ex - 1) - (d2 + ey)) by (unfold Dg; lia).
    rewrite pow2_sub. apply Qdiv_le_bounds; auto. apply pow2_pos. }
  assert (HD2 : (Fx / Fy < pow2 (Dg + 1))%Q).
  { replace (Dg + 1) with ((d1 + ex) - (d2 + ey - 1)) by (unfold Dg; lia).
    rewrite pow2_sub. apply Qdiv_lt_bounds; auto. apply pow2_pos. }
  assert (HDlo : -99 <= Dg).
  { assert (-99 < Dg + 1); [|lia]. apply pow2_lt_inv. lra. }
  assert (HDhi : Dg <= 100).
  { assert (Dg - 1 < 100); [|lia]. apply pow2_lt_inv. lra. }
  unfold SFdiv, SFdiv_core_binary. fold d1 d2.
  replace (d1 + ex - (d2 + ey)) with Dg by reflexivity.
  set (e' := Z.min (fexp 24 128 Dg) (ex - ey)).
  assert (He' : e' <= Dg - 24 /\ e' <= ex - ey).
  { unfold e', fexp, emin. lia. }
  set (s := ex - ey - e').
  assert (Hs : 0 <= s) by (unfold s; lia).
  set (m' := match s with Z.pos _ => Z.shiftl (Zpos mx) s | 0 => Zpos mx | Z.neg _ => 0 end).
  assert (Em' : m' = Zpos mx * 2 ^ s).
  { unfold m'. apply shift_match; auto. }
  clearbody m'.
  pose proof (Z_div_mod m' (Zpos my) ltac:(lia)) as Hdiv.
  destruct (Z.div_eucl m' (Zpos my)) as [q r]. destruct Hdiv as [Eq Hr].
  cbv beta iota.
  pose proof (Zdigits2_spec (Zpos mx) ltac:(lia)) as [Hmx1 Hmx2].
  pose proof (Zdigits2_spec (Zpos my) ltac:(lia)) as [Hmy1 Hmy2].
  fold d1 in Hmx1, Hmx2. fold d2 in Hmy1, Hmy2.
  assert (Hd1 : 1 <= d1) by (unfold d1; simpl; lia).
  assert (Hd2 : 1 <= d2) by (unfold d2; simpl; lia).
  assert (Hq : 2 ^ 23 <= q).
  { assert (2 ^ 23 * Zpos my < m').
    { rewrite Em'.
      assert (2 ^ 23 * 2 ^ d2 <= 2 ^ (d1 - 1) * 2 ^ s).
      { rewrite <- !Z.pow_add_r by lia. apply Z.pow_le_mono_r; unfold s, Dg in *; lia. }
      assert (0 < 2 ^ s) by (apply Z.pow_pos_nonneg; lia).
      nia. }
    nia. }
  pose proof (Zdigits2_spec q ltac:(lia)) as [Hq1 Hq2].
  assert (Hdq : 24 <= Zdigits2 q).
  { destruct (Z_le_gt_dec 24 (Zdigits2 q)); auto.
    assert (2 ^ Zdigits2 q <= 2 ^ 23)
      by (apply Z.pow_le_mono_r; lia). lia. }
  set (X := (inject_Z m' / inject_Z (Zpos my))%Q).
  assert (EX : (X * pow2 e' == Fx / Fy)%Q).
  { unfold X, Fx, Fy. simpl F2Q. rewrite Em', inject_Z_mult, <- pow2_Z by lia.
    assert (Eex : (pow2 ex == pow2 s * (pow2 e' * pow2 ey))%Q).
    { rewrite <- !pow2_add. replace (s + (e' + ey)) with ex by (unfold s; lia).
      reflexivity. }
    rewrite Eex.
    pose proof (pow2_pos ey). pose proof (pow2_pos e'). pose proof (pow2_pos s).
    pose proof (inject_Z_pos (Zpos my) ltac:(lia)).
    field. split; lra. }
  assert (HL : located X q (new_location (Zpos my) r)).
  { unfold X. rewrite Eq. replace (Zpos my * q + r) with (q * Zpos my + r) by ring.
    apply new_location_located; lia. }
  assert (Hg : Zdigits2 q + e' <= 100).
  { apply (mag_le (Fx / Fy)); [|lra].
    rewrite <- EX.
    replace (Zdigits2 q + e' - 1) with ((Zdigits2 q - 1) + e') by lia.
    rewrite pow2_add. apply Qmult_le_compat_r; [|apply Qlt_le_weak, pow2_pos].
    rewrite pow2_Z by lia. pose proof (located_bounds _ _ _ HL) as [Hl1 _].
    rewrite Zle_Qle in Hq1. apply Qle_trans with (inject_Z q); auto. }
  pose proof (cexp32_ge (Zdigits2 q + e')).
  destruct (bra_rounded32 q e' (new_location (Zpos my) r) X) as (H1 & H3);
    auto; try lia.
  split; auto. rewrite <- EX. auto.
Qed.

(** A double taken to float32 is the nearest binary32 number. *)
Lemma to_f32_rounded x :
  is_pos x = true -> (pow2 (-100) <= F2Q x < pow2 100)%Q ->
  is_pos (to_f32 x) = true /\ rounded32 (F2Q x) (F2Q (to_f32 x)).
Proof.
  destruct x as [| | |[|] m e]; try discriminate. intros _ [Hlo Hhi].
  pose proof (F2Q_mag m e) as [Hm1 Hm2]. cbv zeta in Hm1, Hm2.
  unfold to_f32. cbn [cond_Zopp]. unfold binary_normalize, binary_round.
  set (d := Zpos (digits2_pos m)).
  change (Zdigits2 (Zpos m)) with d in Hm1, Hm2.
  assert (Hd : 1 <= d) by (unfold d; lia).
  assert (Hg : d + e <= 100).
  { apply (mag_le (F2Q (S754_finite false m e))); auto. }
  set (c := fexp 24 128 (d + e)).
  assert (exists mz ez, shl_align m e c = (mz, ez) /\ ez <= e /\
            (inject_Z (Zpos mz) * pow2 ez == F2Q (S754_finite false m e))%Q)
    as (mz & ez & -> & Hez & EV).
  { unfold shl_align. destruct (c - e) as [|k|k] eqn:Ek.
    - exists m, e. split; [reflexivity|]. split; [lia|reflexivity].
    - exists m, e. split; [reflexivity|]. split; [lia|reflexivity].
    - eexists _, _. split; [reflexivity|]. split; [lia|].
      rewrite iter_xO, inject_Z_mult, <- pow2_Z by lia.
      rewrite <- Qmult_assoc, <- pow2_add.
      replace (Zpos k + c) with e by lia. reflexivity. }
  assert (He : e < 100).
  { apply pow2_lt_inv. pose proof (pow2_pos e). simpl F2Q in Hhi.
    assert (1 <= inject_Z (Zpos m))%Q.
    { change 1%Q with (inject_Z 1). rewrite <- Zle_Qle. lia. }
    simpl cond_Zopp in Hhi. nra. }
  pose proof (F2Q_mag mz ez) as [Hz1 Hz2]. cbv zeta in Hz1, Hz2.
  assert (EF : (F2Q (S754_finite false mz ez) == F2Q (S754_finite false m e))%Q).
  { simpl F2Q. simpl cond_Zopp. exact EV. }
  assert (Hgz : Zdigits2 (Zpos mz) + ez <= 100).
  { apply (mag_le (F2Q (S754_finite false mz ez))); auto. rewrite EF. auto. }
  destruct (bra_rounded32 (Zpos mz) ez loc_Exact (inject_Z (Zpos mz)))
    as (H1 & H3); try lia.
  { simpl. reflexivity. }
  { left. reflexivity. }
  rewrite EV in H3.
  split; [|exact H3].
  apply nonneg_pos; auto.
  apply (rounded32_pos_value _ _ H3). exact Hlo.
Qed.

(** ** The round trip of a box coordinate *)

Lemma scale_facts dh H d sc :
  0 < dh < 2 ^ 31 -> 0 < H < 2 ^ 31 ->
  float_of_int dh = Ok d -> py_truediv d H = Ok sc ->
  is_pos sc = true /\ (pow2 (-31) <= F2Q sc <= pow2 31)%Q.
Proof.
  intros Hdh HH Ed Esc.
  rewrite float_of_int_ok in Ed by lia. inversion Ed; subst d. clear Ed.
  unfold py_truediv in Esc.
  replace (H =? 0) with false in Esc by (symmetry; apply Z.eqb_neq; lia).
  rewrite float_of_int_ok in Esc by lia. cbn [bind] in Esc.
  inversion Esc; subst sc. clear Esc.
  destruct (of_int_spec dh ltac:(lia)) as (P1 & _ & P3).
  destruct (of_int_spec H ltac:(lia)) as (Q1 & _ & Q3).
  assert (A : (1 <= inject_Z dh /\ inject_Z dh + 1 <= pow2 31)%Q).
  { rewrite pow2_Z by lia. change 1%Q with (inject_Z 1).
    rewrite <- inject_Z_plus, <- !Zle_Qle. lia. }
  assert (B : (1 <= inject_Z H /\ inject_Z H + 1 <= pow2 31)%Q).
  { rewrite pow2_Z by lia. change 1%Q with (inject_Z 1).
    rewrite <- inject_Z_plus, <- !Zle_Qle. lia. }
  assert (E31 : (pow2 (-31) * pow2 31 == 1)%Q) by reflexivity.
  pose proof (pow2_pos (-31)) as Hp.
  assert (Rlo : (pow2 (-31) <= inject_Z dh / inject_Z H)%Q).
  { apply Qle_shift_div_l; [lra|]. nra. }
  assert (Rhi : (inject_Z dh / inject_Z H <= inject_Z (2 ^ 31))%Q).
  { apply Qle_shift_div_r; [lra|]. rewrite <- pow2_Z by lia. nra. }
  destruct (fdiv_rounded (of_int dh) (of_int H) P1 Q1) as (N & _ & R).
  { rewrite P3, Q3. split.
    - apply Qle_trans with (pow2 (-31)); [apply pow2_le; lia|exact Rlo].
    - apply Qle_lt_trans with (inject_Z (2 ^ 31)); [exact Rhi|].
      rewrite <- pow2_Z by lia. apply pow2_lt. lia. }
  rewrite P3, Q3 in R.
  pose proof (rounded_ge_pow2 _ _ (-31) R Rlo ltac:(lia)) as L.
  pose proof (rounded_le_int _ _ (2 ^ 31) R Rhi ltac:(lia)) as U.
  rewrite <- pow2_Z in U by lia.
  split; [|split; auto].
  apply nonneg_pos; auto. lra.
Qed.

Lemma round_trip dh H X c d sc :
  0 < dh < 2 ^ 31 -> 0 < H < 2 ^ 31 -> 0 <= X < 2 ^ 22 ->
  float_of_int dh = Ok d -> py_truediv d H = Ok sc ->
  near32 (inject_Z X * F2Q sc) c ->
  X - 1 <= astype_int (f32_div c sc) <= X.
Proof.
  intros Hdh HH HX Ed Esc [Nc [Clo Chi]].
  destruct (scale_facts dh H d sc Hdh HH Ed Esc) as (Ps & Slo & Shi).
  set (s := F2Q sc) in *.
  assert (E31 : (pow2 (-31) == 1 # 2147483648)%Q) by reflexivity.
  assert (E31' : (pow2 31 == 2147483648 # 1)%Q) by reflexivity.
  assert (Eu : (pow2 (-24) == 1 # 16777216)%Q) by reflexivity.
  assert (Hs0 : (0 < s)%Q) by lra.
  destruct (to_f32_rounded sc Ps) as (Pr & Rr).
  { fold s. split.
    - apply Qle_trans with (pow2 (-31)); [apply pow2_le; lia|exact Slo].
    - apply Qle_lt_trans with (pow2 31); [exact Shi|apply pow2_lt; lia]. }
  fold s in Rr.
  assert (Hs100 : (pow2 (-100) <= s)%Q).
  { apply Qle_trans with (pow2 (-31)); [apply pow2_le; lia|exact Slo]. }
  pose proof (rounded32_rel _ _ Rr Hs100) as [Rlo Rhi].
  set (r := F2Q (to_f32 sc)) in *.
  set (u := pow2 (-24)) in *.
  assert (HXq : (0 <= inject_Z X <= 4194303)%Q).
  { change 0%Q with (inject_Z 0). change (4194303%Q) with (inject_Z 4194303).
    rewrite <- !Zle_Qle. lia. }
  set (x := inject_Z X) in *.
  destruct (Z.eq_dec X 0) as [->|HX0].
  { (* the origin *)
    change (inject_Z 0) with 0%Q in x. unfold x in *.
    assert (F0 : (F2Q c == 0)%Q) by lra.
    destruct c as [sz| | |[|] m e]; try discriminate.
    - unfold f32_div. destruct (to_f32 sc) as [| | |[|] mr er]; try discriminate.
      simpl. lia.
    - exfalso. pose proof (F2Q_pos (S754_finite false m e) eq_refl). lra. }
  assert (Hx1 : (1 <= x)%Q).
  { unfold x. change 1%Q with (inject_Z 1). rewrite <- Zle_Qle. lia. }
  assert (Hr0 : (0 < r)%Q) by (rewrite Eu in Rlo; nra).
  assert (Hc0 : (0 < F2Q c)%Q) by (rewrite Eu in Clo; nra).
  pose proof (nonneg_pos c Nc Hc0) as Pc.
  set (a := F2Q c) in *.
  set (t := (a / r)%Q).
  assert (Et : (t * r == a)%Q) by (unfold t; field; lra).
  assert (Ht0 : (0 < t)%Q) by (unfold t; apply Qlt_shift_div_l; lra).
  (* the exact quotient is near X *)
  assert (T1 : (t * (1 - u) <= x * (1 + u))%Q).
  { assert (s * (t * (1 - u)) <= s * (x * (1 + u)))%Q; [|nra].
    rewrite Eu in *. nra. }
  assert (T2 : (x * (1 - u) <= t * (1 + u))%Q).
  { assert (s * (x * (1 - u)) <= s * (t * (1 + u)))%Q; [|nra].
    rewrite Eu in *. nra. }
  assert (Tr : (pow2 (-99) <= t < pow2 100)%Q).
  { assert (E99 : (pow2 (-99) <= 1 # 2)%Q) by (apply (pow2_le (-99) (-1)); lia).
    assert (E100 : (inject_Z (2 ^ 23) <= pow2 100)%Q).
    { rewrite <- pow2_Z by lia. apply pow2_le. lia. }
    change (inject_Z (2 ^ 23)) with (8388608%Q) in E100.
    rewrite Eu in T1, T2. split; [|apply Qlt_le_trans with 8388608%Q; auto]; lra. }
  destruct (fdiv32_rounded c (to_f32 sc) Pc Pr Tr) as (Nq & Rq).
  fold a r t in Rq.
  assert (Ht100 : (pow2 (-100) <= t)%Q).
  { apply Qle_trans with (pow2 (-99)); [apply pow2_le; lia|tauto]. }
  pose proof (rounded32_rel _ _ Rq Ht100) as [Qlo Qhi].
  fold u in Qlo, Qhi.
  change (SFdiv 24 128 c (to_f32 sc)) with (f32_div c sc) in *.
  set (q := F2Q (f32_div c sc)) in *.
  assert (B1 : (x - 1 <= q)%Q).
  { rewrite Eu in *. 
    assert (q * (1 + (1 # 16777216)) >= x * (1 - (1 # 16777216)) * (1 - (1 # 16777216)))%Q
      by nra.
    lra. }
  assert (B2 : (q < x + 1)%Q).
  { rewrite Eu in *.
    assert (q * (1 - (1 # 16777216)) <= x * (1 + (1 # 16777216)) * (1 + (1 # 16777216)))%Q
      by nra.
    lra. }
  rewrite astype_int_floor; auto.
  2:{ fold q. apply Qlt_trans with (x + 1)%Q; auto.
      change (inject_Z (2 ^ 63)) with (9223372036854775808%Q). lra. }
  fold q. split.
  - apply Qfloor_lt_int. unfold x in B1. zq. exact B1.
  - pose proof (Qfloor_bounds q) as [F1 _].
    assert (Qfloor q < X + 1); [|lia].
    rewrite Zlt_Qlt. zq. fold x. lra.
Qed.

(** * The claims *)

(** ** Helper facts *)

Lemma len_slice_from (w : list Z) s : len (slice_from w s) <= len w.
Proof.
  unfold slice_from, len. rewrite length_skipn. lia.
Qed.

Lemma recency_step_len w0 rf w :
  recency_step w0 rf = Ok w -> 0 < len w0 -> 0 < len w <= len w0.
Proof.
  unfold recency_step. intros H Hw0.
  apply bind_ok in H. destruct H as (k & _ & H).
  destruct (Z.ltb_spec 0 (len (slice_from w0 (- k)))) as [Hs|Hs];
    inversion H; subst; [|lia].
  pose proof (len_slice_from w0 (- k)). lia.
Qed.

Lemma zero_factor_steps (w : list Z) (z : pyfloat) :
  0 < len w < max_len -> eq_zero z = true ->
  recency_step w z = Ok w /\ subsample_step w z = Ok w.
Proof.
  unfold max_len. intros Hw Hz. destruct z as [s| | |]; try discriminate.
  assert (float_of_int (len w) = Ok (of_int (len w))) as E
    by (apply float_of_int_ok; lia).
  destruct (of_int_spec (len w) ltac:(lia)) as (P & _).
  split.
  - unfold recency_step, recency_count. rewrite E. cbn [bind].
    pose proof (fmul_zero_r _ s P) as Z1.
    destruct (fmul (of_int (len w)) (S754_zero s)); try discriminate.
    simpl. rewrite slice_from_0. destruct (0 <? _); reflexivity.
  - unfold subsample_step, sample_count. rewrite E. cbn [bind].
    pose proof (fmul_zero_l s _ P) as Z1.
    destruct (fmul (S754_zero s) (of_int (len w))); try discriminate.
    reflexivity.
Qed.

(** ** Sanity of the arithmetic: the library's operations agree with the
    machine's doubles on the values the examples below go through. *)

Example of_int_is_python_float : of_int 10 = lit 10 /\ of_int 9 = lit 9.
Proof. split; vm_compute; reflexivity. Qed.

Example fmul_is_machine_multiplication :
  fmul f_half (of_int 10) = lit (0.5 * 10) /\
  fmul (of_int 3) (lit 2.25) = lit (3 * 2.25).
Proof. split; vm_compute; reflexivity. Qed.

Example fdiv_is_machine_division :
  fdiv (of_int 9) (of_int 4) = lit (9 / 4) /\
  fdiv (of_int 1) (of_int 3) = lit (1 / 3).
Proof. split; vm_compute; reflexivity. Qed.

Example linspace_0_9_5 :
  linspace 0 9 5 = Ok [lit 0; lit 2.25; lit 4.5; lit 6.75; lit 9].
Proof. vm_compute. reflexivity. Qed.

(** ** C1 *)

(** C1, as stated, fails: for [subsampling_factor = 0.5] and the window
    [[0, ..., 9]] the count is [5] and the step selects the indices
    [[0; 2; 4; 6; 9]], the interpolated positions [0, 2.25, 4.5, 6.75, 9]
    truncated, while the nearest integers are [[0; 2; 4; 7; 9]].  And the
    positions are computed in doubles: for [subsampling_factor = 0.75] and
    the window [[0, ..., 30]] the count is [23] and position [11] is
    [11 * 30 / 22 = 15] exactly, but the double [11 * (30 / 22)] is just
    below [15] and the step selects index [14]. *)
Lemma subsample_not_nearest :
  in_unit_pos f_half /\
  sample_count 10 f_half = Ok 5 /\
  subsample_step (py_range 10) f_half = Ok [0; 2; 4; 6; 9] /\
  subsample_step (py_range 10) f_half <> Ok (nearest_subsample (py_range 10) 5) /\
  in_unit_pos (lit 0.75) /\
  sample_count 31 (lit 0.75) = Ok 23 /\
  (exact_sample 31 23 11 == 15)%Q /\
  nearest_index 31 23 11 = 15 /\
  exists l, subsample_step (py_range 31) (lit 0.75) = Ok l /\ nth 11 l 0 = 14.
Proof.
  split; [split; [reflexivity|vm_compute; discriminate]|].
  split; [vm_compute; reflexivity|].
  split; [vm_compute; reflexivity|].
  split; [vm_compute; discriminate|].
  split; [split; [reflexivity|vm_compute; discriminate]|].
  split; [vm_compute; reflexivity|].
  split; [reflexivity|].
  split; [vm_compute; reflexivity|].
  eexists. split; [vm_compute; reflexivity|]. reflexivity.
Qed.

(** C1 (amended): for every window of size [W] with [0 < W] and every
    [subsampling_factor] in [(0, 1]], the count [n] of the subsampling step is
    [int(subsampling_factor * W)], the integer part of the rounded product,
    and [0 <= n <= W]; when [n = 0] the step keeps the window whole; when
    [1 <= n] it selects exactly [n] elements, element [j] being the window's
    element at the integer part (truncation, not rounding to nearest) of
    sample [j] of [linspace] over [[0, W - 1]].  The samples are doubles:
    a single sample is [0], the last of several is [W - 1], and any other
    is the double nearest to [j * s] for [s] the double nearest to
    [(W - 1) / (n - 1)]; each is less than one away from the exact
    interpolation [j * (W - 1) / (n - 1)] (which is [0] for the single
    sample of [n = 1]). *)
Theorem subsample_truncates (w : list Z) (sf : pyfloat) :
  0 < len w < max_len -> in_unit_pos sf ->
  exists v n,
    rnd_of (inject_Z (len w) * F2Q sf) v /\ n = Qfloor v /\
    sample_count (len w) sf = Ok n /\ 0 <= n <= len w /\
    (n = 0 -> subsample_step w sf = Ok w) /\
    (1 <= n ->
     exists l, subsample_step w sf = Ok l /\ len l = n /\
       forall j, 0 <= j < n ->
         exists y, interp_sample (len w) n j y /\
                   (exact_sample (len w) n j - 1 < y
                    < exact_sample (len w) n j + 1)%Q /\
                   nth (Z.to_nat j) l 0 = nth (Z.to_nat (Qfloor y)) w 0).
Proof.
  unfold max_len. intros HW Hsf. apply in_unit_pos_unit in Hsf.
  set (W := len w) in *.
  destruct (sample_count_unit W sf ltac:(lia) Hsf) as (v & Hv & E & Hn).
  exists v, (Qfloor v). set (n := Qfloor v) in *.
  repeat split; auto; try tauto.
  - intros E0. rewrite subsample_step_pick. fold W. rewrite E, E0. reflexivity.
  - intros Hn1. rewrite subsample_step_pick. fold W. rewrite E. cbn [bind].
    destruct (Z.eq_dec n 1) as [En|Hn2].
    + rewrite En, pick_1 by (fold W; lia).
      eexists. split; [reflexivity|]. split; [reflexivity|].
      intros j Hj. replace j with 0 by lia. exists 0%Q.
      split; [reflexivity|]. split; [|reflexivity].
      unfold exact_sample. change (inject_Z 0) with 0%Q.
      assert (E0 : (0 * inject_Z (W - 1) / inject_Z (1 - 1) == 0)%Q)
        by (unfold Qdiv; ring).
      rewrite E0. split; reflexivity.
    + assert (HW2 : 2 <= W < 2 ^ 52) by lia.
      assert (Hn2' : 2 <= n < 2 ^ 52) by lia.
      rewrite pick_general by (fold W; lia). fold W.
      pose proof (lin_indices_in_range W n HW2 Hn2') as Hin.
      eexists. split; [reflexivity|]. split.
      { unfold len. rewrite !length_map, length_app, length_map, length_py_range.
        simpl. lia. }
      intros j Hj.
      set (idxs := map (lin_idx W n) (py_range (n - 1)) ++ [W - 1]) in *.
      assert (Hlen : length idxs = Z.to_nat n).
      { unfold idxs. rewrite length_app, length_map, length_py_range. simpl. lia. }
      rewrite (nth_indep _ 0 (nth (Z.to_nat 0) w 0)) by (rewrite length_map; lia).
      rewrite (map_nth (fun i => nth (Z.to_nat i) w 0) idxs 0).
      unfold idxs. rewrite nth_lin_indices by lia.
      unfold interp_sample.
      replace (n =? 1) with false by (symmetry; apply Z.eqb_neq; lia).
      destruct (Z.eqb_spec j (n - 1)) as [Ej|Nj].
      * exists (inject_Z (W - 1)). split; [reflexivity|].
        split; [|rewrite Qfloor_Z; reflexivity].
        assert (EX : (exact_sample W n j == inject_Z (W - 1))%Q).
        { unfold exact_sample. rewrite Ej.
          assert (0 < inject_Z (n - 1))%Q by (apply inject_Z_pos; lia).
          field. lra. }
        rewrite EX. lra.
      * destruct (lin_idx_floor W n HW2 Hn2' j ltac:(lia)) as (-> & _).
        destruct (step_spec W n HW2 Hn2') as (_ & _ & S3).
        destruct (sample_spec W n j HW2 Hn2' ltac:(lia)) as (_ & R).
        exists (F2Q (sample W n j)). split; [|split; [|reflexivity]].
        -- exists (F2Q (step W n)). split; auto.
        -- apply (interp_error W n (F2Q (step W n)) j); auto; lia.
Qed.

Lemma subsample_truncates_witness :
  exists l, subsample_step (py_range 10) f_half = Ok l /\ len l = 5.
Proof.
  assert (H1 : 0 < len (py_range 10) < max_len) by (vm_compute; split; reflexivity).
  assert (H2 : in_unit_pos f_half) by (split; [reflexivity|vm_compute; discriminate]).
  destruct (subsample_truncates (py_range 10) f_half H1 H2)
    as (v & n & _ & _ & En & _ & _ & Hl).
  assert (E5 : sample_count (len (py_range 10)) f_half = Ok 5)
    by (vm_compute; reflexivity).
  rewrite E5 in En. inversion En; subst n.
  destruct (Hl ltac:(lia)) as (l & El & Hlen & _).
  exists l. split; assumption.
Defined.

(** ** C2 *)

(** C2: for every [query_frame > 0] and a factor that is zero, the recency
    step leaves the base window unchanged and the subsampling step leaves any
    non-empty window unchanged; so window selection with
    [recency_factor = 0] is the subsampling step on the whole base window, and
    with [subsampling_factor = 0] it is the window the recency step returns. *)
Theorem zero_factor_keeps_window (q : Z) (z : pyfloat) :
  0 < q < max_len -> eq_zero z = true ->
  recency_step (py_range q) z = Ok (py_range q) /\
  (forall w, 0 < len w < max_len -> subsample_step w z = Ok w) /\
  (forall sf, select_window q z sf = subsample_step (py_range q) sf) /\
  (forall rf w, recency_step (py_range q) rf = Ok w ->
                select_window q rf z = Ok w).
Proof.
  intros Hq Hz.
  assert (Hlen : 0 < len (py_range q) < max_len)
    by (rewrite len_py_range; unfold max_len in *; lia).
  destruct (zero_factor_steps (py_range q) z Hlen Hz) as [Hr _].
  split; [exact Hr|]. split; [|split].
  - intros w Hw. apply (zero_factor_steps w z Hw Hz).
  - intros sf. unfold select_window. rewrite Hr. reflexivity.
  - intros rf w Hw. unfold select_window. rewrite Hw. cbn [bind].
    pose proof (recency_step_len _ _ _ Hw ltac:(lia)) as Hl.
    apply (zero_factor_steps w z); auto. lia.
Qed.

Lemma zero_factor_keeps_window_witness :
  recency_step (py_range 10) (lit 0) = Ok (py_range 10) /\
  select_window 10 f_half (lit 0) = Ok [5; 6; 7; 8; 9].
Proof.
  assert (H1 : 0 < 10 < max_len) by (vm_compute; split; reflexivity).
  destruct (zero_factor_keeps_window 10 (lit 0) H1 eq_refl) as (Hr & _ & _ & Hs).
  split; [exact Hr|].
  apply Hs. vm_compute. reflexivity.
Defined.

(** ** C3 *)

(** C3: for every [query_frame > 0], with [recency_factor = 1.0] and
    [subsampling_factor = 1.0] the selected search window is exactly
    [[0, 1, ..., query_frame - 1]] in increasing order. *)
Theorem full_window (q : Z) :
  0 < q < max_len -> select_window q f_one f_one = Ok (py_range q).
Proof.
  unfold max_len. intros Hq.
  pose proof (in_unit_pos_unit _ one_unit) as Hu.
  destruct (recency_step_spec q f_one ltac:(lia) Hu) as (v & Hv & _ & _ & Er).
  assert (Ev : (v == inject_Z q)%Q).
  { apply (rnd_of_int _ _ q Hv); [|lia]. rewrite F2Q_one. ring. }
  rewrite (Qrne_comp _ _ Ev), Qrne_Z in Er.
  replace (q =? 0) with false in Er by (symmetry; apply Z.eqb_neq; lia).
  replace (q - q) with 0 in Er by lia. rewrite <- py_range_interval in Er.
  unfold select_window. rewrite Er. cbn [bind].
  rewrite subsample_step_pick, len_py_range by lia.
  destruct Hu as [U1 U2].
  destruct (sample_count_spec q f_one ltac:(lia) U1 U2) as (v' & Hv' & ->).
  assert (Ev' : (v' == inject_Z q)%Q).
  { apply (rnd_of_int _ _ q Hv'); [|lia]. rewrite F2Q_one. ring. }
  rewrite (Qfloor_comp _ _ Ev'), Qfloor_Z. cbn [bind].
  destruct (Z.eq_dec q 1) as [->|Hq1].
  - rewrite pick_1 by (rewrite len_py_range; lia). reflexivity.
  - rewrite pick_general; rewrite ?len_py_range; try lia.
    f_equal.
    rewrite (map_ext_in (lin_idx q q) (fun j => j)).
    + rewrite map_id, <- py_range_snoc by lia. apply map_nth_range. lia.
    + intros j Hj. apply in_py_range in Hj. apply lin_idx_identity; lia.
Qed.

Lemma full_window_witness : select_window 7 f_one f_one = Ok [0; 1; 2; 3; 4; 5; 6].
Proof.
  apply (full_window 7). vm_compute. split; reflexivity.
Defined.

(** ** C4 *)

(** C4, as stated, fails: for [recency_factor = 0.03125] and
    [query_frame = 10] the count [round(10 * 0.03125)] is [0], and the recency
    step keeps the ten frames of the base window, not its last [0]
    elements. *)
Lemma recency_zero_count_keeps_all :
  in_unit_pos f_small /\
  recency_count (py_range 10) f_small = Ok 0 /\
  recency_step (py_range 10) f_small = Ok (py_range 10) /\
  recency_step (py_range 10) f_small <> Ok (last_elements 0 (py_range 10)).
Proof.
  split; [split; [reflexivity|vm_compute; discriminate]|].
  split; [vm_compute; reflexivity|].
  split; [vm_compute; reflexivity|].
  vm_compute. discriminate.
Qed.

(** C4 (amended): for every [query_frame > 0] and [recency_factor] in
    [(0, 1]], the count [k = round(query_frame * recency_factor)] - the
    nearest integer, ties to even, of the rounded product - satisfies
    [0 <= k <= query_frame]; when [1 <= k] the recency step keeps exactly the
    last [k] elements [[query_frame - k, ..., query_frame - 1]] of the base
    window, and when [k = 0] it keeps the whole base window. For
    [recency_factor = 0.5] and [query_frame = 10] the window is
    [[5; 6; 7; 8; 9]]. *)
Theorem recency_keeps_most_recent (q : Z) (rf : pyfloat) :
  0 < q < max_len -> in_unit_pos rf ->
  exists v k,
    rnd_of (inject_Z q * F2Q rf) v /\ k = Qrne v /\
    recency_count (py_range q) rf = Ok k /\ 0 <= k <= q /\
    (1 <= k ->
     recency_step (py_range q) rf = Ok (map (fun i => q - k + i) (py_range k))) /\
    (k = 0 -> recency_step (py_range q) rf = Ok (py_range q)).
Proof.
  unfold max_len. intros Hq Hrf. apply in_unit_pos_unit in Hrf.
  destruct (recency_step_spec q rf ltac:(lia) Hrf) as (v & Hv & Ek & Hk & Er).
  exists v, (Qrne v). repeat split; auto; try tauto.
  - intros H1. rewrite Er.
    replace (Qrne v =? 0) with false by (symmetry; apply Z.eqb_neq; lia).
    f_equal. rewrite interval_shift, py_range_interval.
    apply map_ext. intros. lia.
  - intros E0. rewrite Er, E0. reflexivity.
Qed.

Lemma recency_keeps_most_recent_witness :
  recency_step (py_range 10) f_half = Ok [5; 6; 7; 8; 9].
Proof.
  assert (H1 : 0 < 10 < max_len) by (vm_compute; split; reflexivity).
  assert (H2 : in_unit_pos f_half) by (split; [reflexivity|vm_compute; discriminate]).
  destruct (recency_keeps_most_recent 10 f_half H1 H2)
    as (v & k & _ & _ & Ek & _ & Hk & _).
  assert (E5 : recency_count (py_range 10) f_half = Ok 5)
    by (vm_compute; reflexivity).
  rewrite E5 in Ek. inversion Ek; subst k.
  rewrite (Hk ltac:(lia)). reflexivity.
Defined.

(** ** C5 *)

(** C5: for every [(query_frame, recency_factor, subsampling_factor)] the
    live retriever (lines 53-64) and the cached retriever (lines 148-159)
    compute the same search window, or raise alike. *)
Theorem same_search_window (q : Z) (rf sf : pyfloat) :
  select_window q rf sf = cached_select_window q rf sf.
Proof.
  unfold select_window, cached_select_window, recency_step, recency_count,
    subsample_step, sample_count.
  destruct (float_of_int (len (py_range q))) as [n|e]; cbn [bind]; auto.
  destruct (py_round (fmul n rf)) as [k|e]; cbn [bind]; auto.
  destruct (0 <? len (slice_from (py_range q) (- k))); cbn [bind];
    destruct (float_of_int _); reflexivity.
Qed.

(** ** C6 *)

(** C6: for every [query_frame >= 0] and factors in [[0, 1]], window selection
    returns a strictly increasing list of frame indices, each in
    [[0, query_frame)], of size at most [query_frame]. *)
Theorem window_invariant (q : Z) (rf sf : pyfloat) :
  0 <= q < max_len -> in_unit rf -> in_unit sf ->
  exists l, select_window q rf sf = Ok l /\
            StronglySorted Z.lt l /\
            Forall (fun i => 0 <= i < q) l /\
            len l <= q.
Proof.
  unfold max_len. intros Hq Hrf Hsf.
  destruct (recency_window q rf ltac:(lia) Hrf) as (v & W & _ & _ & Hk & EW & Er).
  assert (HW : 0 <= W <= q) by (destruct (Qrne v =? 0); lia).
  unfold select_window. rewrite Er. cbn [bind].
  destruct (subsample_interval (Z.to_nat (q - W)) (Z.to_nat W) sf) as
    (l & -> & Hs & Hin & Hl); auto; try lia.
  exists l. repeat split; auto; try lia.
  eapply Forall_impl; [|exact Hin]. simpl. intros i Hi.
  apply in_interval in Hi. lia.
Qed.

Lemma window_invariant_witness :
  exists l, select_window 10 f_half f_half = Ok l /\
            StronglySorted Z.lt l /\
            Forall (fun i => 0 <= i < 10) l /\
            len l <= 10.
Proof.
  apply (window_invariant 10 f_half f_half).
  - vm_compute. split; [discriminate|reflexivity].
  - split; [reflexivity|vm_compute; discriminate].
  - split; [reflexivity|vm_compute; discriminate].
Defined.

(** ** C10 *)

(** C10: for every [query_frame > 0] and [recency_factor] in [(0, 1]], the
    recency step returns a non-empty window [w], the most recent [len w]
    frames, and for the count [n] of the subsampling step on it: when
    [n = 0] or [2 <= n] (or [n = 1] on a window
    of one frame) the most recent frame [query_frame - 1] is in the selected
    window; when [n = 1] on a longer window the selected window is the single
    frame [query_frame - len w], the oldest of [w], and [query_frame - 1] is
    not in it. *)
Theorem most_recent_frame (q : Z) (rf sf : pyfloat) :
  0 < q < max_len -> in_unit_pos rf ->
  exists w,
    recency_step (py_range q) rf = Ok w /\ 0 < len w <= q /\
    w = map (fun i => q - len w + i) (py_range (len w)) /\
    forall n, sample_count (len w) sf = Ok n -> n < max_len ->
      ((n = 0 \/ 2 <= n \/ (n = 1 /\ len w = 1)) ->
       exists l, select_window q rf sf = Ok l /\ In (q - 1) l) /\
      (n = 1 -> 1 < len w ->
       select_window q rf sf = Ok [q - len w] /\ ~ In (q - 1) [q - len w]).
Proof.
  unfold max_len. intros Hq Hrf. apply in_unit_pos_unit in Hrf.
  destruct (recency_window q rf ltac:(lia) Hrf) as (v & W & _ & _ & Hk & EW & Er).
  assert (HW : 0 < W <= q) by (destruct (Z.eqb_spec (Qrne v) 0); lia).
  set (w := interval (Z.to_nat (q - W)) (Z.to_nat W)) in *.
  assert (Hlen : len w = W) by (unfold w; rewrite len_interval; lia).
  assert (Hfirst : nth (Z.to_nat 0) w 0 = q - W).
  { unfold w. rewrite nth_interval by lia. lia. }
  assert (Hlast : nth (Z.to_nat (W - 1)) w 0 = q - 1).
  { unfold w. rewrite nth_interval by lia. lia. }
  exists w. rewrite Hlen. split; [exact Er|]. split; [lia|]. split.
  { unfold w. rewrite interval_shift, py_range_interval.
    apply map_ext. intros. lia. }
  intros n H Hnmax. split; [|intros -> HW1; split].
  - intros Hcase. unfold select_window. rewrite Er. cbn [bind].
    rewrite subsample_step_pick, Hlen, H. cbn [bind].
    destruct Hcase as [->|[Hn2|[-> HW1]]].
    + rewrite pick_0. eexists. split; [reflexivity|].
      unfold w. apply in_interval. lia.
    + destruct (Z.eq_dec W 1) as [HW1|HW1].
      * destruct (pick_single w n) as (l & -> & Hne & Hall); try lia.
        exists l. split; auto. destruct l as [|x l]; [congruence|].
        inversion Hall; subst. left. change 0%nat with (Z.to_nat 0).
        rewrite Hfirst. lia.
      * rewrite pick_general by lia. eexists. split; [reflexivity|].
        rewrite Hlen. apply in_map_iff. exists (W - 1). split; auto.
        apply in_or_app. right. left. reflexivity.
    + rewrite pick_1 by lia. eexists. split; [reflexivity|].
      left. change 0%nat with (Z.to_nat 0). rewrite Hfirst. lia.
  - unfold select_window. rewrite Er. cbn [bind].
    rewrite subsample_step_pick, Hlen, H. cbn [bind].
    rewrite pick_1 by lia. change 0%nat with (Z.to_nat 0). rewrite Hfirst.
    reflexivity.
  - simpl. lia.
Qed.

Lemma most_recent_frame_witness :
  select_window 10 f_half f_quarter = Ok [5] /\
  exists l, select_window 10 f_half f_half = Ok l /\ In 9 l.
Proof.
  assert (H1 : 0 < 10 < max_len) by (vm_compute; split; reflexivity).
  assert (H2 : in_unit_pos f_half) by (split; [reflexivity|vm_compute; discriminate]).
  assert (E5 : recency_step (py_range 10) f_half = Ok [5; 6; 7; 8; 9])
    by (vm_compute; reflexivity).
  split.
  - destruct (most_recent_frame 10 f_half f_quarter H1 H2) as (w & Ew & _ & _ & Hn).
    rewrite E5 in Ew. inversion Ew; subst w.
    destruct (Hn 1) as [_ H]; [vm_compute; reflexivity|vm_compute; reflexivity|].
    apply H; [reflexivity|vm_compute; reflexivity].
  - destruct (most_recent_frame 10 f_half f_half H1 H2) as (w & Ew & _ & _ & Hn).
    rewrite E5 in Ew. inversion Ew; subst w.
    destruct (Hn 2) as [H _]; [vm_compute; reflexivity|vm_compute; reflexivity|].
    apply H. right. left. lia.
Defined.

(** ** C8 *)

(** C8, as stated, fails in the live retriever: with [batch_size = -1] the
    loop over [range(0, len(search_window), batch_size)] runs no turn, and a
    call with [visualize=True] on the window [[0; 1; 2]] returns no raw frame,
    not the three frames of the window. *)
Lemma negative_batch_returns_no_frame :
  select_window 3 f_one f_one = Ok [0; 1; 2] /\
  mapM toy_reader [0; 1; 2] = Ok [0; 1; 2] /\
  toy_retrieval toy_net 3 (-1) true = Ok ([], [], [], 0).
Proof.
  split; [vm_compute; reflexivity|].
  split; vm_compute; reflexivity.
Qed.

(** C8 (amended): in both retrievers a call with [visualize=False] that
    returns, returns an empty raw-frame list; a call with [visualize=True]
    that returns - in the live retriever with a positive [batch_size] -
    returns exactly the frames read at the indices of the search window, in
    the order of the window. *)
Theorem visualize_frames (image f32 : Type) (shape : image -> Z * Z)
    (cv2_resize : image -> Z -> Z -> image)
    (cv2_rescale : image -> pyfloat -> image)
    (tensor_div : f32 -> pyfloat -> f32) (f32_astype_int : f32 -> Z)
    (f32_tolist : f32 -> pyfloat)
    (extract_window_with_context :
       image -> Z * Z * Z * Z -> pyfloat -> Z -> Z -> result image)
    (video_reader : video image) (visual_crop : VisualCrop) (query_frame : Z)
    (net : Predictor image f32) (batch_size downscale_height : Z)
    (recency_factor subsampling_factor : pyfloat) (visualize : bool) :
  (forall bbs scs imgs ref,
     perform_retrieval image f32 shape cv2_resize cv2_rescale tensor_div
       f32_astype_int f32_tolist extract_window_with_context video_reader
       visual_crop query_frame net batch_size downscale_height recency_factor
       subsampling_factor visualize = Ok (bbs, scs, imgs, ref) ->
     exists sw,
       select_window query_frame recency_factor subsampling_factor = Ok sw /\
       (visualize = false -> imgs = []) /\
       (visualize = true -> 0 < batch_size -> mapM video_reader sw = Ok imgs)) /\
  (forall (B S : Type) (cached_bboxes : list B) (cached_scores : list S)
          bbs scs imgs ref,
     perform_cached_retrieval image f32 shape cv2_resize
       extract_window_with_context video_reader visual_crop query_frame net
       cached_bboxes cached_scores recency_factor subsampling_factor visualize
     = Ok (bbs, scs, imgs, ref) ->
     exists sw,
       cached_select_window query_frame recency_factor subsampling_factor
       = Ok sw /\
       (visualize = false -> imgs = []) /\
       (visualize = true -> mapM video_reader sw = Ok imgs)).
Proof.
  split.
  - intros bbs scs imgs ref H. unfold perform_retrieval in H.
    apply bind_ok in H. destruct H as (refimg & _ & H).
    apply bind_ok in H. destruct H as (sw & Esw & H).
    apply bind_ok in H. destruct H as (starts & Est & H).
    apply bind_ok in H. destruct H as (st & Hst & H).
    inversion H; subst; clear H.
    exists sw. split; [exact Esw|]. split.
    + intros ->. unfold py_range3 in Est.
      destruct (batch_size =? 0); [discriminate|]. inversion Est; subst; clear Est.
      assert (G : forall l (s0 st : state image),
                 foldM (process_batch image f32 shape cv2_resize cv2_rescale
                          tensor_div f32_astype_int f32_tolist video_reader
                          visual_crop net batch_size downscale_height false
                          ref sw) l s0 = Ok st ->
                 ret_imgs st = ret_imgs s0).
      { induction l as [|i l IH]; intros s0 st' Hf; simpl in Hf.
        - inversion Hf; auto.
        - apply bind_ok in Hf. destruct Hf as (s1 & H1 & H2).
          rewrite (IH _ _ H2). unfold process_batch in H1.
          apply bind_ok in H1. destruct H1 as ([b1 st1] & L1 & H1).
          apply bind_ok in H1. destruct H1 as (outs & _ & H1).
          apply unpack_imgs in H1. simpl in H1. rewrite H1.
          clear - L1. revert L1.
          generalize ({| bimages := []; breferences := []; image_scales := [] |}
                      : batch image).
          revert s0.
          induction (py_range2 i (Z.min (i + batch_size) (len sw))) as [|j js IHj];
            intros s0 b0 L1; simpl in L1.
          + inversion L1; auto.
          + apply bind_ok in L1. destruct L1 as ([b2 s2] & F1 & F2).
            rewrite (IHj _ _ F2). unfold load_frame in F1.
            apply bind_ok in F1. destruct F1 as (s & _ & F1).
            apply bind_ok in F1. destruct F1 as (orig & _ & F1).
            apply bind_ok in F1. destruct F1 as (dh & _ & F1).
            apply bind_ok in F1. destruct F1 as (sc & _ & F1).
            inversion F1; subst. reflexivity. }
      apply G in Hst. exact Hst.
    + intros -> Hb.
      apply (all_turns_imgs image f32 shape cv2_resize cv2_rescale tensor_div
               f32_astype_int f32_tolist video_reader visual_crop net batch_size
               downscale_height true ref sw starts st Est Hb Hst).
  - intros B S cached_bboxes cached_scores bbs scs imgs ref H.
    unfold perform_cached_retrieval in H.
    apply bind_ok in H. destruct H as (refimg & _ & H).
    apply bind_ok in H. destruct H as (sw & Esw & H).
    apply bind_ok in H. destruct H as (bb & _ & H).
    apply bind_ok in H. destruct H as (sc & _ & H).
    apply bind_ok in H. destruct H as (im & Him & H).
    inversion H; subst; clear H.
    exists sw. split; [exact Esw|]. split; intros ->; auto.
    inversion Him. reflexivity.
Qed.

Lemma visualize_frames_witness :
  (exists sw, select_window 3 f_one f_one = Ok sw /\
              mapM toy_reader sw = Ok [0; 1; 2]) /\
  (exists sw, cached_select_window 3 f_one f_one = Ok sw /\
              mapM toy_reader sw = Ok [0; 1; 2]).
Proof.
  pose proof (visualize_frames Z Z toy_shape toy_resize toy_rescale toy_div
                (fun c => c) of_int toy_extract toy_reader toy_crop 3 toy_net 2 4
                f_one f_one true) as [Hl Hc].
  split.
  - destruct (Hl [[]; []; []] [[]; []; []] [0; 1; 2] 0) as (sw & E & _ & H).
    + vm_compute. reflexivity.
    + exists sw. split; [exact E|]. apply H; reflexivity.
  - destruct (Hc Z Z [10; 11; 12] [20; 21; 22] [10; 11; 12] [20; 21; 22]
                [0; 1; 2] 0) as (sw & E & _ & H).
    + vm_compute. reflexivity.
    + exists sw. split; [exact E|]. apply H; reflexivity.
Defined.

(** ** C9 *)

(** C9: the cached retriever does not call the inference function of the
    model: two predictors with the same two configuration fields give the
    same result, whatever their inference functions do; and when the call
    returns, its boxes and scores are [cached_bboxes[s]] and
    [cached_scores[s]] for the indices [s] of the selected window, in
    order. *)
Theorem cached_ignores_model (image f32 B S : Type) (shape : image -> Z * Z)
    (cv2_resize : image -> Z -> Z -> image)
    (extract_window_with_context :
       image -> Z * Z * Z * Z -> pyfloat -> Z -> Z -> result image)
    (video_reader : video image) (visual_crop : VisualCrop) (query_frame : Z)
    (net1 net2 : Predictor image f32)
    (cached_bboxes : list B) (cached_scores : list S)
    (recency_factor subsampling_factor : pyfloat) (visualize : bool) :
  REFERENCE_CONTEXT_PAD image f32 net1 = REFERENCE_CONTEXT_PAD image f32 net2 ->
  REFERENCE_SIZE image f32 net1 = REFERENCE_SIZE image f32 net2 ->
  perform_cached_retrieval image f32 shape cv2_resize
    extract_window_with_context video_reader visual_crop query_frame net1
    cached_bboxes cached_scores recency_factor subsampling_factor visualize
  = perform_cached_retrieval image f32 shape cv2_resize
      extract_window_with_context video_reader visual_crop query_frame net2
      cached_bboxes cached_scores recency_factor subsampling_factor visualize
  /\
  forall bbs scs imgs ref,
    perform_cached_retrieval image f32 shape cv2_resize
      extract_window_with_context video_reader visual_crop query_frame net1
      cached_bboxes cached_scores recency_factor subsampling_factor visualize
    = Ok (bbs, scs, imgs, ref) ->
    exists sw,
      cached_select_window query_frame recency_factor subsampling_factor
      = Ok sw /\
      mapM (py_index cached_bboxes) sw = Ok bbs /\
      mapM (py_index cached_scores) sw = Ok scs.
Proof.
  intros Hpad Hsize. split.
  - unfold perform_cached_retrieval, prepare_reference.
    rewrite Hpad, Hsize. reflexivity.
  - intros bbs scs imgs ref H. unfold perform_cached_retrieval in H.
    apply bind_ok in H. destruct H as (refimg & _ & H).
    apply bind_ok in H. destruct H as (sw & Esw & H).
    apply bind_ok in H. destruct H as (bb & Ebb & H).
    apply bind_ok in H. destruct H as (sc & Esc & H).
    apply bind_ok in H. destruct H as (im & _ & H).
    inversion H; subst; clear H.
    exists sw. auto.
Qed.

Lemma cached_ignores_model_witness :
  call Z Z toy_net [0] [0] <> call Z Z toy_net_busy [0] [0] /\
  toy_cached_retrieval toy_net 3 false = toy_cached_retrieval toy_net_busy 3 false /\
  toy_cached_retrieval toy_net 3 false = Ok ([10; 11; 12], [20; 21; 22], [], 0).
Proof.
  split; [vm_compute; discriminate|].
  split; [|vm_compute; reflexivity].
  apply (cached_ignores_model Z Z Z Z toy_shape toy_resize toy_extract
           toy_reader toy_crop 3 toy_net toy_net_busy [10; 11; 12]
           [20; 21; 22] f_one f_one false); reflexivity.
Defined.

(** ** C7 *)

(** C7, as stated, fails: float32 holds 24 bits.  In a frame 1080 pixels
    high scaled for [downscale_height = 700], the coordinate [2^26 + 3] of
    the original frame lies at [43496488] in the scaled frame, to the
    accuracy of float32; divided by the scale and truncated it gives
    [2^26 + 8], five pixels off. *)
Lemma far_box_is_off :
  float_of_int 700 = Ok (of_int 700) /\
  py_truediv (of_int 700) 1080 = Ok scale_700_1080 /\
  near32 (inject_Z (2 ^ 26 + 3) * F2Q scale_700_1080) far_coordinate /\
  (F2Q far_coordinate == 43496488)%Q /\
  astype_int (f32_div far_coordinate scale_700_1080) = 2 ^ 26 + 8 /\
  ~ (2 ^ 26 + 3 - 1 <= astype_int (f32_div far_coordinate scale_700_1080)
     <= 2 ^ 26 + 3 + 1).
Proof.
  split; [reflexivity|]. split; [vm_compute; reflexivity|].
  split; [split; [reflexivity|split; vm_compute; discriminate]|].
  split; [reflexivity|].
  split; [vm_compute; reflexivity|].
  replace (astype_int (f32_div far_coordinate scale_700_1080)) with (2 ^ 26 + 8)
    by (vm_compute; reflexivity).
  lia.
Qed.

Section BoxRescaling.
Variable image : Type.
Variable shape : image -> Z * Z.
Variable cv2_resize : image -> Z -> Z -> image.
Variable cv2_rescale : image -> pyfloat -> image.
Variable video_reader : video image.
Variable visual_crop : VisualCrop.

(** Lines 78-80: the frame with its aspect ratio corrected. *)
Let corrected (orig_image : image) : image :=
  if negb ((fst (shape orig_image) =? original_height visual_crop)
           && (snd (shape orig_image) =? original_width visual_crop))
  then cv2_resize orig_image (original_width visual_crop)
         (original_height visual_crop)
  else orig_image.

(** C7 (amended): in the live retriever the scale of a frame is
    [float(downscale_height)] divided by the height of the frame (line 83);
    each box the model returns is mapped by dividing its four coordinates by
    that scale, in float32, and truncating, and is tagged with the number of
    its frame (lines 94-100); and for [downscale_height] and a frame height
    below [2^31] and a coordinate [0 <= X < 2^22] of the original frame, a
    box coordinate detected at [X] times the scale, to the accuracy of
    float32, is mapped back to [X] or [X - 1]: within one pixel. *)
Theorem box_round_trip :
  (forall downscale_height visualize reference sw b st j b' st',
     load_frame image shape cv2_resize cv2_rescale video_reader visual_crop
       downscale_height visualize reference sw (b, st) j = Ok (b', st') ->
     exists s orig_image dh image_scale,
       py_index sw j = Ok s /\ video_reader s = Ok orig_image /\
       float_of_int downscale_height = Ok dh /\
       py_truediv dh (fst (shape (corrected orig_image))) = Ok image_scale /\
       image_scales image b' = image_scales image b ++ [image_scale]) /\
  (forall sw outs b i st j st',
     unpack_frame image spec_float f32_div astype_int f32_to_float sw outs b i
       st j = Ok st' ->
     exists instances image_scale s,
       py_index outs (j - i) = Ok instances /\
       py_index (image_scales image b) (j - i) = Ok image_scale /\
       py_index sw j = Ok s /\
       ret_bboxes st' =
       ret_bboxes st ++
       [map (fun '(a1, b1, a2, b2) =>
               {| fno := s;
                  x1 := astype_int (f32_div a1 image_scale);
                  y1 := astype_int (f32_div b1 image_scale);
                  x2 := astype_int (f32_div a2 image_scale);
                  y2 := astype_int (f32_div b2 image_scale) |})
            (pred_boxes spec_float instances)]) /\
  (forall dh H X c d image_scale,
     0 < dh < 2 ^ 31 -> 0 < H < 2 ^ 31 -> 0 <= X < 2 ^ 22 ->
     float_of_int dh = Ok d -> py_truediv d H = Ok image_scale ->
     near32 (inject_Z X * F2Q image_scale) c ->
     X - 1 <= astype_int (f32_div c image_scale) <= X).
Proof.
  split; [|split].
  - intros dh0 visualize reference sw b st j b' st' H.
    unfold load_frame in H.
    apply bind_ok in H. destruct H as (s & Es & H).
    apply bind_ok in H. destruct H as (orig & Eo & H).
    apply bind_ok in H. destruct H as (dh & Ed & H).
    apply bind_ok in H. destruct H as (sc & Esc & H).
    inversion H; subst; clear H.
    exists s, orig, dh, sc. cbn [image_scales]. repeat split; auto.
  - intros sw outs b i st j st' H. unfold unpack_frame in H.
    apply bind_ok in H. destruct H as (inst & Ei & H).
    apply bind_ok in H. destruct H as (sc & Esc & H).
    apply bind_ok in H. destruct H as (s & Es & H).
    inversion H; subst; clear H.
    exists inst, sc, s. cbn [ret_bboxes]. repeat split; auto.
    f_equal. f_equal. rewrite map_map. apply map_ext.
    intros [[[a1 b1] a2] b2]. reflexivity.
  - intros dh H X c d sc Hdh HH HX Ed Esc Hc.
    exact (round_trip dh H X c d sc Hdh HH HX Ed Esc Hc).
Qed.

End BoxRescaling.

Lemma box_round_trip_witness :
  1000 - 1 <= astype_int (f32_div near_coordinate scale_700_1080) <= 1000.
Proof.
  destruct (box_round_trip Z toy_shape toy_resize toy_rescale toy_reader toy_crop)
    as (_ & _ & H).
  apply (H 700 1080 1000 near_coordinate (of_int 700) scale_700_1080).
  - split; [lia|reflexivity].
  - split; [lia|reflexivity].
  - split; [lia|reflexivity].
  - reflexivity.
  - vm_compute. reflexivity.
  - split; [reflexivity|split; vm_compute; discriminate].
Defined.

(** * Further properties *)

(** ** Signs *)

Lemma bra_opp m e l :
  binary_round_aux prec emax true m e l
  = fneg (binary_round_aux prec emax false m e l).
Proof.
  unfold binary_round_aux.
  destruct (shr_fexp prec emax m e l) as [mrs' e'].
  destruct (shr_fexp prec emax _ e' loc_Exact) as [mrs'' e''].
  destruct (shr_m mrs''); try reflexivity.
  destruct (e'' <=? emax - prec); reflexivity.
Qed.

Lemma fmul_neg_l x y : fmul (fneg x) y = fneg (fmul x y).
Proof.
  destruct x as [[|]|[|]| |[|] mx ex], y as [[|]|[|]| |[|] my ey];
    try reflexivity; unfold fmul, fneg, SFmul, SFopp; simpl xorb;
    rewrite bra_opp; unfold fneg;
    destruct (binary_round_aux prec emax false _ _ _) as [[|]|[|]| |[|] ? ?];
    reflexivity.
Qed.

Lemma fmul_neg_r x y : fmul x (fneg y) = fneg (fmul x y).
Proof.
  destruct x as [[|]|[|]| |[|] mx ex], y as [[|]|[|]| |[|] my ey];
    try reflexivity; unfold fmul, fneg, SFmul, SFopp; simpl xorb;
    rewrite bra_opp; unfold fneg;
    destruct (binary_round_aux prec emax false _ _ _) as [[|]|[|]| |[|] ? ?];
    reflexivity.
Qed.

Lemma py_int_neg x : py_int (fneg x) = neg_result (py_int x).
Proof.
  destruct x as [[|]|[|]| |[|] m e]; simpl; try reflexivity; f_equal; lia.
Qed.

Lemma py_round_neg x : py_round (fneg x) = neg_result (py_round x).
Proof.
  destruct x as [[|]|[|]| |[|] m e]; simpl; try reflexivity; f_equal; lia.
Qed.

(** ** Factors that are no finite number *)

Lemma py_range_nonpos q : q <= 0 -> py_range q = [].
Proof.
  intros. unfold py_range. replace (Z.to_nat q) with 0%nat by lia. reflexivity.
Qed.

Lemma of_int_finite n :
  0 <= n < 2 ^ 53 -> exists f, float_of_int n = Ok f /\ f = of_int n /\
    ((n = 0 /\ f = S754_zero false) \/ (0 < n /\ is_pos f = true)).
Proof.
  intros H. exists (of_int n). split; [apply float_of_int_ok; auto|].
  split; auto. destruct (Z.eq_dec n 0) as [->|].
  - left. split; reflexivity.
  - right. split; [lia|]. apply of_int_spec. lia.
Qed.

Lemma recency_step_nonfinite (w : list Z) :
  len w < max_len ->
  recency_step w S754_nan = Raise ValueError /\
  forall s, recency_step w (S754_infinity s)
            = Raise (if len w =? 0 then ValueError else OverflowError).
Proof.
  intros Hw.
  assert (HW : 0 <= len w < 2 ^ 53).
  { unfold len, max_len in *. split; [lia|]. 
    apply Z.lt_trans with (2 ^ 52); [lia|reflexivity]. }
  destruct (of_int_finite (len w) HW) as (f & Ef & _ & [[E0 ->]|[Hp Hf]]);
    unfold recency_step, recency_count; rewrite Ef; cbn [bind].
  - rewrite E0. split; [reflexivity|]. intros [|]; reflexivity.
  - destruct f as [| | |[|] m e]; try discriminate.
    replace (len w =? 0) with false by (symmetry; apply Z.eqb_neq; lia).
    split; [reflexivity|]. intros [|]; reflexivity.
Qed.

Lemma subsample_step_nonfinite (w : list Z) :
  len w < max_len ->
  subsample_step w S754_nan = Raise ValueError /\
  forall s, subsample_step w (S754_infinity s)
            = Raise (if len w =? 0 then ValueError else OverflowError).
Proof.
  intros Hw.
  assert (HW : 0 <= len w < 2 ^ 53).
  { unfold len, max_len in *. split; [lia|]. 
    apply Z.lt_trans with (2 ^ 52); [lia|reflexivity]. }
  destruct (of_int_finite (len w) HW) as (f & Ef & _ & [[E0 ->]|[Hp Hf]]);
    unfold subsample_step, sample_count; rewrite Ef; cbn [bind].
  - rewrite E0. split; [reflexivity|]. intros [|]; reflexivity.
  - destruct f as [| | |[|] m e]; try discriminate.
    replace (len w =? 0) with false by (symmetry; apply Z.eqb_neq; lia).
    split; [reflexivity|]. intros [|]; reflexivity.
Qed.

(** X1: a recency factor that is NaN makes the window selection raise
    [ValueError], and an infinite one [OverflowError] - or [ValueError] when
    [query_frame <= 0] - whatever the subsampling factor is.  When the
    recency step returns a window [w], a subsampling factor that is NaN
    makes the selection raise [ValueError], and an infinite one
    [OverflowError] - or [ValueError] when [w] is empty. *)
Theorem nonfinite_factor_raises (q : Z) (rf sf : pyfloat) (w : list Z) :
  q < max_len ->
  select_window q S754_nan sf = Raise ValueError /\
  (forall s, select_window q (S754_infinity s) sf
             = Raise (if 0 <? q then OverflowError else ValueError)) /\
  (recency_step (py_range q) rf = Ok w ->
   select_window q rf S754_nan = Raise ValueError /\
   forall s, select_window q rf (S754_infinity s)
             = Raise (if 0 <? len w then OverflowError else ValueError)).
Proof.
  intros Hq.
  assert (Hl : len (py_range q) = Z.max q 0).
  { unfold len. rewrite length_py_range. lia. }
  assert (Hlen : len (py_range q) < max_len).
  { rewrite Hl. unfold max_len in *. lia. }
  destruct (recency_step_nonfinite (py_range q) Hlen) as [N I].
  split; [|split].
  - unfold select_window. rewrite N. reflexivity.
  - intros s. unfold select_window. rewrite I, Hl. cbn [bind].
    destruct (Z.ltb_spec 0 q), (Z.eqb_spec (Z.max q 0) 0); try reflexivity; lia.
  - intros Er.
    assert (Hw : len w < max_len).
    { destruct (Z.eq_dec (len (py_range q)) 0) as [E0|N0].
      - unfold recency_step in Er.
        destruct (recency_count (py_range q) rf); try discriminate.
        cbn [bind] in Er.
        pose proof (len_slice_from (py_range q) (- a)).
        destruct (0 <? len (slice_from (py_range q) (- a)));
          inversion Er; subst; lia.
      - pose proof (recency_step_len _ _ _ Er). unfold len in *. lia. }
    destruct (subsample_step_nonfinite w Hw) as [N' I'].
    unfold select_window. rewrite Er. cbn [bind]. split; auto.
    intros s. rewrite I'.
    assert (0 <= len w) by (unfold len; lia).
    destruct (Z.ltb_spec 0 (len w)), (Z.eqb_spec (len w) 0); try reflexivity; lia.
Qed.

Lemma nonfinite_factor_raises_witness :
  select_window 10 f_half S754_nan = Raise ValueError /\
  select_window 10 f_half (S754_infinity false) = Raise OverflowError.
Proof.
  assert (Hq : 10 < max_len) by reflexivity.
  assert (Er : recency_step (py_range 10) f_half = Ok [5; 6; 7; 8; 9])
    by (vm_compute; reflexivity).
  destruct (nonfinite_factor_raises 10 f_half f_one [5; 6; 7; 8; 9] Hq) as (_ & _ & H).
  destruct (H Er) as [H1 H2]. split; [exact H1|]. exact (H2 false).
Defined.

(** ** A recency factor of one or more *)

Lemma rounded_ge_int_any X v K :
  rounded X v -> (inject_Z K <= X)%Q -> K < 2 ^ 53 -> (inject_Z K <= v)%Q.
Proof.
  intros Hr HK Hb.
  destruct (Qlt_le_dec X (pow2 53)) as [Hlt|Hge].
  { apply (rounded_ge_int X); auto. }
  destruct Hr as (g & [H1 H2] & ->).
  assert (Hg : 53 < g) by (apply pow2_lt_inv; lra).
  rewrite cexp_normal by lia.
  pose proof (pow2_pos (g - 53)) as Hp.
  assert (E : (pow2 (g - 1) == inject_Z (2 ^ 52) * pow2 (g - 53))%Q).
  { replace (g - 1) with (52 + (g - 53)) by lia.
    rewrite pow2_add, pow2_Z by lia. reflexivity. }
  assert (H : 2 ^ 52 <= Qrne (X / pow2 (g - 53))).
  { apply Qrne_ge_Z. apply Qle_shift_div_l; auto. lra. }
  rewrite Zle_Qle in H.
  apply Qle_trans with (pow2 53).
  - rewrite pow2_Z by lia. rewrite <- Zle_Qle. lia.
  - apply Qle_trans with (pow2 (g - 1)); [apply pow2_le; lia|].
    rewrite E. apply Qmult_le_compat_r; auto. lra.
Qed.

Lemma pos_exponent x K :
  is_pos x = true -> (F2Q x <= pow2 K)%Q -> fexpo x <= K.
Proof.
  destruct x as [| | |[|] m e]; try discriminate. intros _ H. simpl in *.
  apply pow2_le_inv. pose proof (pow2_pos e).
  assert (1 <= inject_Z (Zpos m))%Q.
  { change 1%Q with (inject_Z 1). rewrite <- Zle_Qle. lia. }
  nra.
Qed.

Lemma len_bounds {A} (w : list A) :
  len w < max_len -> 0 <= len w < 2 ^ 53.
Proof.
  unfold len, max_len. intros. split; [lia|].
  apply Z.lt_trans with (2 ^ 52); [lia|reflexivity].
Qed.

(** X2: a recency factor of one or more (up to [2^900]) keeps every frame
    of a non-empty window. *)
Theorem recency_factor_above_one (w : list Z) (rf : pyfloat) :
  0 < len w < max_len -> is_pos rf = true -> (1 <= F2Q rf <= pow2 900)%Q ->
  exists k, recency_count w rf = Ok k /\ len w <= k /\
            recency_step w rf = Ok w.
Proof.
  intros Hw Hp [H1 H900].
  pose proof (len_bounds w ltac:(lia)) as HW.
  destruct (of_int_spec (len w) ltac:(lia)) as (P1 & P2 & P3).
  pose proof (pos_exponent rf 900 Hp H900) as He.
  assert (Hl : (0 < inject_Z (len w) < pow2 53)%Q).
  { split; [apply inject_Z_pos; lia|].
    rewrite pow2_Z by lia. rewrite <- Zlt_Qlt. lia. }
  assert (Hb : (F2Q (of_int (len w)) * F2Q rf < pow2 1000)%Q).
  { rewrite P3. apply Qlt_le_trans with (pow2 53 * pow2 900)%Q; [nra|].
    rewrite <- pow2_add. apply pow2_le. lia. }
  destruct (fmul_rounded (of_int (len w)) rf P1 Hp ltac:(lia) Hb)
    as (R1 & _ & R3).
  exists (Qrne (F2Q (fmul (of_int (len w)) rf))).
  assert (Ec : recency_count w rf
               = Ok (Qrne (F2Q (fmul (of_int (len w)) rf)))).
  { unfold recency_count. rewrite float_of_int_ok by auto. cbn [bind].
    apply py_round_rne; auto. }
  assert (Hk : len w <= Qrne (F2Q (fmul (of_int (len w)) rf))).
  { apply Qrne_ge_Z. apply (rounded_ge_int_any _ _ _ R3); [|lia].
    rewrite P3. nra. }
  split; [exact Ec|]. split; [exact Hk|].
  unfold recency_step. rewrite Ec. cbn [bind].
  set (k := Qrne _) in *.
  assert (Es : slice_from w (- k) = w).
  { unfold slice_from.
    replace (- k <? 0) with true by (symmetry; apply Z.ltb_lt; lia).
    replace (Z.max (len w + - k) 0) with 0 by lia. reflexivity. }
  rewrite Es.
  replace (0 <? len w) with true by (symmetry; apply Z.ltb_lt; lia).
  reflexivity.
Qed.

Lemma recency_factor_above_one_witness :
  recency_step [3; 4; 5] (lit 2.5) = Ok [3; 4; 5].
Proof.
  destruct (recency_factor_above_one [3; 4; 5] (lit 2.5)) as (k & _ & _ & H).
  - split; reflexivity.
  - reflexivity.
  - split; vm_compute; discriminate.
  - exact H.
Defined.

(** ** Negative factors *)

(** X3: a negative recency factor [- r], [r] in [(0, 1]], gives the count
    [- k] for [k = round(query_frame * r)], and the slice
    [search_window[k:]]: the [k] oldest frames are dropped, unless that
    leaves no frame, in which case the whole window is kept. *)
Theorem negative_recency_factor (q : Z) (r : pyfloat) :
  0 < q < max_len -> in_unit_pos r ->
  exists v k,
    rnd_of (inject_Z q * F2Q r) v /\ k = Qrne v /\ 0 <= k <= q /\
    recency_count (py_range q) (fneg r) = Ok (- k) /\
    recency_step (py_range q) (fneg r)
    = Ok (if k <? q then map (fun i => k + i) (py_range (q - k))
          else py_range q).
Proof.
  intros Hq Hr.
  assert (Hq53 : 0 <= q < 2 ^ 53).
  { unfold max_len in Hq. split; [lia|].
    apply Z.lt_trans with (2 ^ 52); [lia|reflexivity]. }
  destruct (recency_step_spec q r Hq53 (in_unit_pos_unit r Hr))
    as (v & Hv & Ek & Hk & _).
  exists v, (Qrne v). split; [exact Hv|]. split; [reflexivity|].
  split; [exact Hk|].
  set (k := Qrne v) in *.
  assert (Hlen : len (py_range q) = q) by (apply len_py_range; lia).
  assert (Ec : recency_count (py_range q) (fneg r) = Ok (- k)).
  { unfold recency_count in *. rewrite Hlen in *.
    rewrite float_of_int_ok in * by auto. cbn [bind] in *.
    rewrite fmul_neg_r, py_round_neg, Ek. reflexivity. }
  split; [exact Ec|].
  unfold recency_step. rewrite Ec. cbn [bind]. rewrite Z.opp_involutive.
  assert (Es : slice_from (py_range q) k
               = interval (Z.to_nat k) (Z.to_nat (q - k))).
  { unfold slice_from. rewrite Hlen.
    replace (k <? 0) with false by (symmetry; apply Z.ltb_ge; lia).
    replace (Z.min k q) with k by lia.
    rewrite py_range_interval, skipn_interval. f_equal; lia. }
  rewrite Es, len_interval.
  destruct (Z.ltb_spec k q).
  - replace (0 <? Z.of_nat (Z.to_nat (q - k))) with true
      by (symmetry; apply Z.ltb_lt; lia).
    rewrite interval_shift, py_range_interval. f_equal.
    apply map_ext. intros. lia.
  - replace (0 <? Z.of_nat (Z.to_nat (q - k))) with false
      by (symmetry; apply Z.ltb_ge; lia).
    reflexivity.
Qed.

Lemma negative_recency_factor_witness :
  recency_step (py_range 10) (fneg f_quarter) = Ok [2; 3; 4; 5; 6; 7; 8; 9].
Proof.
  destruct (negative_recency_factor 10 f_quarter) as (v & k & _ & _ & _ & Ec & Es).
  - split; reflexivity.
  - split; [reflexivity|vm_compute; discriminate].
  - assert (E : recency_count (py_range 10) (fneg f_quarter) = Ok (- 2))
      by (vm_compute; reflexivity).
    rewrite E in Ec. inversion Ec as [Hk].
    assert (k = 2) by lia. subst k. exact Es.
Defined.

(** X4: a negative subsampling factor [- r], [r] in [(0, 1]], gives the count
    [- n] for [n = int(r * W)]: when [n = 0] the window is kept, and when
    [n >= 1] - in particular when [r * W >= 1] - [linspace] refuses the
    negative count with a [ValueError]. *)
Theorem negative_subsampling_factor (w : list Z) (r : pyfloat) :
  0 < len w < max_len -> in_unit_pos r ->
  exists v n,
    rnd_of (inject_Z (len w) * F2Q r) v /\ n = Qfloor v /\ 0 <= n <= len w /\
    sample_count (len w) (fneg r) = Ok (- n) /\
    ((1 <= inject_Z (len w) * F2Q r)%Q -> 1 <= n) /\
    (n = 0 -> subsample_step w (fneg r) = Ok w) /\
    (1 <= n -> subsample_step w (fneg r) = Raise ValueError).
Proof.
  intros Hw Hr.
  pose proof (len_bounds w ltac:(lia)) as HW.
  destruct (sample_count_unit (len w) r HW (in_unit_pos_unit r Hr))
    as (v & Hv & En & Hn).
  exists v, (Qfloor v). split; [exact Hv|]. split; [reflexivity|].
  split; [exact Hn|].
  set (n := Qfloor v) in *.
  assert (Ec : sample_count (len w) (fneg r) = Ok (- n)).
  { unfold sample_count in *. rewrite float_of_int_ok in * by auto.
    cbn [bind] in *. rewrite fmul_neg_l, py_int_neg, En. reflexivity. }
  split; [exact Ec|]. split; [|split].
  - intros H1. apply Qfloor_lt_int.
    destruct Hv as [[Hz _]|Hv]; [change (inject_Z 1) with 1%Q in *; lra|].
    apply (rounded_ge_int_any _ _ _ Hv); [exact H1|reflexivity].
  - intros H0. rewrite subsample_step_pick, Ec, H0. cbn [bind].
    apply pick_0.
  - intros H1. unfold subsample_step. rewrite Ec. cbn [bind].
    unfold linspace.
    replace (- n <? 0) with true by (symmetry; apply Z.ltb_lt; lia).
    reflexivity.
Qed.

Lemma negative_subsampling_factor_witness :
  subsample_step (py_range 10) (fneg f_half) = Raise ValueError.
Proof.
  destruct (negative_subsampling_factor (py_range 10) f_half)
    as (v & n & _ & _ & _ & _ & H1 & _ & Hr).
  - split; reflexivity.
  - split; [reflexivity|vm_compute; discriminate].
  - apply Hr, H1. vm_compute. discriminate.
Defined.

(** ** Rounding is monotone *)

Lemma rounded_mono X Y v v' :
  rounded X v -> rounded Y v' -> (pow2 (-1000) <= X)%Q -> (X <= Y)%Q ->
  (v <= v')%Q.
Proof.
  intros (g & Hg & ->) (g' & Hg' & ->) Hb Hle.
  assert (-1000 < g) by (apply pow2_lt_inv; lra).
  assert (g - 1 < g') by (apply pow2_lt_inv; lra).
  rewrite !cexp_normal by lia.
  destruct (Z.eq_dec g g') as [<-|Hne].
  - pose proof (pow2_pos (g - 53)) as Hp.
    apply Qmult_le_compat_r; [|lra]. rewrite <- Zle_Qle.
    apply Qrne_mono. apply Qmult_le_compat_r; auto.
    apply Qlt_le_weak, Qinv_lt_0_compat; auto.
  - pose proof (binade_rounded X g Hg) as [_ U].
    pose proof (binade_rounded Y g' Hg') as [L _].
    apply Qle_trans with (pow2 g); [exact U|].
    apply Qle_trans with (pow2 (g' - 1)); [apply pow2_le; lia|exact L].
Qed.

Lemma rnd_of_mono X Y v v' :
  rnd_of X v -> rnd_of Y v' ->
  ((X == 0)%Q \/ (pow2 (-1000) <= X)%Q) -> (X <= Y)%Q -> (v <= v')%Q.
Proof.
  intros HX HY Hb Hle.
  pose proof (rnd_of_nonneg _ _ HY) as Hv'.
  destruct HX as [[X0 V0]|HX]; [lra|].
  pose proof (rounded_pos _ _ HX) as Xp.
  destruct HY as [[Y0 _]|HY]; [lra|].
  destruct Hb as [X0|Hb]; [lra|].
  apply (rounded_mono X Y); auto.
Qed.

(** ** The sampled indices never decrease *)

Section LinIdxOrder.
Variables W n : Z.
Hypothesis HW : 2 <= W < 2 ^ 52.
Hypothesis Hn : 2 <= n < 2 ^ 52.

Lemma step_ge_small : (pow2 (-52) <= F2Q (step W n))%Q.
Proof.
  destruct (step_spec W n HW Hn) as (_ & _ & S3).
  apply (rounded_ge_pow2 _ _ _ S3); [|lia].
  assert (A : (1 <= inject_Z (W - 1))%Q).
  { change 1%Q with (inject_Z 1). rewrite <- Zle_Qle. lia. }
  assert (B : (0 < inject_Z (n - 1) <= pow2 52)%Q).
  { split; [apply inject_Z_pos; lia|].
    rewrite pow2_Z by lia. rewrite <- Zle_Qle. lia. }
  apply Qle_shift_div_l; [tauto|].
  assert (E : (pow2 (-52) * pow2 52 == 1)%Q).
  { rewrite <- pow2_add. reflexivity. }
  pose proof (pow2_pos (-52)). nra.
Qed.

Lemma lin_idx_first : lin_idx W n 0 = 0.
Proof.
  destruct (step_spec W n HW Hn) as (S1 & _).
  unfold lin_idx, sample. change (of_int 0) with (S754_zero false).
  apply astype_zero, fadd_zero_zero, fmul_zero_l; auto.
Qed.

Lemma lin_idx_mono j :
  0 <= j -> j + 1 <= n - 2 -> lin_idx W n j <= lin_idx W n (j + 1).
Proof.
  intros Hj0 Hj.
  destruct (lin_idx_floor W n HW Hn j ltac:(lia)) as (-> & _).
  destruct (lin_idx_floor W n HW Hn (j + 1) ltac:(lia)) as (-> & _).
  destruct (sample_spec W n j HW Hn ltac:(lia)) as (_ & R).
  destruct (sample_spec W n (j + 1) HW Hn ltac:(lia)) as (_ & R').
  apply Qfloor_resp_le.
  pose proof step_ge_small as Hs.
  assert (Hs0 : (0 < F2Q (step W n))%Q).
  { pose proof (pow2_pos (-52)). lra. }
  apply (rnd_of_mono _ _ _ _ R R').
  - destruct (Z.eq_dec j 0) as [->|Hne].
    + left. change (inject_Z 0) with 0%Q. ring.
    + right. assert (A : (1 <= inject_Z j)%Q).
      { change 1%Q with (inject_Z 1). rewrite <- Zle_Qle. lia. }
      apply Qle_trans with (pow2 (-52)); [apply pow2_le; lia|]. nra.
  - apply Qmult_le_compat_r; [|lra]. rewrite <- Zle_Qle. lia.
Qed.
End LinIdxOrder.

Lemma le_sorted_map_seq (f : Z -> Z) k : forall a,
  (forall j, (a <= j)%nat -> (S j < a + k)%nat ->
             f (Z.of_nat j) <= f (Z.of_nat (S j))) ->
  Sorted Z.le (map f (map Z.of_nat (seq a k))).
Proof.
  induction k as [|k IH]; intros a H; simpl; [constructor|].
  constructor.
  - apply IH. intros j Hj1 Hj2. apply H; lia.
  - destruct k; simpl; constructor. apply H; lia.
Qed.

Lemma le_sorted_map_range (f : Z -> Z) m :
  (forall j, 0 <= j -> j + 1 < m -> f j <= f (j + 1)) ->
  StronglySorted Z.le (map f (py_range m)).
Proof.
  intros H. apply Sorted_StronglySorted; [exact Z.le_trans|].
  apply le_sorted_map_seq. intros j Hj1 Hj2.
  replace (Z.of_nat (S j)) with (Z.of_nat j + 1) by lia. apply H; lia.
Qed.

Lemma le_sorted_snoc l x :
  StronglySorted Z.le l -> Forall (fun i => i <= x) l ->
  StronglySorted Z.le (l ++ [x]).
Proof.
  induction 1 as [|a l Hs IH Ha]; intros Hx; simpl.
  - constructor; constructor.
  - inversion Hx; subst. constructor; auto.
    apply Forall_app. split; auto.
Qed.

Lemma le_sorted_const (l : list Z) c :
  Forall (fun i => i = c) l -> StronglySorted Z.le l.
Proof.
  induction 1 as [|a l Ha Hl IH]; constructor; auto.
  eapply Forall_impl; [|exact Hl]. simpl. intros. lia.
Qed.

Lemma lin_le_sorted W n :
  2 <= W < 2 ^ 52 -> 2 <= n < 2 ^ 52 ->
  StronglySorted Z.le (map (lin_idx W n) (py_range (n - 1)) ++ [W - 1]).
Proof.
  intros HW Hn. apply le_sorted_snoc.
  - apply le_sorted_map_range. intros j Hj0 Hj. apply lin_idx_mono; auto; lia.
  - apply Forall_map, Forall_forall. intros j Hj. apply in_py_range in Hj.
    apply lin_idx_bounds; auto; lia.
Qed.

(** The indices the subsampling step takes for a count [n >= 1]. *)
Lemma sampled_indices (w : list Z) (n : Z) :
  0 < len w < max_len -> 1 <= n < max_len ->
  exists idxs,
    len idxs = n /\
    Forall (fun i => 0 <= i < len w) idxs /\
    StronglySorted Z.le idxs /\
    nth 0 idxs 0 = 0 /\
    (2 <= n -> last idxs 0 = len w - 1) /\
    pick_samples w n = Ok (map (fun i => nth (Z.to_nat i) w 0) idxs).
Proof.
  intros Hw Hn. unfold max_len in *.
  assert (P53 : 2 ^ 52 < 2 ^ 53) by reflexivity.
  destruct (Z.eq_dec n 1) as [->|Hn1].
  { exists [0]. rewrite pick_1 by lia.
    repeat split; try reflexivity; try lia.
    - constructor; [lia|constructor].
    - repeat constructor. }
  destruct (Z.eq_dec (len w) 1) as [Hw1|Hw1].
  - destruct (linspace_single n ltac:(lia)) as (ys & E & Hl & Hz).
    exists (map astype_int ys).
    assert (Hc : Forall (fun i => i = 0) (map astype_int ys)).
    { apply Forall_map. exact Hz. }
    assert (Hin : Forall (fun i => 0 <= i < len w) (map astype_int ys)).
    { eapply Forall_impl; [|exact Hc]. simpl. intros. lia. }
    assert (Hlen : len (map astype_int ys) = n).
    { unfold len. rewrite length_map, Hl. lia. }
    split; [exact Hlen|]. split; [exact Hin|].
    split; [apply (le_sorted_const _ 0 Hc)|]. split; [|split].
    + destruct (map astype_int ys) as [|a l]; [reflexivity|].
      inversion Hc; subst. reflexivity.
    + intros _. rewrite Hw1.
      assert (Hne : map astype_int ys <> []).
      { intros Hnil. rewrite Hnil in Hlen. unfold len in Hlen. simpl in Hlen. lia. }
      destruct (exists_last Hne) as (l' & a & El). rewrite El in *.
      rewrite last_last. apply Forall_app in Hc. destruct Hc as [_ Hc].
      inversion Hc; subst. reflexivity.
    + unfold pick_samples. rewrite Hw1. rewrite E. cbn [bind].
      replace (0 <? len (map astype_int ys)) with true
        by (symmetry; apply Z.ltb_lt; lia).
      apply mapM_py_index_nth. exact Hin.
  - exists (map (lin_idx (len w) n) (py_range (n - 1)) ++ [len w - 1]).
    assert (HW : 2 <= len w < 2 ^ 52) by lia.
    assert (HN : 2 <= n < 2 ^ 52) by lia.
    split; [|split; [|split; [|split; [|split]]]].
    + unfold len at 1. rewrite length_app, length_map, length_py_range.
      simpl. lia.
    + apply lin_indices_in_range; auto.
    + apply lin_le_sorted; auto.
    + change 0%nat with (Z.to_nat 0) at 1.
      rewrite nth_lin_indices by lia.
      replace (0 =? n - 1) with false by (symmetry; apply Z.eqb_neq; lia).
      apply lin_idx_first; auto.
    + intros _. apply last_last.
    + apply pick_general; auto.
Qed.

(** X5: whatever the subsampling factor, when its count [n] is between 1 and
    [2^52] the step returns [n] frames of the window it is given, at indices
    that never decrease, start at the first frame and (for [n >= 2]) end at
    the last one: no index leaves the window, also when [n] exceeds the
    window's size and frames repeat. *)
Theorem subsample_by_count (w : list Z) (sf : pyfloat) (n : Z) :
  0 < len w < max_len -> sample_count (len w) sf = Ok n ->
  1 <= n < max_len ->
  exists idxs,
    len idxs = n /\
    Forall (fun i => 0 <= i < len w) idxs /\
    StronglySorted Z.le idxs /\
    nth 0 idxs 0 = 0 /\
    (2 <= n -> last idxs 0 = len w - 1) /\
    subsample_step w sf = Ok (map (fun i => nth (Z.to_nat i) w 0) idxs).
Proof.
  intros Hw Ec Hn.
  destruct (sampled_indices w n Hw Hn) as (idxs & H1 & H2 & H3 & H4 & H5 & H6).
  exists idxs. repeat split; auto.
  rewrite subsample_step_pick, Ec. exact H6.
Qed.

Lemma subsample_by_count_witness :
  exists idxs,
    len idxs = 6 /\
    Forall (fun i => 0 <= i < 3) idxs /\
    StronglySorted Z.le idxs /\
    nth 0 idxs 0 = 0 /\
    (2 <= 6 -> last idxs 0 = 3 - 1) /\
    subsample_step [4; 5; 6] (lit 2)
    = Ok (map (fun i => nth (Z.to_nat i) [4; 5; 6] 0) idxs).
Proof.
  apply (subsample_by_count [4; 5; 6] (lit 2) 6).
  - split; reflexivity.
  - vm_compute. reflexivity.
  - split; [lia|reflexivity].
Defined.

Example oversampling_repeats_frames :
  subsample_step [4; 5; 6] (lit 2) = Ok [4; 4; 4; 5; 5; 6].
Proof. vm_compute. reflexivity. Qed.

(** ** Loops and comprehensions *)

Lemma foldM_ext {A S} (f g : S -> A -> result S) l :
  (forall s a, f s a = g s a) -> forall s, foldM f l s = foldM g l s.
Proof.
  intros H. induction l as [|a l IH]; intros s; simpl; auto.
  rewrite H. destruct (g s a); simpl; auto.
Qed.

(** A loop that appends to its variables is a comprehension followed by the
    appends. *)
Lemma foldM_mapM {A S B} (g : A -> result B) (upd : S -> B -> S) l :
  forall s,
    foldM (fun s a => b <- g a ;; Ok (upd s b)) l s
    = (bs <- mapM g l ;; Ok (fold_left upd bs s)).
Proof.
  induction l as [|a l IH]; intros s; simpl; auto.
  destruct (g a) as [b|e]; simpl; auto.
  rewrite IH. destruct (mapM g l); reflexivity.
Qed.

Lemma mapM_length {A B} (f : A -> result B) l r :
  mapM f l = Ok r -> length r = length l.
Proof.
  revert r. induction l as [|a l IH]; intros r H; simpl in H.
  - inversion H. reflexivity.
  - apply bind_ok in H. destruct H as (b & _ & H).
    apply bind_ok in H. destruct H as (bs & E & H). inversion H; subst.
    simpl. f_equal. auto.
Qed.

Lemma mapM_nth_error {A B} (f : A -> result B) l r :
  mapM f l = Ok r ->
  forall k a, nth_error l k = Some a ->
              exists b, nth_error r k = Some b /\ f a = Ok b.
Proof.
  revert r. induction l as [|a0 l IH]; intros r H k a Hk.
  - destruct k; discriminate.
  - simpl in H. apply bind_ok in H. destruct H as (b & Eb & H).
    apply bind_ok in H. destruct H as (bs & E & H). inversion H; subst.
    destruct k as [|k]; simpl in *.
    + inversion Hk; subst. eauto.
    + eapply IH; eauto.
Qed.

Lemma mapM_total {A B} (f : A -> result B) l :
  (forall a, In a l -> exists b, f a = Ok b) -> exists r, mapM f l = Ok r.
Proof.
  induction l as [|a l IH]; intros H; simpl.
  - eauto.
  - destruct (H a) as (b & ->); [left; auto|].
    destruct IH as (r & ->); [intros; apply H; right; auto|].
    simpl. eauto.
Qed.

Lemma mapM_In {A B} (f : A -> result B) l r :
  mapM f l = Ok r -> forall a, In a l -> exists b, f a = Ok b /\ In b r.
Proof.
  revert r. induction l as [|a0 l IH]; intros r H a Ha; [destruct Ha|].
  simpl in H. apply bind_ok in H. destruct H as (b & Eb & H).
  apply bind_ok in H. destruct H as (bs & E & H). inversion H; subst.
  destruct Ha as [->|Ha].
  - exists b. split; [auto|left; auto].
  - destruct (IH _ E _ Ha) as (b' & ? & ?). exists b'. split; [auto|right; auto].
Qed.

Lemma mapM_app_inv {A B} (f : A -> result B) l1 l2 r :
  mapM f (l1 ++ l2) = Ok r ->
  exists r1 r2, mapM f l1 = Ok r1 /\ mapM f l2 = Ok r2 /\ r = r1 ++ r2.
Proof.
  revert r. induction l1 as [|a l1 IH]; intros r H; simpl in *.
  - exists [], r. auto.
  - apply bind_ok in H. destruct H as (b & Eb & H).
    apply bind_ok in H. destruct H as (bs & E & H). inversion H; subst.
    destruct (IH _ E) as (r1 & r2 & E1 & E2 & ->).
    exists (b :: r1), r2. rewrite Eb, E1. simpl. auto.
Qed.

Lemma py_index_nth_error {A} (l : list A) k a :
  nth_error l k = Some a -> py_index l (Z.of_nat k) = Ok a.
Proof.
  intros H. unfold py_index.
  assert (E : (Z.of_nat k <? 0) = false) by (apply Z.ltb_ge; lia).
  rewrite E. cbv zeta iota. rewrite E, Nat2Z.id, H. reflexivity.
Qed.

Lemma py_index_total {A} (l : list A) k :
  0 <= k < len l -> exists a, py_index l k = Ok a.
Proof.
  intros Hk. destruct (nth_error l (Z.to_nat k)) as [a|] eqn:E.
  - exists a. rewrite <- (Z2Nat.id k) by lia. apply py_index_nth_error. auto.
  - apply nth_error_None in E. unfold len in Hk. lia.
Qed.

Lemma py_index_out {A} (l : list A) k :
  len l <= k -> py_index l k = Raise IndexError.
Proof.
  intros Hk. unfold py_index.
  assert (0 <= len l) by (unfold len; lia).
  assert (E : (k <? 0) = false) by (apply Z.ltb_ge; lia).
  rewrite E. cbv zeta iota. rewrite E.
  replace (nth_error l (Z.to_nat k)) with (@None A); auto.
  symmetry. apply nth_error_None. unfold len in *. lia.
Qed.

Lemma nth_error_combine {A B} (l1 : list A) (l2 : list B) k a b :
  nth_error (combine l1 l2) k = Some (a, b) <->
  nth_error l1 k = Some a /\ nth_error l2 k = Some b.
Proof.
  revert l2 k. induction l1 as [|a1 l1 IH]; intros l2 k.
  - simpl. destruct k; split; try discriminate; intros [? ?]; discriminate.
  - destruct l2 as [|b2 l2]; simpl.
    + destruct k; split; try discriminate; intros [? ?]; discriminate.
    + destruct k as [|k]; simpl.
      * split; [intros H; inversion H; auto|intros [H1 H2]; congruence].
      * apply IH.
Qed.

Lemma nth_error_py_range2 i e k j :
  nth_error (py_range2 i e) k = Some j -> j = i + Z.of_nat k /\ j < e.
Proof.
  unfold py_range2, py_range. rewrite !nth_error_map. intros H.
  destruct (nth_error (seq 0 (Z.to_nat (e - i))) k) as [m|] eqn:E;
    [|discriminate].
  simpl in H. inversion H; subst.
  assert (Hk : (k < length (seq 0 (Z.to_nat (e - i))))%nat).
  { apply nth_error_Some. congruence. }
  rewrite length_seq in Hk.
  rewrite nth_error_seq in E.
  destruct (Nat.ltb_spec k (Z.to_nat (e - i))); [|lia].
  inversion E; subst. lia.
Qed.

Lemma length_py_range2 i e : length (py_range2 i e) = Z.to_nat (e - i).
Proof. unfold py_range2. rewrite length_map. apply length_py_range. Qed.

Lemma nth_error_same_length {A B} (l : list A) (l' : list B) k a :
  length l = length l' -> nth_error l k = Some a ->
  exists b, nth_error l' k = Some b.
Proof.
  intros Hl H. destruct (nth_error l' k) as [b|] eqn:E; [eauto|].
  apply nth_error_None in E.
  assert (k < length l)%nat by (apply nth_error_Some; congruence). lia.
Qed.

(** A comprehension given position by position. *)
Lemma mapM_pointwise {A B X Y} (f : A -> result B) (mk : Y -> X -> B) js :
  forall (ys : list Y) (xs : list X),
    length ys = length js -> length xs = length js ->
    (forall k j x y, nth_error js k = Some j -> nth_error xs k = Some x ->
                     nth_error ys k = Some y -> f j = Ok (mk y x)) ->
    mapM f js = Ok (map (fun p => mk (fst p) (snd p)) (combine ys xs)).
Proof.
  induction js as [|j js IH]; intros ys xs Hy Hx H.
  - destruct ys; [reflexivity|discriminate].
  - destruct ys as [|y ys]; [discriminate|]. destruct xs as [|x xs]; [discriminate|].
    simpl. rewrite (H 0%nat j x y) by reflexivity. cbn [bind].
    rewrite (IH ys xs); auto.
    intros k j' x' y' Hj' Hx' Hy'. apply (H (S k)); auto.
Qed.

Lemma map_fst_combine {A B C} (g : A -> C) (l1 : list A) : forall (l2 : list B),
  length l1 = length l2 -> map (fun p => g (fst p)) (combine l1 l2) = map g l1.
Proof.
  induction l1 as [|a l1 IH]; intros [|b l2] H; simpl in *; try discriminate; auto.
  f_equal. apply IH. lia.
Qed.

Lemma map_snd_combine {A B C} (g : B -> C) (l1 : list A) : forall (l2 : list B),
  length l1 = length l2 -> map (fun p => g (snd p)) (combine l1 l2) = map g l2.
Proof.
  induction l1 as [|a l1 IH]; intros [|b l2] H; simpl in *; try discriminate; auto.
  f_equal. apply IH. lia.
Qed.

(** ** The batches of the live retriever *)

Section Batches.
Variable image : Type.
Variable f32 : Type.
Variable shape : image -> Z * Z.
Variable cv2_resize : image -> Z -> Z -> image.
Variable cv2_rescale : image -> pyfloat -> image.
Variable tensor_div : f32 -> pyfloat -> f32.
Variable f32_astype_int : f32 -> Z.
Variable f32_tolist : f32 -> pyfloat.
Variable video_reader : video image.
Variable visual_crop : VisualCrop.
Variable net : Predictor image f32.
Variable batch_size : Z.
Variable downscale_height : Z.
Variable visualize : bool.
Variable reference : image.
Variable search_window : list Z.

Let load := load_frame image shape cv2_resize cv2_rescale video_reader
              visual_crop downscale_height visualize reference search_window.
Let unpack := unpack_frame image f32 tensor_div f32_astype_int f32_tolist
                search_window.
Let turn := process_batch image f32 shape cv2_resize cv2_rescale tensor_div
              f32_astype_int f32_tolist video_reader visual_crop net batch_size
              downscale_height visualize reference search_window.
Let load1 := load_one image shape cv2_resize cv2_rescale video_reader
               visual_crop downscale_height.
Let unpack1 := unpack_one f32 tensor_div f32_astype_int f32_tolist.

(** The frame at position [j] of the window, loaded. *)
Let load_at (j : Z) : result (loaded image) :=
  s <- py_index search_window j ;; load1 s.

(** The output at position [j] of the window, unpacked, in the batch that
    starts at [i]. *)
Let unpack_at (outs : list (Instances f32)) (scales : list pyfloat) (i j : Z)
  : result (list BBox * list pyfloat) :=
  instances <- py_index outs (j - i) ;;
  image_scale <- py_index scales (j - i) ;;
  s <- py_index search_window j ;;
  Ok (unpack1 s instances image_scale).

Let add_loaded (p : batch image * state image) (x : loaded image)
  : batch image * state image :=
  ({| bimages := bimages image (fst p) ++ [scaled x];
      breferences := breferences image (fst p) ++ [reference];
      image_scales := image_scales image (fst p) ++ [scale x] |},
   {| ret_bboxes := ret_bboxes (snd p);
      ret_scores := ret_scores (snd p);
      ret_imgs := if visualize then ret_imgs (snd p) ++ [raw x]
                  else ret_imgs (snd p);
      stdout := if warned x
                then stdout (snd p) ++ ["Incorrect aspect ratio encountered!"%string]
                else stdout (snd p) |}).

Let add_result (st : state image) (y : list BBox * list pyfloat)
  : state image :=
  {| ret_bboxes := ret_bboxes st ++ [fst y];
     ret_scores := ret_scores st ++ [snd y];
     ret_imgs := ret_imgs st;
     stdout := stdout st |}.

Lemma load_loop js p :
  foldM load js p = (xs <- mapM load_at js ;; Ok (fold_left add_loaded xs p)).
Proof.
  rewrite <- foldM_mapM. apply foldM_ext. clear p. intros [b st] j.
  unfold load, load_frame, load_at, load1, load_one, add_loaded.
  destruct (py_index search_window j) as [s|]; [|reflexivity]. cbn [bind].
  destruct (video_reader s) as [orig|]; [|reflexivity]. cbn [bind].
  destruct (float_of_int downscale_height) as [dh|]; [|reflexivity].
  cbn [bind].
  destruct (py_truediv dh _) as [sc|]; [|reflexivity]. cbn [bind].
  cbn [fst snd raw scaled scale warned]. reflexivity.
Qed.

Lemma unpack_loop outs b i js st :
  foldM (unpack outs b i) js st
  = (ys <- mapM (unpack_at outs (image_scales image b) i) js ;;
     Ok (fold_left add_result ys st)).
Proof.
  rewrite <- foldM_mapM. apply foldM_ext. clear st. intros st j.
  unfold unpack, unpack_frame, unpack_at, unpack1, unpack_one, add_result.
  destruct (py_index outs (j - i)) as [inst|]; [|reflexivity]. cbn [bind].
  destruct (py_index (image_scales image b) (j - i)) as [sc|]; [|reflexivity].
  cbn [bind].
  destruct (py_index search_window j) as [s|]; reflexivity.
Qed.

(** What the appends leave in the lists. *)
Lemma loaded_fields xs : forall p,
  let p' := fold_left add_loaded xs p in
  bimages image (fst p') = bimages image (fst p) ++ map scaled xs /\
  breferences image (fst p')
  = breferences image (fst p) ++ map (fun _ => reference) xs /\
  image_scales image (fst p') = image_scales image (fst p) ++ map scale xs /\
  ret_bboxes (snd p') = ret_bboxes (snd p) /\
  ret_scores (snd p') = ret_scores (snd p) /\
  ret_imgs (snd p')
  = (if visualize then ret_imgs (snd p) ++ map raw xs else ret_imgs (snd p)).
Proof.
  induction xs as [|x xs IH]; intros p; simpl.
  - rewrite !app_nil_r. destruct visualize; auto 10.
  - destruct (IH (add_loaded p x)) as (H1 & H2 & H3 & H4 & H5 & H6).
    rewrite H1, H2, H3, H4, H5, H6. unfold add_loaded. cbn [fst snd bimages
      breferences image_scales ret_bboxes ret_scores ret_imgs].
    rewrite <- !app_assoc. simpl.
    destruct visualize; rewrite <- ?app_assoc; auto 10.
Qed.

Lemma result_fields ys : forall st,
  let st' := fold_left add_result ys st in
  ret_bboxes st' = ret_bboxes st ++ map fst ys /\
  ret_scores st' = ret_scores st ++ map snd ys /\
  ret_imgs st' = ret_imgs st.
Proof.
  induction ys as [|y ys IH]; intros st; simpl.
  - rewrite !app_nil_r. auto.
  - destruct (IH (add_result st y)) as (H1 & H2 & H3).
    rewrite H1, H2, H3. unfold add_result. cbn [ret_bboxes ret_scores ret_imgs].
    rewrite <- !app_assoc. auto.
Qed.

(** One turn of the loop of line 71, phase by phase. *)
Lemma turn_phases st i :
  turn st i =
  (let js := py_range2 i (Z.min (i + batch_size) (len search_window)) in
   xs <- mapM load_at js ;;
   let p := fold_left add_loaded xs
              ({| bimages := []; breferences := []; image_scales := [] |}, st) in
   outs <- call image f32 net (bimages image (fst p)) (breferences image (fst p)) ;;
   ys <- mapM (unpack_at outs (image_scales image (fst p)) i) js ;;
   Ok (fold_left add_result ys (snd p))).
Proof.
  unfold turn, process_batch. fold load. fold unpack.
  rewrite load_loop. cbv zeta.
  destruct (mapM load_at _) as [xs|]; [|reflexivity]. cbn [bind].
  destruct (call image f32 net _ _) as [outs|]; [|reflexivity]. cbn [bind].
  apply unpack_loop.
Qed.


(** *** The results follow the window *)

Lemma load_at_nth j :
  0 <= j < len search_window ->
  load_at j = load1 (nth (Z.to_nat j) search_window 0).
Proof. intros Hj. unfold load_at. rewrite py_index_nth by auto. reflexivity. Qed.

(** [bs] holds, for each position of [js], boxes that carry the frame number
    at that position of the window. *)
Let labelled (js : list Z) (bs : list (list BBox)) : Prop :=
  Forall2 (fun j bbs =>
             Forall (fun b => fno b = nth (Z.to_nat j) search_window 0) bbs)
          js bs.

(** Every frame at the positions [js] of the window can be read. *)
Let readable (js : list Z) : Prop :=
  Forall (fun j => exists orig,
            video_reader (nth (Z.to_nat j) search_window 0) = Ok orig) js.

Lemma unpack_at_labelled outs scales i j y :
  0 <= j < len search_window ->
  unpack_at outs scales i j = Ok y ->
  Forall (fun b => fno b = nth (Z.to_nat j) search_window 0) (fst y).
Proof.
  intros Hj H. unfold unpack_at in H.
  apply bind_ok in H. destruct H as (inst & _ & H).
  apply bind_ok in H. destruct H as (sc & _ & H).
  rewrite py_index_nth in H by auto. cbn [bind] in H.
  inversion H; subst. unfold unpack1, unpack_one. cbn [fst].
  apply Forall_map, Forall_forall. intros [[[a1 b1] a2] b2] _. reflexivity.
Qed.

Lemma turn_aligned st i st' :
  turn st i = Ok st' -> 0 <= i ->
  exists bs ss,
    ret_bboxes st' = ret_bboxes st ++ bs /\
    ret_scores st' = ret_scores st ++ ss /\
    length ss = length bs /\
    labelled (py_range2 i (Z.min (i + batch_size) (len search_window))) bs /\
    readable (py_range2 i (Z.min (i + batch_size) (len search_window))).
Proof.
  intros H Hi. rewrite turn_phases in H. cbv zeta in H.
  set (e := Z.min (i + batch_size) (len search_window)) in *.
  apply bind_ok in H. destruct H as (xs & Hx & H).
  apply bind_ok in H. destruct H as (outs & Ho & H).
  apply bind_ok in H. destruct H as (ys & Hy & H).
  inversion H as [Hst]; clear H.
  set (p := fold_left add_loaded xs _) in *.
  destruct (loaded_fields xs
              ({| bimages := []; breferences := []; image_scales := [] |}, st))
    as (_ & _ & _ & F4 & F5 & _).
  fold p in F4, F5. cbn [snd] in F4, F5.
  destruct (result_fields ys (snd p)) as (G1 & G2 & _).
  rewrite F4 in G1. rewrite F5 in G2.
  exists (map fst ys), (map snd ys).
  split; [exact G1|]. split; [exact G2|]. split; [rewrite !length_map; auto|].
  assert (Hin : forall j, In j (py_range2 i e) -> 0 <= j < len search_window).
  { intros j Hj. apply in_py_range2 in Hj. unfold e in Hj. lia. }
  split.
  2:{ unfold readable. apply Forall_forall. intros j Hj.
      destruct (mapM_In _ _ _ Hx j Hj) as (x & Ex & _).
      rewrite load_at_nth in Ex by auto. unfold load1, load_one in Ex.
      destruct (video_reader _) as [orig|]; [eauto|discriminate]. }
  unfold labelled. clear - Hy Hi Hin.
  revert ys Hy Hin. generalize (py_range2 i e) as js.
  induction js as [|j js IH]; intros ys Hy Hin; simpl in Hy.
  - inversion Hy. constructor.
  - apply bind_ok in Hy. destruct Hy as (y & Ey & Hy).
    apply bind_ok in Hy. destruct Hy as (ys' & Eys & Hy). inversion Hy; subst.
    simpl. constructor.
    + eapply unpack_at_labelled; eauto. apply Hin. left. auto.
    + apply IH; auto. intros. apply Hin. right. auto.
Qed.

Lemma turns_aligned c : forall i0 st st',
  foldM turn (map (fun k => i0 + k * batch_size) (map Z.of_nat (seq 0 c))) st
  = Ok st' ->
  0 <= i0 -> 0 < batch_size ->
  exists bs ss,
    ret_bboxes st' = ret_bboxes st ++ bs /\
    ret_scores st' = ret_scores st ++ ss /\
    length ss = length bs /\
    labelled
      (py_range2 i0 (Z.min (i0 + Z.of_nat c * batch_size) (len search_window)))
      bs /\
    readable
      (py_range2 i0 (Z.min (i0 + Z.of_nat c * batch_size) (len search_window))).
Proof.
  induction c as [|c IH]; intros i0 st st' H Hi Hb.
  - simpl in H. inversion H; subst. exists [], [].
    rewrite py_range2_nil by lia. rewrite !app_nil_r.
    repeat split; auto; constructor.
  - rewrite <- cons_seq, <- seq_shift in H. simpl in H.
    apply bind_ok in H. destruct H as (st1 & H1 & H2).
    replace (i0 + 0) with i0 in H1 by lia.
    rewrite !map_map in H2.
    rewrite (map_ext _ (fun k => (i0 + batch_size) + Z.of_nat k * batch_size))
      in H2 by (intros; lia).
    rewrite <- (map_map Z.of_nat (fun k => i0 + batch_size + k * batch_size)) in H2.
    apply IH in H2; try lia.
    apply turn_aligned in H1; auto.
    destruct H1 as (b1 & s1 & B1 & S1 & L1 & A1 & R1).
    destruct H2 as (b2 & s2 & B2 & S2 & L2 & A2 & R2).
    set (L := len search_window) in *.
    assert (HL : 0 <= L) by (unfold L, len; lia).
    replace (i0 + Z.of_nat (S c) * batch_size)
      with (i0 + batch_size + Z.of_nat c * batch_size) by lia.
    exists (b1 ++ b2), (s1 ++ s2). split; [|split; [|split]].
    + rewrite B2, B1, app_assoc. reflexivity.
    + rewrite S2, S1, app_assoc. reflexivity.
    + rewrite !length_app. lia.
    + unfold labelled, readable in *.
      destruct (Z_le_gt_dec (i0 + batch_size) L).
      * replace (Z.min (i0 + batch_size) L) with (i0 + batch_size) in A1, R1
          by lia.
        rewrite <- (py_range2_app i0 (i0 + batch_size)) by nia.
        split; [apply Forall2_app; assumption|].
        apply Forall_app. split; assumption.
      * replace (Z.min (i0 + batch_size + Z.of_nat c * batch_size) L) with L in * by nia.
        replace (Z.min (i0 + batch_size) L) with L in A1, R1 by lia.
        rewrite (py_range2_nil (i0 + batch_size) L) in A2 by lia.
        inversion A2; subst. rewrite app_nil_r. auto.
Qed.

Lemma Forall2_positions {B} (Q : Z -> B -> Prop) (w : list Z) (r : list B) :
  Forall2 (fun j b => Q (nth (Z.to_nat j) w 0) b) (py_range (len w)) r ->
  Forall2 Q w r.
Proof.
  intros H. rewrite <- (map_nth_py_range w 0).
  revert H. generalize (py_range (len w)) as js. intros js H.
  induction H; simpl; constructor; auto.
Qed.

Lemma loop_aligned starts st' :
  py_range3 0 (len search_window) batch_size = Ok starts ->
  0 < batch_size ->
  foldM turn starts (initial_state image) = Ok st' ->
  length (ret_scores st') = length (ret_bboxes st') /\
  Forall2 (fun s bbs => Forall (fun b => fno b = s) bbs)
          search_window (ret_bboxes st') /\
  Forall (fun s => exists orig, video_reader s = Ok orig) search_window.
Proof.
  intros Hs Hb H. unfold py_range3 in Hs.
  replace (batch_size =? 0) with false in Hs by (symmetry; apply Z.eqb_neq; lia).
  replace (0 <? batch_size) with true in Hs by (symmetry; apply Z.ltb_lt; lia).
  inversion Hs; subst; clear Hs.
  set (L := len search_window) in *.
  assert (HL : 0 <= L) by (unfold L, len; lia).
  set (c := (L - 0 + batch_size - 1) / batch_size) in *.
  assert (Hc : L <= c * batch_size /\ 0 <= c).
  { unfold c. replace (L - 0 + batch_size - 1) with (L + batch_size - 1) by lia.
    pose proof (Z.div_mod (L + batch_size - 1) batch_size ltac:(lia)).
    pose proof (Z.mod_pos_bound (L + batch_size - 1) batch_size Hb).
    split; [nia|]. apply Z.div_pos; lia. }
  unfold py_range in H.
  apply (turns_aligned (Z.to_nat c) 0) in H; try lia.
  destruct H as (bs & ss & B & S & Hl & A & R). simpl in B, S. subst bs ss.
  split; [exact Hl|].
  rewrite Z2Nat.id in A, R by lia. fold L in A, R.
  replace (Z.min (0 + c * batch_size) L) with L in A, R by lia.
  split.
  2:{ unfold readable, py_range2 in R. rewrite Z.sub_0_r in R.
      rewrite <- (map_nth_py_range search_window 0). fold L.
      apply Forall_map. rewrite Forall_map in R. exact R. }
  apply Forall2_positions. unfold labelled, py_range2 in A.
  rewrite Z.sub_0_r in A. fold L.
  revert A. generalize (ret_bboxes st') as r. generalize (py_range L) as js.
  induction js as [|j js IH]; intros r A; inversion A; subst; constructor; auto.
Qed.

(** *** One batch, frame by frame *)

Variable detect : image -> image -> result (Instances f32).
Hypothesis Hnet : pairwise image f32 net detect.

Let frame_at (j : Z) : result (list BBox * list pyfloat * image) :=
  retrieve_frame image f32 shape cv2_resize cv2_rescale tensor_div
    f32_astype_int f32_tolist video_reader visual_crop downscale_height
    detect reference (nth (Z.to_nat j) search_window 0).

Let empty_batch : batch image :=
  {| bimages := []; breferences := []; image_scales := [] |}.


(** The frames of a batch, position by position. *)
Lemma batch_pointwise i e xs outs ys :
  0 <= i -> e <= len search_window ->
  mapM load_at (py_range2 i e) = Ok xs ->
  mapM (fun p => detect (fst p) (snd p))
       (combine (map scaled xs) (map (fun _ => reference) xs)) = Ok outs ->
  mapM (unpack_at outs (map scale xs) i) (py_range2 i e) = Ok ys ->
  forall k j x y,
    nth_error (py_range2 i e) k = Some j -> nth_error xs k = Some x ->
    nth_error ys k = Some y -> frame_at j = Ok (y, raw x).
Proof.
  intros Hi He Hx Ho Hy k j x y Hj Ex Ey.
  destruct (nth_error_py_range2 _ _ _ _ Hj) as [Ej Hje].
  destruct (mapM_nth_error _ _ _ Hx _ _ Hj) as (x' & Ex' & Lx).
  rewrite Ex in Ex'. inversion Ex'; subst x'. clear Ex'.
  rewrite load_at_nth in Lx by lia.
  assert (Ec : nth_error (combine (map scaled xs) (map (fun _ => reference) xs)) k
               = Some (scaled x, reference)).
  { apply nth_error_combine. rewrite !nth_error_map, Ex. auto. }
  destruct (mapM_nth_error _ _ _ Ho _ _ Ec) as (o & Eo & Do).
  destruct (mapM_nth_error _ _ _ Hy _ _ Hj) as (y' & Ey' & Uy).
  rewrite Ey in Ey'. inversion Ey'; subst y'. clear Ey'.
  unfold unpack_at in Uy. replace (j - i) with (Z.of_nat k) in Uy by lia.
  rewrite (py_index_nth_error _ _ _ Eo) in Uy. cbn [bind] in Uy.
  assert (Es : nth_error (map scale xs) k = Some (scale x)).
  { rewrite nth_error_map, Ex. reflexivity. }
  rewrite (py_index_nth_error _ _ _ Es) in Uy. cbn [bind] in Uy.
  rewrite py_index_nth in Uy by lia. cbn [bind] in Uy.
  unfold frame_at, retrieve_frame. fold load1. rewrite Lx. cbn [bind].
  cbn [fst snd] in Do. rewrite Do. cbn [bind]. fold unpack1.
  inversion Uy. reflexivity.
Qed.

Lemma turn_frames st i st' :
  turn st i = Ok st' -> 0 <= i ->
  exists rs,
    mapM frame_at (py_range2 i (Z.min (i + batch_size) (len search_window)))
    = Ok rs /\
    ret_bboxes st' = ret_bboxes st ++ map (fun r => fst (fst r)) rs /\
    ret_scores st' = ret_scores st ++ map (fun r => snd (fst r)) rs /\
    ret_imgs st' = (if visualize then ret_imgs st ++ map snd rs
                    else ret_imgs st).
Proof.
  intros H Hi. rewrite turn_phases in H. cbv zeta in H.
  set (e := Z.min (i + batch_size) (len search_window)) in *.
  apply bind_ok in H. destruct H as (xs & Hx & H).
  destruct (loaded_fields xs (empty_batch, st)) as (F1 & F2 & F3 & F4 & F5 & F6).
  fold empty_batch in H. cbn [fst snd bimages breferences image_scales
    empty_batch app] in F1, F2, F3, F4, F5, F6.
  rewrite F1, F2, F3 in H.
  apply bind_ok in H. destruct H as (outs & Ho & H).
  rewrite Hnet in Ho by (rewrite !length_map; reflexivity).
  apply bind_ok in H. destruct H as (ys & Hy & H).
  inversion H as [Hst]; clear H.
  destruct (result_fields ys (snd (fold_left add_loaded xs (empty_batch, st))))
    as (G1 & G2 & G3).
  rewrite F4 in G1. rewrite F5 in G2. rewrite F6 in G3.
  pose proof (mapM_length _ _ _ Hx) as Lx.
  pose proof (mapM_length _ _ _ Hy) as Ly.
  exists (map (fun p => (fst p, raw (snd p))) (combine ys xs)).
  split; [|split; [|split]].
  - apply (mapM_pointwise frame_at (fun y x => (y, raw x))); auto.
    apply (batch_pointwise i e xs outs ys); auto. unfold e. lia.
  - rewrite G1. f_equal. rewrite map_map. cbn [fst].
    symmetry. apply (map_fst_combine fst). congruence.
  - rewrite G2. f_equal. rewrite map_map. cbn [fst].
    symmetry. apply (map_fst_combine snd). congruence.
  - rewrite G3. destruct visualize; auto. f_equal. rewrite map_map. cbn [snd].
    symmetry. apply (map_snd_combine raw). congruence.
Qed.

Lemma frames_turn st i rs :
  mapM frame_at (py_range2 i (Z.min (i + batch_size) (len search_window)))
  = Ok rs ->
  0 <= i -> exists st', turn st i = Ok st'.
Proof.
  intros H Hi. rewrite turn_phases. cbv zeta.
  set (e := Z.min (i + batch_size) (len search_window)) in *.
  assert (He : e <= len search_window) by (unfold e; lia).
  (* the frames load *)
  destruct (mapM_total load_at (py_range2 i e)) as (xs & Hx).
  { intros j Hj. destruct (mapM_In _ _ _ H j Hj) as (r & Hr & _).
    apply in_py_range2 in Hj. rewrite load_at_nth by lia.
    unfold frame_at, retrieve_frame in Hr. fold load1 in Hr.
    apply bind_ok in Hr. destruct Hr as (x & Ex & _). eauto. }
  rewrite Hx. cbn [bind].
  destruct (loaded_fields xs (empty_batch, st)) as (F1 & F2 & F3 & _).
  fold empty_batch. cbn [fst snd bimages breferences image_scales
    empty_batch app] in F1, F2, F3.
  rewrite F1, F2, F3, Hnet by (rewrite !length_map; reflexivity).
  pose proof (mapM_length _ _ _ Hx) as Lx.
  (* the predictor answers *)
  destruct (mapM_total (fun p => detect (fst p) (snd p))
              (combine (map scaled xs) (map (fun _ => reference) xs)))
    as (outs & Ho).
  { intros [a b] Hp. apply In_nth_error in Hp. destruct Hp as (k & Hk).
    apply nth_error_combine in Hk. destruct Hk as [Ha Hb].
    rewrite nth_error_map in Ha, Hb.
    destruct (nth_error xs k) as [x|] eqn:Ex; [|discriminate].
    simpl in Ha, Hb. inversion Ha; inversion Hb; subst a b.
    destruct (nth_error_same_length xs (py_range2 i e) k x Lx Ex) as (j & Hj).
    destruct (mapM_nth_error _ _ _ Hx _ _ Hj) as (x' & Ex' & Lj).
    rewrite Ex in Ex'. inversion Ex'; subst x'.
    destruct (mapM_nth_error _ _ _ H _ _ Hj) as (r & _ & Hr).
    destruct (nth_error_py_range2 _ _ _ _ Hj) as [Ej Hje].
    rewrite load_at_nth in Lj by lia.
    unfold frame_at, retrieve_frame in Hr. fold load1 in Hr.
    rewrite Lj in Hr. cbn [bind] in Hr.
    apply bind_ok in Hr. destruct Hr as (o & Eo & _). cbn [fst snd]. eauto. }
  rewrite Ho. cbn [bind].
  pose proof (mapM_length _ _ _ Ho) as Lo.
  rewrite length_combine, !length_map, Nat.min_id in Lo.
  (* the outputs unpack *)
  destruct (mapM_total (unpack_at outs (map scale xs) i) (py_range2 i e))
    as (ys & Hy).
  { intros j Hj. apply in_py_range2 in Hj.
    rewrite length_py_range2 in Lx.
    unfold unpack_at.
    destruct (py_index_total outs (j - i)) as (o & ->).
    { unfold len. lia. }
    destruct (py_index_total (map scale xs) (j - i)) as (sc & ->).
    { unfold len. rewrite length_map. lia. }
    destruct (py_index_total search_window j) as (s & ->); [lia|].
    cbn [bind]. eauto. }
  rewrite Hy. cbn [bind]. eauto.
Qed.

(** *** All the batches *)

Lemma turns_frames c : forall i0 st st',
  foldM turn (map (fun k => i0 + k * batch_size) (map Z.of_nat (seq 0 c))) st
  = Ok st' ->
  0 <= i0 -> 0 < batch_size ->
  exists rs,
    mapM frame_at
      (py_range2 i0 (Z.min (i0 + Z.of_nat c * batch_size) (len search_window)))
    = Ok rs /\
    ret_bboxes st' = ret_bboxes st ++ map (fun r => fst (fst r)) rs /\
    ret_scores st' = ret_scores st ++ map (fun r => snd (fst r)) rs /\
    ret_imgs st' = (if visualize then ret_imgs st ++ map snd rs
                    else ret_imgs st).
Proof.
  induction c as [|c IH]; intros i0 st st' H Hi Hb.
  - simpl in H. inversion H; subst. exists [].
    rewrite py_range2_nil by lia. simpl. rewrite !app_nil_r.
    destruct visualize; auto.
  - rewrite <- cons_seq, <- seq_shift in H. simpl in H.
    apply bind_ok in H. destruct H as (st1 & H1 & H2).
    replace (i0 + 0) with i0 in H1 by lia.
    rewrite !map_map in H2.
    rewrite (map_ext _ (fun k => (i0 + batch_size) + Z.of_nat k * batch_size))
      in H2 by (intros; lia).
    rewrite <- (map_map Z.of_nat (fun k => i0 + batch_size + k * batch_size)) in H2.
    apply IH in H2; try lia.
    apply turn_frames in H1; auto.
    destruct H1 as (r1 & E1 & B1 & S1 & I1).
    destruct H2 as (r2 & E2 & B2 & S2 & I2).
    set (L := len search_window) in *.
    assert (HL : 0 <= L) by (unfold L, len; lia).
    replace (i0 + Z.of_nat (S c) * batch_size)
      with (i0 + batch_size + Z.of_nat c * batch_size) by lia.
    exists (r1 ++ r2). split; [|split; [|split]].
    + destruct (Z_le_gt_dec (i0 + batch_size) L).
      * replace (Z.min (i0 + batch_size) L) with (i0 + batch_size) in E1 by lia.
        rewrite <- (py_range2_app i0 (i0 + batch_size)) by nia.
        apply mapM_app; assumption.
      * replace (Z.min (i0 + batch_size + Z.of_nat c * batch_size) L) with L in * by nia.
        replace (Z.min (i0 + batch_size) L) with L in E1 by lia.
        rewrite (py_range2_nil (i0 + batch_size) L) in E2 by lia.
        simpl in E2. inversion E2; subst. rewrite app_nil_r. auto.
    + rewrite B2, B1, map_app, app_assoc. reflexivity.
    + rewrite S2, S1, map_app, app_assoc. reflexivity.
    + rewrite I2, I1. destruct visualize; auto.
      rewrite map_app, app_assoc. reflexivity.
Qed.

Lemma frames_turns c : forall i0 st rs,
  mapM frame_at
    (py_range2 i0 (Z.min (i0 + Z.of_nat c * batch_size) (len search_window)))
  = Ok rs ->
  0 <= i0 -> 0 < batch_size ->
  exists st',
    foldM turn (map (fun k => i0 + k * batch_size) (map Z.of_nat (seq 0 c))) st
    = Ok st'.
Proof.
  induction c as [|c IH]; intros i0 st rs H Hi Hb.
  - simpl. eauto.
  - rewrite <- cons_seq, <- seq_shift. simpl.
    replace (i0 + 0) with i0 by lia.
    set (L := len search_window) in *.
    assert (HL : 0 <= L) by (unfold L, len; lia).
    replace (i0 + Z.of_nat (S c) * batch_size)
      with (i0 + batch_size + Z.of_nat c * batch_size) in H by lia.
    assert (Hsplit : exists r1 r2,
      mapM frame_at (py_range2 i0 (Z.min (i0 + batch_size) L)) = Ok r1 /\
      mapM frame_at
        (py_range2 (i0 + batch_size)
           (Z.min (i0 + batch_size + Z.of_nat c * batch_size) L)) = Ok r2).
    { destruct (Z_le_gt_dec (i0 + batch_size) L).
      - replace (Z.min (i0 + batch_size) L) with (i0 + batch_size) by lia.
        rewrite <- (py_range2_app i0 (i0 + batch_size)) in H by nia.
        apply mapM_app_inv in H. destruct H as (r1 & r2 & E1 & E2 & _). eauto.
      - replace (Z.min (i0 + batch_size + Z.of_nat c * batch_size) L) with L in * by nia.
        replace (Z.min (i0 + batch_size) L) with L by lia.
        rewrite (py_range2_nil (i0 + batch_size) L) by lia.
        exists rs, []. auto. }
    destruct Hsplit as (r1 & r2 & E1 & E2).
    destruct (frames_turn st i0 r1 E1 Hi) as (st1 & ->). cbn [bind].
    rewrite !map_map.
    rewrite (map_ext _ (fun k => (i0 + batch_size) + Z.of_nat k * batch_size))
      by (intros; lia).
    rewrite <- (map_map Z.of_nat (fun k => i0 + batch_size + k * batch_size)).
    apply (IH _ _ r2); auto. lia.
Qed.

(** The loop of line 71 for a positive [batch_size] returns what the frames
    of the window give one by one, and returns whenever they all give
    something. *)
Lemma loop_frames starts :
  py_range3 0 (len search_window) batch_size = Ok starts ->
  0 < batch_size ->
  let one := retrieve_frame image f32 shape cv2_resize cv2_rescale tensor_div
               f32_astype_int f32_tolist video_reader visual_crop
               downscale_height detect reference in
  (forall st', foldM turn starts (initial_state image) = Ok st' ->
     exists rs, mapM one search_window = Ok rs /\
       ret_bboxes st' = map (fun r => fst (fst r)) rs /\
       ret_scores st' = map (fun r => snd (fst r)) rs /\
       ret_imgs st' = (if visualize then map snd rs else [])) /\
  (forall rs, mapM one search_window = Ok rs ->
     exists st', foldM turn starts (initial_state image) = Ok st').
Proof.
  intros Hs Hb one. unfold py_range3 in Hs.
  replace (batch_size =? 0) with false in Hs by (symmetry; apply Z.eqb_neq; lia).
  replace (0 <? batch_size) with true in Hs by (symmetry; apply Z.ltb_lt; lia).
  inversion Hs; subst; clear Hs.
  set (L := len search_window) in *.
  assert (HL : 0 <= L) by (unfold L, len; lia).
  set (c := (L - 0 + batch_size - 1) / batch_size) in *.
  assert (Hc : L <= c * batch_size /\ 0 <= c).
  { unfold c. replace (L - 0 + batch_size - 1) with (L + batch_size - 1) by lia.
    pose proof (Z.div_mod (L + batch_size - 1) batch_size ltac:(lia)).
    pose proof (Z.mod_pos_bound (L + batch_size - 1) batch_size Hb).
    split; [nia|]. apply Z.div_pos; lia. }
  assert (Eall : mapM frame_at
                   (py_range2 0 (Z.min (0 + Z.of_nat (Z.to_nat c) * batch_size) L))
                 = mapM one search_window).
  { rewrite Z2Nat.id by lia.
    replace (Z.min (0 + c * batch_size) L) with L by lia.
    unfold py_range2. rewrite Z.sub_0_r, mapM_map.
    rewrite <- (map_nth_py_range search_window 0) at 1. fold L.
    rewrite mapM_map. apply mapM_ext_in. intros j _. unfold frame_at.
    reflexivity. }
  unfold py_range. split.
  - intros st' H.
    apply (turns_frames (Z.to_nat c) 0) in H; try lia.
    destruct H as (rs & E & B & S & I). fold L in E. rewrite Eall in E.
    exists rs. simpl in B, S, I. auto.
  - intros rs H. rewrite <- Eall in H.
    apply (frames_turns (Z.to_nat c) 0 _ rs); auto. lia.
Qed.

End Batches.

(** ** Windows, once more *)

Lemma select_all q :
  0 <= q < max_len -> select_window q f_one f_one = Ok (py_range q).
Proof.
  unfold max_len. intros Hq.
  destruct (Z.eq_dec q 0) as [->|Hq0]; [reflexivity|].
  pose proof (in_unit_pos_unit _ one_unit) as Hu.
  destruct (recency_step_spec q f_one ltac:(lia) Hu) as (v & Hv & _ & _ & Er).
  assert (Ev : (v == inject_Z q)%Q).
  { apply (rnd_of_int _ _ q Hv); [|lia]. rewrite F2Q_one. ring. }
  rewrite (Qrne_comp _ _ Ev), Qrne_Z in Er.
  replace (q =? 0) with false in Er by (symmetry; apply Z.eqb_neq; lia).
  replace (q - q) with 0 in Er by lia. rewrite <- py_range_interval in Er.
  unfold select_window. rewrite Er. cbn [bind].
  rewrite subsample_step_pick, len_py_range by lia.
  destruct (sample_count_unit q f_one ltac:(lia) Hu) as (v' & Hv' & -> & _).
  assert (Ev' : (v' == inject_Z q)%Q).
  { apply (rnd_of_int _ _ q Hv'); [|lia]. rewrite F2Q_one. ring. }
  rewrite (Qfloor_comp _ _ Ev'), Qfloor_Z. cbn [bind].
  destruct (Z.eq_dec q 1) as [->|Hq1].
  - rewrite pick_1 by (rewrite len_py_range; lia). reflexivity.
  - rewrite pick_general; rewrite ?len_py_range; try lia.
    f_equal.
    rewrite (map_ext_in (lin_idx q q) (fun j => j)).
    + rewrite map_id, <- py_range_snoc by lia. apply map_nth_range. lia.
    + intros j Hj. apply in_py_range in Hj. apply lin_idx_identity; lia.
Qed.

Lemma select_in_range q rf sf :
  0 <= q < max_len -> in_unit rf -> in_unit sf ->
  exists sw, select_window q rf sf = Ok sw /\
             Forall (fun i => 0 <= i < q) sw.
Proof.
  unfold max_len. intros Hq Hrf Hsf.
  destruct (recency_window q rf ltac:(lia) Hrf) as (v & W & _ & _ & Hk & EW & Er).
  assert (HW : 0 <= W <= q) by (destruct (Qrne v =? 0); lia).
  unfold select_window. rewrite Er. cbn [bind].
  destruct (subsample_interval (Z.to_nat (q - W)) (Z.to_nat W) sf) as
    (l & -> & _ & Hin & _); auto; try lia.
  exists l. split; auto.
  eapply Forall_impl; [|exact Hin]. simpl. intros i Hi.
  apply in_interval in Hi. lia.
Qed.

Lemma cached_select_unfold q rf sf :
  cached_select_window q rf sf = select_window q rf sf.
Proof.
  unfold select_window, cached_select_window, recency_step, recency_count,
    subsample_step, sample_count.
  destruct (float_of_int (len (py_range q))) as [n|e]; cbn [bind]; auto.
  destruct (py_round (fmul n rf)) as [k|e]; cbn [bind]; auto.
  destruct (0 <? len (slice_from (py_range q) (- k))); cbn [bind];
    destruct (float_of_int _); reflexivity.
Qed.

Lemma select_empty q rf sf :
  q <= 0 -> is_finite rf = true -> is_finite sf = true ->
  select_window q rf sf = Ok [].
Proof.
  intros Hq Hr Hs. unfold select_window. rewrite py_range_nonpos by auto.
  destruct rf as [[|]| | |[|] m e]; try discriminate;
    destruct sf as [[|]| | |[|] m' e']; try discriminate; reflexivity.
Qed.

Lemma py_range3_pos n b :
  0 < b -> exists starts, py_range3 0 n b = Ok starts.
Proof.
  intros Hb. unfold py_range3.
  replace (b =? 0) with false by (symmetry; apply Z.eqb_neq; lia). eauto.
Qed.

Lemma py_range3_neg n b :
  0 <= n -> b < 0 -> py_range3 0 n b = Ok [].
Proof.
  intros Hn Hb. unfold py_range3.
  replace (b =? 0) with false by (symmetry; apply Z.eqb_neq; lia).
  replace (0 <? b) with false by (symmetry; apply Z.ltb_ge; lia).
  rewrite py_range_nonpos; [reflexivity|].
  assert (H : (0 - n - b - 1) / (- b) < 1).
  { apply Z.div_lt_upper_bound; lia. }
  lia.
Qed.

Lemma py_range3_empty b : b <> 0 -> py_range3 0 0 b = Ok [].
Proof.
  intros Hb. destruct (Z_lt_ge_dec b 0); [apply py_range3_neg; lia|].
  unfold py_range3.
  replace (b =? 0) with false by (symmetry; apply Z.eqb_neq; lia).
  replace (0 <? b) with true by (symmetry; apply Z.ltb_lt; lia).
  rewrite py_range_nonpos; [reflexivity|].
  assert (H : (0 - 0 + b - 1) / b < 1).
  { apply Z.div_lt_upper_bound; lia. }
  lia.
Qed.

Lemma mapM_ok_map {A B C} (f : A -> result B) (g : A -> result C) (h : B -> C)
    l r :
  mapM f l = Ok r ->
  (forall a b, In a l -> f a = Ok b -> g a = Ok (h b)) ->
  mapM g l = Ok (map h r).
Proof.
  revert r. induction l as [|a l IH]; intros r H Hfg; simpl in *.
  - inversion H. reflexivity.
  - apply bind_ok in H. destruct H as (b & Eb & H).
    apply bind_ok in H. destruct H as (bs & E & H). inversion H; subst.
    rewrite (Hfg a b) by auto. simpl. rewrite (IH bs) by auto. reflexivity.
Qed.

(** ** The live retriever, frame by frame *)

Section Retrievers.
Variable image : Type.
Variable f32 : Type.
Variable shape : image -> Z * Z.
Variable cv2_resize : image -> Z -> Z -> image.
Variable cv2_rescale : image -> pyfloat -> image.
Variable tensor_div : f32 -> pyfloat -> f32.
Variable f32_astype_int : f32 -> Z.
Variable f32_tolist : f32 -> pyfloat.
Variable extract_window_with_context :
  image -> Z * Z * Z * Z -> pyfloat -> Z -> Z -> result image.
Variable video_reader : video image.
Variable visual_crop : VisualCrop.
Variable net : Predictor image f32.
Variable downscale_height : Z.

Let live := perform_retrieval image f32 shape cv2_resize cv2_rescale
              tensor_div f32_astype_int f32_tolist extract_window_with_context
              video_reader visual_crop.
Let cached := @perform_cached_retrieval image f32 shape cv2_resize
                extract_window_with_context (list BBox) (list pyfloat)
                video_reader visual_crop.
Let prepare := prepare_reference image f32 shape cv2_resize
                 extract_window_with_context video_reader visual_crop net.
Let one := retrieve_frame image f32 shape cv2_resize cv2_rescale tensor_div
             f32_astype_int f32_tolist video_reader visual_crop
             downscale_height.

(** What the retriever returns for the frames [rs] searched one by one. *)
Let collect (visualize : bool) (reference : image)
    (rs : list (list BBox * list pyfloat * image)) :=
  (map (fun r => fst (fst r)) rs, map (fun r => snd (fst r)) rs,
   (if visualize then map snd rs else []), reference).

Lemma live_frames (detect : image -> image -> result (Instances f32))
    (q batch_size : Z) (rf sf : pyfloat) (visualize : bool)
    (reference : image) (sw : list Z) :
  pairwise image f32 net detect -> 0 < batch_size ->
  prepare = Ok reference -> select_window q rf sf = Ok sw ->
  (forall rs, mapM (one detect reference) sw = Ok rs ->
     live q net batch_size downscale_height rf sf visualize
     = Ok (collect visualize reference rs)) /\
  (forall r, live q net batch_size downscale_height rf sf visualize = Ok r ->
     exists rs, mapM (one detect reference) sw = Ok rs /\
                r = collect visualize reference rs).
Proof.
  intros Hnet Hb Hp Hs.
  destruct (py_range3_pos (len sw) batch_size Hb) as (starts & Est).
  destruct (loop_frames image f32 shape cv2_resize cv2_rescale tensor_div
              f32_astype_int f32_tolist video_reader visual_crop net batch_size
              downscale_height visualize reference sw detect Hnet starts Est Hb)
    as [Hto Hfrom].
  unfold live, perform_retrieval. fold prepare. rewrite Hp, Hs. cbn [bind].
  rewrite Est. cbn [bind]. split.
  - intros rs Hrs. destruct (Hfrom rs Hrs) as (st' & Est').
    rewrite Est'. cbn [bind].
    destruct (Hto st' Est') as (rs' & Hrs' & B & S & I).
    fold (one detect reference) in Hrs'.
    rewrite Hrs in Hrs'. inversion Hrs'; subst rs'.
    unfold collect. rewrite B, S, I. reflexivity.
  - intros r H. apply bind_ok in H. destruct H as (st' & Est' & H).
    inversion H; subst r.
    destruct (Hto st' Est') as (rs & Hrs & B & S & I).
    exists rs. split; [exact Hrs|]. unfold collect. rewrite B, S, I.
    reflexivity.
Qed.

(** X6: with a predictor that treats each pair on its own and a positive
    [batch_size], the live retriever returns exactly what searching the
    frames of the window one by one returns, and it returns whenever each
    frame does. *)
Theorem live_frame_by_frame
    (detect : image -> image -> result (Instances f32))
    (q batch_size : Z) (rf sf : pyfloat) (visualize : bool)
    (reference : image) (sw : list Z) :
  pairwise image f32 net detect -> 0 < batch_size ->
  prepare = Ok reference -> select_window q rf sf = Ok sw ->
  forall r,
    live q net batch_size downscale_height rf sf visualize = Ok r <->
    exists rs,
      mapM (one detect reference) sw = Ok rs /\
      r = (map (fun r => fst (fst r)) rs, map (fun r => snd (fst r)) rs,
           (if visualize then map snd rs else []), reference).
Proof.
  intros Hnet Hb Hp Hs r.
  destruct (live_frames detect q batch_size rf sf visualize reference sw
              Hnet Hb Hp Hs) as [Hfrom Hto].
  split.
  - intros H. apply Hto. exact H.
  - intros (rs & Hrs & ->). apply Hfrom. exact Hrs.
Qed.

(** X7: with a predictor that treats each pair on its own, the result of the
    live retriever does not depend on the (positive) batch size. *)
Theorem batch_size_irrelevant
    (detect : image -> image -> result (Instances f32))
    (q b1 b2 : Z) (rf sf : pyfloat) (visualize : bool)
    (r : list (list BBox) * list (list pyfloat) * list image * image) :
  pairwise image f32 net detect -> 0 < b1 -> 0 < b2 ->
  live q net b1 downscale_height rf sf visualize = Ok r ->
  live q net b2 downscale_height rf sf visualize = Ok r.
Proof.
  intros Hnet H1 H2 H.
  assert (Hp : exists reference sw,
             prepare = Ok reference /\ select_window q rf sf = Ok sw).
  { unfold live, perform_retrieval in H. fold prepare in H.
    apply bind_ok in H. destruct H as (reference & Hp & H).
    apply bind_ok in H. destruct H as (sw & Hs & _). eauto. }
  destruct Hp as (reference & sw & Hp & Hs).
  destruct (live_frames detect q b1 rf sf visualize reference sw Hnet H1 Hp Hs)
    as [_ Hto].
  destruct (live_frames detect q b2 rf sf visualize reference sw Hnet H2 Hp Hs)
    as [Hfrom _].
  destruct (Hto r H) as (rs & Hrs & ->). apply Hfrom. exact Hrs.
Qed.

(** X8: a cache filled by one live retrieval over all the frames before the
    query frame (both factors 1.0) makes the cached retriever return what
    the live retriever returns, for all factors in [[0, 1]]: both succeed,
    with the same boxes, scores, raw frames and reference. *)
Theorem cache_agrees_with_live
    (detect : image -> image -> result (Instances f32))
    (q b0 b : Z) (v0 : bool) (rf sf : pyfloat) (visualize : bool)
    (cached_bboxes : list (list BBox)) (cached_scores : list (list pyfloat))
    (imgs0 : list image) (ref0 : image) :
  pairwise image f32 net detect -> 0 < b0 -> 0 < b ->
  0 <= q < max_len -> in_unit rf -> in_unit sf ->
  live q net b0 downscale_height f_one f_one v0
  = Ok (cached_bboxes, cached_scores, imgs0, ref0) ->
  exists r,
    live q net b downscale_height rf sf visualize = Ok r /\
    cached q net cached_bboxes cached_scores rf sf visualize = Ok r.
Proof.
  intros Hnet Hb0 Hb Hq Hrf Hsf H0.
  assert (Hp : prepare = Ok ref0).
  { unfold live, perform_retrieval in H0. fold prepare in H0.
    apply bind_ok in H0. destruct H0 as (reference & Hp & H0).
    apply bind_ok in H0. destruct H0 as (sw & _ & H0).
    apply bind_ok in H0. destruct H0 as (st & _ & H0).
    apply bind_ok in H0. destruct H0 as (st' & _ & H0).
    inversion H0; subst. exact Hp. }
  destruct (live_frames detect q b0 f_one f_one v0 ref0 (py_range q)
              Hnet Hb0 Hp (select_all q Hq)) as [_ Hto0].
  destruct (Hto0 _ H0) as (crs & Hcrs & Ec). inversion Ec; subst. clear Ec.
  destruct (select_in_range q rf sf Hq Hrf Hsf) as (sw & Hs & Hin).
  destruct (live_frames detect q b rf sf visualize ref0 sw Hnet Hb Hp Hs)
    as [Hfrom _].
  (* every frame of the window was searched when the cache was filled *)
  assert (Hone : forall s, In s sw ->
            exists c, nth_error crs (Z.to_nat s) = Some c /\
                      one detect ref0 s = Ok c).
  { intros s Hs'. rewrite Forall_forall in Hin. apply Hin in Hs'.
    assert (E : nth_error (py_range q) (Z.to_nat s) = Some s).
    { rewrite py_range_interval, nth_error_interval by lia. f_equal. lia. }
    destruct (mapM_nth_error _ _ _ Hcrs _ _ E) as (c & Ec & Hc). eauto. }
  destruct (mapM_total (one detect ref0) sw) as (rs & Hrs).
  { intros s Hs'. destruct (Hone s Hs') as (c & _ & Hc). eauto. }
  exists (collect visualize ref0 rs). split; [apply Hfrom; exact Hrs|].
  unfold cached, perform_cached_retrieval. fold prepare.
  rewrite Hp, cached_select_unfold, Hs. cbn [bind].
  assert (Hidx : forall s, In s sw -> 0 <= s).
  { intros s Hs'. rewrite Forall_forall in Hin. apply Hin in Hs'. lia. }
  rewrite (mapM_ok_map _ (py_index (map (fun r => fst (fst r)) crs))
             (fun r => fst (fst r)) _ _ Hrs).
  2:{ intros s c Hs' Hc. destruct (Hone s Hs') as (c' & Ec' & Hc').
      rewrite Hc in Hc'. inversion Hc'; subst c'.
      rewrite <- (Z2Nat.id s) at 1 by auto.
      apply py_index_nth_error. rewrite nth_error_map, Ec'. reflexivity. }
  cbn [bind].
  rewrite (mapM_ok_map _ (py_index (map (fun r => snd (fst r)) crs))
             (fun r => snd (fst r)) _ _ Hrs).
  2:{ intros s c Hs' Hc. destruct (Hone s Hs') as (c' & Ec' & Hc').
      rewrite Hc in Hc'. inversion Hc'; subst c'.
      rewrite <- (Z2Nat.id s) at 1 by auto.
      apply py_index_nth_error. rewrite nth_error_map, Ec'. reflexivity. }
  cbn [bind]. unfold collect. destruct visualize; [|reflexivity].
  rewrite (mapM_ok_map _ video_reader snd _ _ Hrs).
  2:{ intros s c _ Hc. unfold one, retrieve_frame in Hc.
      apply bind_ok in Hc. destruct Hc as (x & Hx & Hc).
      apply bind_ok in Hc. destruct Hc as (inst & _ & Hc).
      inversion Hc; subst c. cbn [snd]. unfold load_one in Hx.
      destruct (video_reader s) as [orig|]; [|discriminate]. cbn [bind] in Hx.
      apply bind_ok in Hx. destruct Hx as (dh & _ & Hx).
      apply bind_ok in Hx. destruct Hx as (sc & _ & Hx).
      inversion Hx. reflexivity. }
  reflexivity.
Qed.

End Retrievers.

(** ** Edges of the retrievers *)

Lemma mapM_index_out {A} (l : list A) (sw : list Z) :
  Forall (fun s => 0 <= s) sw -> Exists (fun s => len l <= s) sw ->
  mapM (py_index l) sw = Raise IndexError.
Proof.
  intros Hnn Hex. induction sw as [|s sw IH]; [inversion Hex|].
  inversion Hnn as [|? ? Hs Hnn']; subst. simpl.
  destruct (Z_lt_ge_dec s (len l)) as [Hlt|Hge].
  - destruct (py_index_total l s ltac:(lia)) as (a & ->). cbn [bind].
    inversion Hex as [? ? Hh|? ? Ht]; subst; [lia|].
    rewrite (IH Hnn' Ht). reflexivity.
  - rewrite py_index_out by lia. reflexivity.
Qed.

Lemma mapM_index_in {A} (l : list A) (sw : list Z) :
  Forall (fun s => 0 <= s < len l) sw ->
  exists r, mapM (py_index l) sw = Ok r /\ length r = length sw.
Proof.
  intros H. destruct (mapM_total (py_index l) sw) as (r & Hr).
  - intros s Hs. rewrite Forall_forall in H. apply py_index_total, H, Hs.
  - exists r. split; auto. eapply mapM_length; eauto.
Qed.

Lemma py_index_raises {A} (l : list A) i e :
  py_index l i = Raise e -> e = IndexError.
Proof.
  unfold py_index. intros H.
  destruct ((if i <? 0 then i + len l else i) <? 0); [congruence|].
  destruct (nth_error l _); congruence.
Qed.

Lemma mapM_index_raises {A} (l : list A) sw e :
  mapM (py_index l) sw = Raise e -> e = IndexError.
Proof.
  induction sw as [|s sw IH]; simpl; [discriminate|].
  destruct (py_index l s) as [a|e'] eqn:E; cbn [bind].
  - destruct (mapM (py_index l) sw); cbn [bind]; [discriminate|].
    intros H. inversion H; subst. auto.
  - intros H. inversion H; subst. eapply py_index_raises; eauto.
Qed.

Section RetrieverEdges.
Variable image : Type.
Variable f32 : Type.
Variable shape : image -> Z * Z.
Variable cv2_resize : image -> Z -> Z -> image.
Variable cv2_rescale : image -> pyfloat -> image.
Variable tensor_div : f32 -> pyfloat -> f32.
Variable f32_astype_int : f32 -> Z.
Variable f32_tolist : f32 -> pyfloat.
Variable extract_window_with_context :
  image -> Z * Z * Z * Z -> pyfloat -> Z -> Z -> result image.
Variable video_reader : video image.
Variable visual_crop : VisualCrop.
Variable net : Predictor image f32.

Let live := perform_retrieval image f32 shape cv2_resize cv2_rescale
              tensor_div f32_astype_int f32_tolist extract_window_with_context
              video_reader visual_crop.
Let prepare := prepare_reference image f32 shape cv2_resize
                 extract_window_with_context video_reader visual_crop net.

(** X9: once the reference is prepared and the window selected, a
    [batch_size] of zero makes the live retriever raise [ValueError], for an
    empty window too, and a negative one makes it return no box list, no
    score list and no frame, without a call of the predictor. *)
Theorem nonpositive_batch_size (q batch_size downscale_height : Z)
    (rf sf : pyfloat) (visualize : bool) (reference : image) (sw : list Z) :
  prepare = Ok reference -> select_window q rf sf = Ok sw ->
  batch_size <= 0 ->
  live q net batch_size downscale_height rf sf visualize
  = (if batch_size =? 0 then Raise ValueError
     else Ok ([], [], [], reference)).
Proof.
  intros Hp Hs Hb. unfold live, perform_retrieval. fold prepare.
  rewrite Hp, Hs. cbn [bind].
  destruct (Z.eqb_spec batch_size 0) as [->|Hne]; [reflexivity|].
  rewrite py_range3_neg by (unfold len; lia). reflexivity.
Qed.

(** X10: when the live retriever returns with a positive [batch_size], every
    frame of the selected window was read, and the retriever returns one
    list of boxes and one list of scores per frame of the window, in the
    window's order; every box carries the number of the frame it was found
    in, and the reference is the prepared one. *)
Theorem results_follow_window (q batch_size downscale_height : Z)
    (rf sf : pyfloat) (visualize : bool) (bbs : list (list BBox))
    (scs : list (list pyfloat)) (imgs : list image) (reference : image) :
  0 < batch_size ->
  live q net batch_size downscale_height rf sf visualize
  = Ok (bbs, scs, imgs, reference) ->
  exists sw,
    select_window q rf sf = Ok sw /\ prepare = Ok reference /\
    len bbs = len sw /\ len scs = len sw /\
    Forall2 (fun s boxes => Forall (fun b => fno b = s) boxes) sw bbs /\
    Forall (fun s => exists orig, video_reader s = Ok orig) sw.
Proof.
  intros Hb H. unfold live, perform_retrieval in H. fold prepare in H.
  apply bind_ok in H. destruct H as (ref & Hp & H).
  apply bind_ok in H. destruct H as (sw & Hs & H).
  apply bind_ok in H. destruct H as (starts & Est & H).
  apply bind_ok in H. destruct H as (st & Hst & H).
  inversion H; subst. clear H.
  destruct (loop_aligned image f32 shape cv2_resize cv2_rescale tensor_div
              f32_astype_int f32_tolist video_reader visual_crop net batch_size
              downscale_height visualize reference sw starts st Est Hb Hst)
    as (Hl & Ha & Hr).
  exists sw. split; [exact Hs|]. split; [exact Hp|].
  pose proof (Forall2_length Ha) as Hlen. unfold len.
  repeat split; auto; lia.
Qed.

(** X11: when OpenCV's [resize] gives an image of the size it is asked for,
    every frame of a batch is scaled by the same factor
    [float(downscale_height) / original_height], computed on the frame
    after its aspect ratio is corrected; the warning is printed exactly for
    the frames whose shape differs from the stored one. *)
Theorem uniform_image_scale (downscale_height : Z) (visualize : bool)
    (reference : image) (sw : list Z) (b : batch image) (st : state image)
    (j : Z) (b' : batch image) (st' : state image) :
  (forall i w h, shape (cv2_resize i w h) = (h, w)) ->
  load_frame image shape cv2_resize cv2_rescale video_reader visual_crop
    downscale_height visualize reference sw (b, st) j = Ok (b', st') ->
  exists s orig dh sc,
    py_index sw j = Ok s /\ video_reader s = Ok orig /\
    float_of_int downscale_height = Ok dh /\
    py_truediv dh (original_height visual_crop) = Ok sc /\
    image_scales image b' = image_scales image b ++ [sc] /\
    stdout st' =
      (if (fst (shape orig) =? original_height visual_crop)
          && (snd (shape orig) =? original_width visual_crop)
       then stdout st
       else stdout st ++ ["Incorrect aspect ratio encountered!"%string]).
Proof.
  intros Hr H. unfold load_frame in H.
  apply bind_ok in H. destruct H as (s & Es & H).
  apply bind_ok in H. destruct H as (orig & Eo & H).
  apply bind_ok in H. destruct H as (dh & Ed & H).
  apply bind_ok in H. destruct H as (sc & Esc & H).
  inversion H; subst; clear H.
  exists s, orig, dh, sc. cbn [image_scales stdout].
  repeat split; auto.
  - destruct (fst (shape orig) =? original_height visual_crop) eqn:E1;
      cbn [andb negb] in Esc.
    + destruct (snd (shape orig) =? original_width visual_crop);
        cbn [negb] in Esc.
      * apply Z.eqb_eq in E1. rewrite <- E1. exact Esc.
      * rewrite Hr in Esc. exact Esc.
    + rewrite Hr in Esc. exact Esc.
  - destruct ((fst (shape orig) =? original_height visual_crop)
              && (snd (shape orig) =? original_width visual_crop));
      reflexivity.
Qed.

Section Cached.
Variables B S : Type.

Let cached := @perform_cached_retrieval image f32 shape cv2_resize
                extract_window_with_context B S video_reader visual_crop.

(** X12: for a query frame and factors in range, the cached retriever without
    raw frames returns one entry per frame of the window when both caches
    have an entry for every frame of the window, and raises [IndexError]
    when a frame of the window has no entry in one of them; no index wraps
    around. *)
Theorem cached_lookups (q : Z) (rf sf : pyfloat) (cached_bboxes : list B)
    (cached_scores : list S) (visualize : bool) (reference : image) :
  0 <= q < max_len -> in_unit rf -> in_unit sf -> prepare = Ok reference ->
  exists sw,
    cached_select_window q rf sf = Ok sw /\
    (Forall (fun s => s < len cached_bboxes /\ s < len cached_scores) sw ->
     exists bbs scs,
       cached q net cached_bboxes cached_scores rf sf false
       = Ok (bbs, scs, [], reference) /\
       len bbs = len sw /\ len scs = len sw) /\
    (Exists (fun s => len cached_bboxes <= s \/ len cached_scores <= s) sw ->
     cached q net cached_bboxes cached_scores rf sf visualize
     = Raise IndexError).
Proof.
  intros Hq Hrf Hsf Hp.
  destruct (select_in_range q rf sf Hq Hrf Hsf) as (sw & Hs & Hin).
  exists sw. rewrite cached_select_unfold. split; [exact Hs|].
  assert (Hnn : Forall (fun s => 0 <= s) sw).
  { eapply Forall_impl; [|exact Hin]. simpl. intros. lia. }
  split.
  - intros Hall.
    destruct (mapM_index_in cached_bboxes sw) as (bbs & Eb & Lb).
    { rewrite Forall_forall in *. intros s Hs'.
      specialize (Hall s Hs'). specialize (Hnn s Hs'). simpl in *. lia. }
    destruct (mapM_index_in cached_scores sw) as (scs & Es & Ls).
    { rewrite Forall_forall in *. intros s Hs'.
      specialize (Hall s Hs'). specialize (Hnn s Hs'). simpl in *. lia. }
    exists bbs, scs. unfold cached, perform_cached_retrieval. fold prepare.
    rewrite Hp, cached_select_unfold, Hs. cbn [bind].
    rewrite Eb, Es. cbn [bind]. unfold len. repeat split; auto; lia.
  - intros Hex. unfold cached, perform_cached_retrieval. fold prepare.
    rewrite Hp, cached_select_unfold, Hs. cbn [bind].
    destruct (mapM (py_index cached_bboxes) sw) as [bbs|e] eqn:Eb.
    + cbn [bind]. rewrite mapM_index_out; auto.
      apply Exists_exists in Hex. destruct Hex as (s & Hs' & [Hlt|Hlt]).
      * exfalso. destruct (mapM_In _ _ _ Eb s Hs') as (a & Ea & _).
        rewrite py_index_out in Ea by auto. discriminate.
      * apply Exists_exists. eauto.
    + cbn [bind]. f_equal. eapply mapM_index_raises; eauto.
Qed.

(** X13: for [query_frame <= 0] and finite factors there is no frame to
    search: both retrievers return empty lists and the reference - the live
    one whatever its non-zero [batch_size], the cached one whatever its
    caches hold. *)
Theorem nothing_to_search (q batch_size downscale_height : Z)
    (rf sf : pyfloat) (visualize : bool) (cached_bboxes : list B)
    (cached_scores : list S) (reference : image) :
  q <= 0 -> is_finite rf = true -> is_finite sf = true ->
  batch_size <> 0 -> prepare = Ok reference ->
  select_window q rf sf = Ok [] /\
  live q net batch_size downscale_height rf sf visualize
  = Ok ([], [], [], reference) /\
  cached q net cached_bboxes cached_scores rf sf visualize
  = Ok ([], [], [], reference).
Proof.
  intros Hq Hr Hs Hb Hp.
  pose proof (select_empty q rf sf Hq Hr Hs) as Hsel.
  split; [exact Hsel|]. split.
  - unfold live, perform_retrieval. fold prepare. rewrite Hp, Hsel.
    cbn [bind]. change (len []) with 0.
    rewrite py_range3_empty by auto. reflexivity.
  - unfold cached, perform_cached_retrieval. fold prepare.
    rewrite Hp, cached_select_unfold, Hsel. cbn [bind mapM].
    destruct visualize; reflexivity.
Qed.

End Cached.
End RetrieverEdges.

(** ** The subsampled frames lie in the recency window *)

(** X14: for factors in [[0, 1]] the recency step keeps the last [W] frames
    for some [W <= query_frame], and every frame of the selected window is
    one of them. *)
Theorem window_within_recent (q : Z) (rf sf : pyfloat) :
  0 <= q < max_len -> in_unit rf -> in_unit sf ->
  exists W l,
    0 <= W <= q /\
    recency_step (py_range q) rf
    = Ok (map (fun i => q - W + i) (py_range W)) /\
    select_window q rf sf = Ok l /\
    Forall (fun s => q - W <= s < q) l.
Proof.
  unfold max_len. intros Hq Hrf Hsf.
  destruct (recency_window q rf ltac:(lia) Hrf) as (v & W & _ & _ & Hk & EW & Er).
  assert (HW : 0 <= W <= q) by (destruct (Qrne v =? 0); lia).
  destruct (subsample_interval (Z.to_nat (q - W)) (Z.to_nat W) sf) as
    (l & El & _ & Hin & _); auto; try lia.
  exists W, l. split; [exact HW|]. split; [|split].
  - rewrite Er. f_equal. rewrite interval_shift, py_range_interval.
    apply map_ext. intros. lia.
  - unfold select_window. rewrite Er. cbn [bind]. exact El.
  - eapply Forall_impl; [|exact Hin]. simpl. intros i Hi.
    apply in_interval in Hi. lia.
Qed.

(** ** A subsampling factor of one *)

(** X15: a subsampling factor of 1.0 leaves every non-empty window as it is,
    whatever frames it holds; so with it the selected window is the
    recency window. *)
Theorem unit_subsampling_keeps_window (w : list Z) (q : Z) (rf : pyfloat) :
  0 < len w < max_len ->
  subsample_step w f_one = Ok w /\
  (0 < q < max_len -> recency_step (py_range q) rf = Ok w ->
   select_window q rf f_one = Ok w).
Proof.
  intros Hw.
  assert (Hsub : forall w' : list Z,
            0 < len w' < max_len -> subsample_step w' f_one = Ok w').
  { clear. unfold max_len. intros w Hw.
    pose proof (in_unit_pos_unit _ one_unit) as Hu.
    rewrite subsample_step_pick.
    destruct (sample_count_unit (len w) f_one ltac:(lia) Hu) as (v & Hv & -> & _).
    assert (Ev : (v == inject_Z (len w))%Q).
    { apply (rnd_of_int _ _ (len w) Hv); [|lia]. rewrite F2Q_one. ring. }
    rewrite (Qfloor_comp _ _ Ev), Qfloor_Z. cbn [bind].
    destruct (Z.eq_dec (len w) 1) as [H1|H1].
    - rewrite H1, pick_1 by lia.
      destruct w as [|a [|b w]]; try discriminate; [reflexivity|].
      unfold len in H1. simpl in H1. lia.
    - rewrite pick_general by lia. f_equal.
      rewrite (map_ext_in (lin_idx (len w) (len w)) (fun j => j)).
      + rewrite map_id, <- py_range_snoc by lia. apply map_nth_py_range.
      + intros j Hj. apply in_py_range in Hj. apply lin_idx_identity; lia. }
  split; [apply Hsub; exact Hw|].
  intros Hq Er. unfold select_window. rewrite Er. cbn [bind].
  apply Hsub. exact Hw.
Qed.

Lemma unit_subsampling_keeps_window_witness :
  subsample_step [7; 3; 9] f_one = Ok [7; 3; 9] /\
  select_window 10 f_half f_one = Ok [5; 6; 7; 8; 9].
Proof.
  assert (Hw : 0 < len [7; 3; 9] < max_len) by (split; reflexivity).
  assert (Hw' : 0 < len [5; 6; 7; 8; 9] < max_len) by (split; reflexivity).
  split.
  - apply (unit_subsampling_keeps_window [7; 3; 9] 0 f_one Hw).
  - apply (unit_subsampling_keeps_window [5; 6; 7; 8; 9] 10 f_half Hw').
    + split; reflexivity.
    + vm_compute. reflexivity.
Defined.

(** ** The retrievers on the small video *)

Lemma toy_net_pairwise : pairwise Z Z toy_net_busy toy_detect.
Proof.
  intros imgs. induction imgs as [|i imgs IH]; intros [|r refs] Hl;
    try discriminate; [reflexivity|].
  simpl in Hl. injection Hl as Hl. specialize (IH refs Hl).
  simpl in *. rewrite <- IH. reflexivity.
Qed.

Lemma half_unit : in_unit f_half.
Proof. split; [reflexivity|vm_compute; discriminate]. Qed.

Lemma toy_prepared :
  prepare_reference Z Z toy_shape toy_resize toy_extract toy_reader toy_crop
    toy_net_busy = Ok 0.
Proof. reflexivity. Qed.

Lemma live_frame_by_frame_witness :
  exists rs,
    mapM (retrieve_frame Z Z toy_shape toy_resize toy_rescale toy_div
            (fun c => c) of_int toy_reader toy_crop 4 toy_detect 0)
         [0; 1; 2] = Ok rs /\
    (toy_boxes 3, toy_scores 3, [0; 1; 2], 0)
    = (map (fun r => fst (fst r)) rs, map (fun r => snd (fst r)) rs,
       (if true then map snd rs else []), 0).
Proof.
  apply (live_frame_by_frame Z Z toy_shape toy_resize toy_rescale toy_div
           (fun c => c) of_int toy_extract toy_reader toy_crop toy_net_busy 4
           toy_detect 3 2 f_one f_one true 0 [0; 1; 2]).
  - exact toy_net_pairwise.
  - lia.
  - reflexivity.
  - vm_compute. reflexivity.
  - vm_compute. reflexivity.
Defined.

Lemma batch_size_irrelevant_witness :
  toy_live 3 2 f_one f_one true = Ok (toy_boxes 3, toy_scores 3, [0; 1; 2], 0).
Proof.
  unfold toy_live. apply (batch_size_irrelevant _ _ _ _ _ _ _ _ _ _ _ _ _
                            toy_detect 3 1 2).
  - exact toy_net_pairwise.
  - lia.
  - lia.
  - vm_compute. reflexivity.
Defined.

Lemma cache_agrees_with_live_witness :
  exists r,
    toy_live 4 2 f_half f_one true = Ok r /\
    toy_cached 4 (toy_boxes 4) (toy_scores 4) f_half f_one true = Ok r.
Proof.
  unfold toy_live, toy_cached.
  apply (cache_agrees_with_live _ _ _ _ _ _ _ _ _ _ _ _ _ toy_detect
           4 1 2 false f_half f_one true (toy_boxes 4) (toy_scores 4) [] 0).
  - exact toy_net_pairwise.
  - lia.
  - lia.
  - split; [lia|reflexivity].
  - exact half_unit.
  - exact (in_unit_pos_unit _ one_unit).
  - vm_compute. reflexivity.
Defined.

Lemma nonpositive_batch_size_witness :
  toy_live 3 0 f_one f_one true = Raise ValueError /\
  toy_live 3 (-2) f_one f_one true = Ok ([], [], [], 0).
Proof.
  assert (Hs : select_window 3 f_one f_one = Ok [0; 1; 2])
    by (vm_compute; reflexivity).
  split.
  - exact (nonpositive_batch_size Z Z toy_shape toy_resize toy_rescale toy_div
             (fun c => c) of_int toy_extract toy_reader toy_crop toy_net_busy
             3 0 4 f_one f_one true 0 [0; 1; 2] toy_prepared Hs ltac:(lia)).
  - exact (nonpositive_batch_size Z Z toy_shape toy_resize toy_rescale toy_div
             (fun c => c) of_int toy_extract toy_reader toy_crop toy_net_busy
             3 (-2) 4 f_one f_one true 0 [0; 1; 2] toy_prepared Hs ltac:(lia)).
Defined.

Lemma results_follow_window_witness :
  exists sw,
    select_window 3 f_one f_one = Ok sw /\
    prepare_reference Z Z toy_shape toy_resize toy_extract toy_reader toy_crop
      toy_net_busy = Ok 0 /\
    len (toy_boxes 3) = len sw /\ len (toy_scores 3) = len sw /\
    Forall2 (fun s boxes => Forall (fun b => fno b = s) boxes) sw (toy_boxes 3) /\
    Forall (fun s => exists orig, toy_reader s = Ok orig) sw.
Proof.
  apply (results_follow_window Z Z toy_shape toy_resize toy_rescale toy_div
           (fun c => c) of_int toy_extract toy_reader toy_crop toy_net_busy
           3 2 4 f_one f_one true (toy_boxes 3) (toy_scores 3) [0; 1; 2] 0).
  - lia.
  - vm_compute. reflexivity.
Defined.

Lemma nothing_to_search_witness :
  select_window 0 f_half f_half = Ok [] /\
  toy_live 0 8 f_half f_half true = Ok ([], [], [], 0) /\
  toy_cached 0 [] [] f_half f_half true = Ok ([], [], [], 0).
Proof.
  unfold toy_live, toy_cached. apply nothing_to_search.
  - lia.
  - reflexivity.
  - reflexivity.
  - lia.
  - reflexivity.
Defined.

Lemma uniform_image_scale_witness :
  exists s orig dh sc,
    py_index [5; 6] 1 = Ok s /\ sized_reader s = Ok orig /\
    float_of_int 8 = Ok dh /\
    py_truediv dh (original_height toy_crop) = Ok sc /\
    [of_int 2] = [] ++ [sc] /\
    ["Incorrect aspect ratio encountered!"%string] =
      (if (fst (sized_shape orig) =? original_height toy_crop)
          && (snd (sized_shape orig) =? original_width toy_crop)
       then [] else [] ++ ["Incorrect aspect ratio encountered!"%string]).
Proof.
  apply (uniform_image_scale (Z * Z) sized_shape sized_resize sized_rescale
           sized_reader toy_crop 8 true (0, 0) [5; 6]
           {| bimages := []; breferences := []; image_scales := [] |}
           (initial_state (Z * Z)) 1
           {| bimages := [(4, 4)]; breferences := [(0, 0)];
              image_scales := [of_int 2] |}
           {| ret_bboxes := []; ret_scores := []; ret_imgs := [(3, 6)];
              stdout := ["Incorrect aspect ratio encountered!"%string] |}).
  - intros i w h. reflexivity.
  - vm_compute. reflexivity.
Defined.

Lemma cached_lookups_witness :
  exists sw,
    cached_select_window 3 f_one f_one = Ok sw /\
    (Forall (fun s => s < len [10; 11; 12] /\ s < len [20; 21; 22]) sw ->
     exists bbs scs,
       perform_cached_retrieval Z Z toy_shape toy_resize toy_extract toy_reader
         toy_crop 3 toy_net [10; 11; 12] [20; 21; 22] f_one f_one false
       = Ok (bbs, scs, [], 0) /\
       len bbs = len sw /\ len scs = len sw) /\
    (Exists (fun s => len [10; 11; 12] <= s \/ len [20; 21; 22] <= s) sw ->
     perform_cached_retrieval Z Z toy_shape toy_resize toy_extract toy_reader
       toy_crop 3 toy_net [10; 11; 12] [20; 21; 22] f_one f_one true
     = Raise IndexError).
Proof.
  apply (cached_lookups Z Z toy_shape toy_resize toy_extract toy_reader
           toy_crop toy_net Z Z 3 f_one f_one [10; 11; 12] [20; 21; 22]
           true 0).
  - split; [lia|reflexivity].
  - exact (in_unit_pos_unit _ one_unit).
  - exact (in_unit_pos_unit _ one_unit).
  - reflexivity.
Defined.

Lemma window_within_recent_witness :
  exists W l,
    0 <= W <= 10 /\
    recency_step (py_range 10) f_half
    = Ok (map (fun i => 10 - W + i) (py_range W)) /\
    select_window 10 f_half f_half = Ok l /\
    Forall (fun s => 10 - W <= s < 10) l.
Proof.
  apply window_within_recent.
  - split; [lia|reflexivity].
  - exact half_unit.
  - exact half_unit.
Defined.
